(** * colab_evaluation: low-memory evaluation of multi-label predictions

    A shallow embedding of [colab_evaluation.py] and the properties of its
    components: the Batch Reader ([batch_inferences],
    [batched_inferences_from_files]), the Sparsifier
    ([_make_tidy_df_from_seq_names_and_prediction_array]), the Aligner
    ([merge_predictions_and_ground_truth]), the Curve Builder
    ([get_pr_curve_df], [filter_pr_curve]) and the Confusion Assigner
    ([assign_tp_fp_fn]).

    Scores are IEEE-754 binary64 numbers, as numpy's [float64] and Python's
    [float] are; they are modelled by Rocq's primitive [float], whose
    comparisons and arithmetic are the IEEE ones (a comparison with NaN is
    false). The entries of a [float32] array are binary64 numbers too; what
    the dtype of an array changes is how numpy compares it with a Python
    float, which [as_dtype] models. Python exceptions are modelled by the
    [result] type. *)

From Stdlib Require Import Floats ZArith Lia.
From stdpp Require Import gmap strings list sorting.

Set Warnings "-inexact-float".

(** * Part I: the program *)

(** ** Python values *)

(** The exceptions the modelled code can raise. *)
Inductive exn : Set :=
| IndexError
| ValueError
| TypeError.

(** The outcome of a call: a value, or a raised exception. *)
Inductive result (A : Type) : Type :=
| Ok (a : A)
| Raise (e : exn).
Arguments Ok {A} a.
Arguments Raise {A} e.

Definition bind {A B : Type} (r : result A) (k : A -> result B) : result B :=
  match r with
  | Ok a => k a
  | Raise e => Raise e
  end.

Notation "x <- r ;; k" := (bind r (fun x => k))
  (at level 100, r at next level, right associativity, only parsing).

(** [xs[i]] on a Python list or numpy vector, for [i >= 0]. *)
Definition index {A : Type} (xs : list A) (i : nat) : result A :=
  match xs !! i with
  | Some x => Ok x
  | None => Raise IndexError
  end.

(** A loop over a list whose body can raise. *)
Fixpoint foldM {S A : Type} (body : S -> A -> result S) (s : S) (l : list A)
  : result S :=
  match l with
  | [] => Ok s
  | a :: l => s' <- body s a ;; foldM body s' l
  end.

(** A loop that collects the results of its body. *)
Fixpoint mapM {A B : Type} (body : A -> result B) (l : list A)
  : result (list B) :=
  match l with
  | [] => Ok []
  | a :: l => b <- body a ;; bs <- mapM body l ;; Ok (b :: bs)
  end.

(** Python's [x > y], [x < y], [x >= y] and [x == y] on floats. *)
Definition fgt (x y : float) : bool := PrimFloat.ltb y x.
Definition flt (x y : float) : bool := PrimFloat.ltb x y.
Definition fge (x y : float) : bool := PrimFloat.leb y x.
Definition feq (x y : float) : bool := PrimFloat.eqb x y.

(** The dtype of a numpy array of floats, or of a column of floats. *)
Inductive dtype : Set :=
| float32
| float64.

(** A finite number brought to the binary format of precision [prec] and
    exponent bound [emax]: rounded to the nearest number of the format, ties
    to even, and to an infinity beyond the largest one. *)
Definition renormalize (prec emax : Z) (sf : spec_float) : spec_float :=
  match sf with
  | S754_finite s m e => binary_normalize prec emax (cond_Zopp s (Zpos m)) e s
  | _ => sf
  end.

(** [np.float32(x)], as the binary64 number with the same value: [x] is
    rounded to binary32 (precision 24, exponents below 128); zeros,
    infinities and NaN are kept. *)
Definition to_float32 (x : float) : float :=
  match Prim2SF x with
  | S754_finite _ _ _ =>
      SF2Prim (renormalize 53 1024 (renormalize 24 128 (Prim2SF x)))
  | _ => x
  end.

(** A Python float as numpy takes it in an operation with an array of dtype
    [dt]: the operation is carried out in the dtype of the array, so the
    float is brought to it. On a [float64] array this changes nothing. *)
Definition as_dtype (dt : dtype) (x : float) : float :=
  match dt with
  | float32 => to_float32 x
  | float64 => x
  end.

(** The Python floats within the range of a dtype: all of them for
    [float64]; for [float32], those that are not finite or are below
    [3.4e38] in absolute value. Beyond this range the versions of numpy
    differ (the older ones carry the operation out in [float64], the newer
    ones let the float overflow to an infinity), and the properties of the
    comparisons with an array of dtype [dt] are stated for the floats
    within its range. *)
Definition in_range (dt : dtype) (x : float) : bool :=
  match dt with
  | float32 => negb (is_finite x) || PrimFloat.ltb (abs x) 3.4e38
  | float64 => true
  end.

(** A cell of the [value] column after [fillna(False)]: a float, or the
    Python boolean the missing entries were filled with. *)
Inductive scalar : Set :=
| SFloat (x : float)
| SBool (b : bool).

(** The number a cell stands for in a comparison: Python's [False] is [0]
    and [True] is [1]. *)
Definition scalar_num (v : scalar) : float :=
  match v with
  | SFloat x => x
  | SBool true => 1%float
  | SBool false => 0%float
  end.

(** ** Aligner *)

(** A row of the tidy predictions table: [up_id], [label], [value]. *)
Record prediction : Set := MkPrediction {
  pred_up_id : string;
  pred_label : string;
  pred_value : float
}.

(** A row of the tidy ground-truth table: [up_id], [label], [gt]. *)
Record truth : Set := MkTruth {
  truth_up_id : string;
  truth_label : string;
  truth_gt : bool
}.

(** A row of the outer join, before filling: a side that has no row for the
    key leaves its column empty (NaN in pandas). *)
Record joined : Set := MkJoined {
  joined_up_id : string;
  joined_label : string;
  joined_value : option float;
  joined_gt : option bool
}.

(** A row of the aligned table. *)
Record aligned : Set := MkAligned {
  up_id : string;
  label : string;
  value : scalar;
  gt : bool
}.

(** The join key, [["label", "up_id"]]. *)
Definition pred_key (p : prediction) : string * string :=
  (pred_label p, pred_up_id p).
Definition truth_key (g : truth) : string * string :=
  (truth_label g, truth_up_id g).
Definition joined_key (j : joined) : string * string :=
  (joined_label j, joined_up_id j).
Definition aligned_key (r : aligned) : string * string :=
  (label r, up_id r).

(** The rows of the join that come from one left row: one per right row with
    the same key, or a single row with an empty [gt] when there is none. *)
Definition join_left (right : list truth) (p : prediction) : list joined :=
  match filter (fun g => truth_key g = pred_key p) right with
  | [] => [MkJoined (pred_up_id p) (pred_label p) (Some (pred_value p)) None]
  | ms =>
      (fun g => MkJoined (pred_up_id p) (pred_label p)
                  (Some (pred_value p)) (Some (truth_gt g))) <$> ms
  end.

(** The row of the join for a right row whose key no left row has. *)
Definition join_right_only (g : truth) : joined :=
  MkJoined (truth_up_id g) (truth_label g) None (Some (truth_gt g)).

(** [left.merge(right, how="outer", on=["label", "up_id"])]: pandas' full
    outer join. Its rows are the matching pairs, the left rows without a
    match and the right rows without a match. The order of the rows is the
    library's, and differs between its versions: here the rows of the left
    table come first, in their order, then the unmatched rows of the right
    table, where other versions sort the rows by key. The properties below
    are about the rows of the table, not about their order. *)
Definition outer_merge (left : list prediction) (right : list truth)
  : list joined :=
  (left ≫= join_left right)
  ++ (join_right_only <$>
        filter (fun g => truth_key g ∉ pred_key <$> left) right).

(** [fillna(False)] on the [value] column: an empty or NaN cell becomes
    [False]. *)
Definition fillna_value (o : option float) : scalar :=
  match o with
  | Some x => if is_nan x then SBool false else SFloat x
  | None => SBool false
  end.

(** [fillna(False)] on the [gt] column. *)
Definition fillna_gt (o : option bool) : bool :=
  match o with
  | Some b => b
  | None => false
  end.

Definition fillna (j : joined) : aligned :=
  MkAligned (joined_up_id j) (joined_label j)
    (fillna_value (joined_value j)) (fillna_gt (joined_gt j)).

Definition merge_predictions_and_ground_truth
  (predictions_df : list prediction) (ground_truth_df : list truth)
  : list aligned :=
  let combined := outer_merge predictions_df ground_truth_df in
  fillna <$> combined.

(** ** Curve Builder *)

(** [abs(a - b) >= resolution]. *)
Definition far (resolution a b : float) : bool :=
  fge (abs (a - b)) resolution.

(** The local variables of [filter_pr_curve]. *)
Record filter_state : Set := MkFilter {
  last_precision : option float;
  last_recall : option float;
  new_precisions : list float;
  new_recalls : list float;
  new_thresholds : list float
}.

(** The condition of the [if] in the loop of [filter_pr_curve], with
    Python's short-circuit [or]. Subtracting [None] raises TypeError. *)
Definition filter_test (precisions recalls : list float) (resolution : float)
  (st : filter_state) (i : nat) : result bool :=
  match last_precision st with
  | None => Ok true
  | Some last_p =>
      p <- index precisions i ;;
      if far resolution p last_p then Ok true
      else
        r <- index recalls i ;;
        match last_recall st with
        | Some last_r => Ok (far resolution r last_r)
        | None => Raise TypeError
        end
  end.

(** The body of the loop of [filter_pr_curve]. *)
Definition filter_step (precisions recalls thresholds : list float)
  (resolution : float) (st : filter_state) (i : nat) : result filter_state :=
  keep <- filter_test precisions recalls resolution st i ;;
  if keep : bool then
    p <- index precisions i ;;
    r <- index recalls i ;;
    t <- index thresholds i ;;
    Ok (MkFilter (Some p) (Some r) (new_precisions st ++ [p])
          (new_recalls st ++ [r]) (new_thresholds st ++ [t]))
  else Ok st.

Definition filter_pr_curve (precisions recalls thresholds : list float)
  (resolution : float) : result (list float * list float * list float) :=
  st <- foldM (filter_step precisions recalls thresholds resolution)
          (MkFilter None None [] [] []) (seq 0 (length precisions)) ;;
  Ok (new_precisions st, new_recalls st, new_thresholds st).

(** The default resolution of [filter_pr_curve]. *)
Definition default_resolution : float := 1e-3%float.

(** The sorted distinct scores. *)
Fixpoint insert_threshold (x : float) (ts : list float) : list float :=
  match ts with
  | [] => [x]
  | t :: ts' =>
      if feq x t then ts
      else if flt x t then x :: ts
      else t :: insert_threshold x ts'
  end.

Definition distinct_thresholds (y_score : list float) : list float :=
  foldr insert_threshold [] y_score.

(** A count as a float. *)
Fixpoint float_of_nat (n : nat) : float :=
  match n with
  | O => 0%float
  | S n => (float_of_nat n + 1)%float
  end.

(** The number of examples with ground truth [y] and a score of at least
    [t]. *)
Definition count_at (y_true : list bool) (y_score : list float) (y : bool)
  (t : float) : nat :=
  length
    (List.filter (fun yx : bool * float => Bool.eqb yx.1 y && fge yx.2 t)
       (zip y_true y_score)).

(** Modelled from the spec: [sklearn.metrics.precision_recall_curve] is a
    library routine, which the specification describes: one point per
    distinct score threshold, with precision [TP / (TP + FP)] and recall
    [TP / (total positives)] among the examples whose score is at least
    the threshold, then the final point with precision 1 and recall 0 that
    has no threshold. The points come by increasing threshold, so that the
    point without a threshold is the last one. An empty input is refused
    with ValueError. *)
Definition precision_recall_curve (y_true : list bool) (y_score : list float)
  : result (list float * list float * list float) :=
  if (length y_true =? 0) || negb (length y_true =? length y_score)
  then Raise ValueError
  else
    let thresholds := distinct_thresholds y_score in
    let positives :=
      float_of_nat (length (List.filter (fun y => Bool.eqb y true) y_true)) in
    let tps :=
      (fun t => float_of_nat (count_at y_true y_score true t))
        <$> thresholds in
    let fps :=
      (fun t => float_of_nat (count_at y_true y_score false t))
        <$> thresholds in
    let precisions := zip_with (fun tp fp => (tp / (tp + fp))%float) tps fps in
    let recalls := (fun tp => (tp / positives)%float) <$> tps in
    Ok (precisions ++ [1%float], recalls ++ [0%float], thresholds).

(** An arithmetic operation of numpy on two 1-d arrays: element by
    element; an array of one element is broadcast; other shapes that
    differ raise ValueError. *)
Definition broadcast (op : float -> float -> float) (xs ys : list float)
  : result (list float) :=
  if length xs =? length ys then Ok (zip_with op xs ys)
  else
    match xs, ys with
    | [x], _ => Ok (op x <$> ys)
    | _, [y] => Ok ((fun x => op x y) <$> xs)
    | _, _ => Raise ValueError
    end.

(** [2 * precisions * recalls / (precisions + recalls)]. *)
Definition f1_scores (precisions recalls : list float)
  : result (list float) :=
  num <- broadcast PrimFloat.mul (PrimFloat.mul 2 <$> precisions) recalls ;;
  den <- broadcast PrimFloat.add precisions recalls ;;
  broadcast PrimFloat.div num den.

(** A row of the precision-recall table. *)
Record curve_point : Set := MkPoint {
  curve_group : string;
  curve_precision : float;
  curve_recall : float;
  curve_threshold : float;
  curve_f1 : float
}.

(** [pd.DataFrame] of a scalar [group] and four arrays: the arrays must
    have one length. *)
Definition curve_frame (group_name : string)
  (precisions recalls thresholds f1s : list float)
  : result (list curve_point) :=
  if (length precisions =? length recalls)
     && (length recalls =? length thresholds)
     && (length thresholds =? length f1s)
  then
    Ok (zip_with (fun pr tf => MkPoint group_name pr.1 pr.2 tf.1 tf.2)
          (zip precisions recalls) (zip thresholds f1s))
  else Raise ValueError.

(** [combined['label'].map(grouping)]: the group of a row; a label that is
    not a key of the mapping gives no group (NaN). *)
Definition group_of (grouping : gmap string string) (r : aligned)
  : option string :=
  grouping !! label r.

(** [combined.groupby('group')]: the groups by ascending key, each with its
    rows in their order; rows without a group are in none. *)
Definition groupby (grouping : gmap string string) (combined : list aligned)
  : list (string * list aligned) :=
  let keys :=
    merge_sort String.le (remove_dups (omap (group_of grouping) combined)) in
  (fun k => (k, filter (fun r => group_of grouping r = Some k) combined))
    <$> keys.

Definition to_process (grouping : option (gmap string string))
  (combined : list aligned) : list (string * list aligned) :=
  match grouping with
  | None => [("all", combined)]
  | Some grouping => groupby grouping combined
  end.

(** The scores of the rows of a group, as [precision_recall_curve] gets
    them. *)
Definition scores_of (group : list aligned) : list float :=
  (fun r => scalar_num (value r)) <$> group.

(** The three arrays of a group that go into its table: the curve without
    its last point, filtered if asked. *)
Definition curve_arrays (filtered : bool) (group : list aligned)
  : result (list float * list float * list float) :=
  prt <- precision_recall_curve (gt <$> group) (scores_of group) ;;
  let precisions := removelast prt.1.1 in
  let recalls := removelast prt.1.2 in
  let thresholds := prt.2 in
  if filtered
  then filter_pr_curve precisions recalls thresholds default_resolution
  else Ok (precisions, recalls, thresholds).

(** The body of the loop over the groups. *)
Definition curve_of_group (filtered : bool) (named : string * list aligned)
  : result (list curve_point) :=
  prt <- curve_arrays filtered named.2 ;;
  f1s <- f1_scores prt.1.1 prt.1.2 ;;
  curve_frame named.1 prt.1.1 prt.1.2 prt.2 f1s.

(** [pd.concat]: an empty list of tables raises ValueError. *)
Definition pd_concat {A : Type} (dfs : list (list A)) : result (list A) :=
  match dfs with
  | [] => Raise ValueError
  | _ => Ok (concat dfs)
  end.

(** [get_pr_curve_df] from the aligned table on. *)
Definition pr_curve_of_aligned (grouping : option (gmap string string))
  (filtered : bool) (combined : list aligned) : result (list curve_point) :=
  output_dfs <- mapM (curve_of_group filtered) (to_process grouping combined) ;;
  pd_concat output_dfs.

Definition get_pr_curve_df (predictions_df : list prediction)
  (ground_truth_df : list truth) (grouping : option (gmap string string))
  (filtered : bool) : result (list curve_point) :=
  let combined :=
    merge_predictions_and_ground_truth predictions_df ground_truth_df in
  pr_curve_of_aligned grouping filtered combined.

(** ** Confusion Assigner *)

(** An aligned row with its [tp], [fp] and [fn] columns. *)
Record confusion : Set := MkConfusion {
  row : aligned;
  tp : bool;
  fp : bool;
  fn : bool
}.

(** The three columns of a row, for the number [threshold] the [value]
    column is compared with. *)
Definition assign_row (threshold : float) (r : aligned) : confusion :=
  MkConfusion r
    (Bool.eqb (gt r) true && fgt (scalar_num (value r)) threshold)
    (Bool.eqb (gt r) false && fgt (scalar_num (value r)) threshold)
    (Bool.eqb (gt r) true && flt (scalar_num (value r)) threshold).

(** [assign_tp_fp_fn] on a predictions table whose [value] column is of
    dtype [float64], or any table once a cell of the column has been
    filled: the values are compared with the threshold as it is given. *)
Definition assign_tp_fp_fn (predictions_df : list prediction)
  (ground_truth_df : list truth) (threshold : float) : list confusion :=
  let combined :=
    merge_predictions_and_ground_truth predictions_df ground_truth_df in
  assign_row threshold <$> combined.

(** A cell that [fillna(False)] has filled. *)
Definition is_filled (v : scalar) : bool :=
  match v with
  | SBool _ => true
  | SFloat _ => false
  end.

(** The number the [value] column of the aligned table is compared with in
    [combined['value'] > threshold] and [combined['value'] < threshold],
    when the [value] column of the predictions is of dtype [dt]. A column
    in which no cell was filled is still a numeric column of dtype [dt],
    and numpy compares it in that dtype. A column with a filled cell has
    become a column of Python objects, which are compared one by one as
    Python floats, with the threshold as it is given. *)
Definition column_threshold (dt : dtype) (combined : list aligned)
  (threshold : float) : float :=
  if existsb (fun r => is_filled (value r)) combined
  then threshold
  else as_dtype dt threshold.

(** [assign_tp_fp_fn] on a predictions table whose [value] column is of
    dtype [dt]. *)
Definition assign_tp_fp_fn_typed (dt : dtype)
  (predictions_df : list prediction) (ground_truth_df : list truth)
  (threshold : float) : list confusion :=
  let combined :=
    merge_predictions_and_ground_truth predictions_df ground_truth_df in
  assign_row (column_threshold dt combined threshold) <$> combined.

(** ** Batch Reader *)

(** A confidence vector, and a matrix as the list of its rows. *)
Abbreviation vector := (list float) (only parsing).
Abbreviation matrix := (list (list float)) (only parsing).

(** One record of the inference source: (identifier, confidence vector). *)
Abbreviation inference_record := (string * list float)%type (only parsing).

(** One batch: (seq_ids, stacked predictions). *)
Abbreviation batch := (list string * list (list float))%type (only parsing).

(** [np.vstack] of a list of 1-d vectors: the matrix with these rows. It
    raises ValueError on an empty list and when the vectors do not all have
    the same length. *)
Definition vstack (predictions : list vector) : result matrix :=
  match predictions with
  | [] => Raise ValueError
  | v :: vs =>
      if forallb (fun w => length w =? length v) vs
      then Ok predictions
      else Raise ValueError
  end.

(** What a generator does when it is run to its end: the items it yields,
    in order, and the exception that ended it, if one did. *)
Definition generated (A : Type) : Type := list A * option exn.

(** [yield a] followed by the rest of the run. *)
Definition yield {A : Type} (a : A) (rest : generated A) : generated A :=
  (a :: rest.1, rest.2).

(** The body of [batch_inferences], from the top of its [while True] loop,
    with the local variables [counter], [predictions] and [seq_ids]. The
    iterator is the list of the records it has left; [next] raises
    StopIteration on the empty list. *)
Fixpoint batch_loop (batch_size : Z) (iterator : list inference_record)
  (counter : Z) (predictions : list vector) (seq_ids : list string)
  : generated batch :=
  match iterator with
  | [] =>
      if 0 <? length seq_ids then
        match vstack predictions with
        | Ok m => yield (seq_ids, m) ([], None)
        | Raise e => ([], Some e)
        end
      else ([], None)
  | inference :: iterator =>
      let seq_ids := seq_ids ++ [inference.1] in
      let predictions := predictions ++ [inference.2] in
      let counter := (counter + 1)%Z in
      if (counter =? batch_size)%Z then
        match vstack predictions with
        | Ok m => yield (seq_ids, m) (batch_loop batch_size iterator 0 [] [])
        | Raise e => ([], Some e)
        end
      else batch_loop batch_size iterator counter predictions seq_ids
  end.

Definition batch_inferences (iterator : list inference_record)
  (batch_size : Z) : generated batch :=
  batch_loop batch_size iterator 0 [] [].

(** [batched_inferences_from_files]: [parse_shard] gives the records of a
    shard file (it belongs to the [inference] module). Every file gets a
    batch generator of its own, which is drained before the next file is
    opened. *)
Fixpoint batched_inferences_from_files
  (parse_shard : string -> list inference_record)
  (shard_names : list string) (batch_size : Z) : generated batch :=
  match shard_names with
  | [] => ([], None)
  | file_name :: shard_names =>
      let inference_iterator := parse_shard file_name in
      let batched_iterator := batch_inferences inference_iterator batch_size in
      match batched_iterator.2 with
      | Some e => (batched_iterator.1, Some e)
      | None =>
          let rest :=
            batched_inferences_from_files parse_shard shard_names batch_size in
          (batched_iterator.1 ++ rest.1, rest.2)
      end
  end.

(** The number of records of a batch, and the sizes the batching of [R]
    records by [B] has: [R / B] full batches, then the remainder if there
    is one. *)
Definition batch_len (b : batch) : nat := length b.1.

Definition batch_sizes (R B : nat) : list nat :=
  replicate (R / B) B ++ (if R mod B =? 0 then [] else [R mod B]).

(** All records carry vectors of one length. *)
Definition uniform (records : list inference_record) : Prop :=
  exists V : nat, Forall (fun r => length r.2 = V) records.

(** The batch made of a run of records. *)
Definition batch_of (chunk : list inference_record) : batch :=
  (chunk.*1, chunk.*2).

(** ** Sparsifier *)

(** [np.argwhere(preds > threshold)] on a 1-d vector, for a threshold of
    the dtype of the vector: the positions of the entries above the
    threshold, ascending. [i] is the position of the head of [preds]. *)
Fixpoint argwhere_gt_from (i : nat) (preds : vector) (threshold : float)
  : list nat :=
  match preds with
  | [] => []
  | x :: preds =>
      (if fgt x threshold then [i] else [])
      ++ argwhere_gt_from (S i) preds threshold
  end.

Definition argwhere_gt (preds : vector) (threshold : float) : list nat :=
  argwhere_gt_from 0 preds threshold.

(** The three lists the Sparsifier appends to. *)
Record tidy_columns : Set := MkTidy {
  up_ids : list string;
  labels : list string;
  values : list float
}.

(** The body of the inner loop. *)
Definition tidy_entry (up_id : string) (preds : vector) (vocab : list string)
  (cols : tidy_columns) (vocab_index : nat) : result tidy_columns :=
  l <- index vocab vocab_index ;;
  v <- index preds vocab_index ;;
  Ok (MkTidy (up_ids cols ++ [up_id]) (labels cols ++ [l])
        (values cols ++ [v])).

(** The body of the outer loop. *)
Definition tidy_example (sequence_names : list string)
  (predictions_array : matrix) (vocab : list string)
  (min_decision_threshold : float) (cols : tidy_columns) (i : nat)
  : result tidy_columns :=
  up_id <- index sequence_names i ;;
  preds <- index predictions_array i ;;
  foldM (tidy_entry up_id preds vocab) cols
    (argwhere_gt preds min_decision_threshold).

(** [pd.DataFrame({"up_id": .., "label": .., "value": ..})]: the rows of
    the table; columns of different lengths raise ValueError. *)
Definition tidy_frame (cols : tidy_columns) : result (list prediction) :=
  if (length (up_ids cols) =? length (labels cols))
     && (length (labels cols) =? length (values cols))
  then Ok (zip_with (fun ul v => MkPrediction ul.1 ul.2 v)
             (zip (up_ids cols) (labels cols)) (values cols))
  else Raise ValueError.

(** The Sparsifier on a matrix of dtype [float64]: the entries are
    compared with the threshold as it is given. *)
Definition _make_tidy_df_from_seq_names_and_prediction_array
  (sequence_names : list string) (predictions_array : matrix)
  (vocab : list string) (min_decision_threshold : float)
  : result (list prediction) :=
  cols <- foldM
            (tidy_example sequence_names predictions_array vocab
               min_decision_threshold)
            (MkTidy [] [] []) (seq 0 (length sequence_names)) ;;
  tidy_frame cols.

(** The Sparsifier on a matrix of dtype [dt]: numpy makes the comparison
    [preds > min_decision_threshold] in the dtype of [preds], with the
    Python float [min_decision_threshold] brought to it. The rows keep the
    entries of the matrix as they are. *)
Definition _make_tidy_df_from_typed_array (dt : dtype)
  (sequence_names : list string) (predictions_array : matrix)
  (vocab : list string) (min_decision_threshold : float)
  : result (list prediction) :=
  _make_tidy_df_from_seq_names_and_prediction_array sequence_names
    predictions_array vocab (as_dtype dt min_decision_threshold).

(** The entry [M[i, v]] of a matrix. *)
Definition entry (M : matrix) (i v : nat) : option float :=
  M !! i ≫= fun preds => preds !! v.

(** The columns that hold a list of rows, the relation between a cell
    [(i, v)] of the matrix and the row it is emitted as, and the cells of
    example [i] that are above the threshold. *)
Definition cols_of (rows : list prediction) : tidy_columns :=
  MkTidy (pred_up_id <$> rows) (pred_label <$> rows) (pred_value <$> rows).

Definition cell_row (sequence_names : list string) (vocab : list string)
  (M : matrix) (c : nat * nat) (r : prediction) : Prop :=
  sequence_names !! c.1 = Some (pred_up_id r)
  /\ vocab !! c.2 = Some (pred_label r)
  /\ entry M c.1 c.2 = Some (pred_value r).

Definition cells_of (M : matrix) (threshold : float) (i : nat)
  : list (nat * nat) :=
  match M !! i with
  | Some preds => pair i <$> argwhere_gt preds threshold
  | None => []
  end.

(** Two parallel lists of precisions and recalls in which every point is
    at least [resolution] away from the point before it, in precision or in
    recall. *)
Definition spaced (resolution : float) (ps rs : list float) : Prop :=
  forall (k : nat) (p r p' r' : float),
    ps !! k = Some p -> rs !! k = Some r ->
    ps !! S k = Some p' -> rs !! S k = Some r' ->
    far resolution p' p = true \/ far resolution r' r = true.

(** The invariant of the loop of [filter_pr_curve] on its output lists,
    after [m] rounds. *)
Definition filter_inv (resolution : float) (m : nat) (st : filter_state)
  : Prop :=
  length (new_precisions st) = length (new_recalls st)
  /\ length (new_recalls st) = length (new_thresholds st)
  /\ last_precision st = last (new_precisions st)
  /\ last_recall st = last (new_recalls st)
  /\ spaced resolution (new_precisions st) (new_recalls st)
  /\ length (new_precisions st) <= m
  /\ (0 < m -> 0 < length (new_precisions st)).

(** The last index of [kept] below [i]. *)
Definition last_kept_before (kept : list nat) (i : nat) : option nat :=
  last (filter (fun k => k < i) kept).

(** The criterion for keeping point [i], given the kept indices: it is the
    first point, or its precision or its recall is at least [resolution]
    away from that of the last point kept before it. *)
Definition keeps (resolution : float) (ps rs : list float) (kept : list nat)
  (i : nat) : Prop :=
  i = 0
  \/ exists (j : nat) (p_i p_j r_i r_j : float),
       last_kept_before kept i = Some j
       /\ ps !! i = Some p_i /\ ps !! j = Some p_j
       /\ rs !! i = Some r_i /\ rs !! j = Some r_j
       /\ (far resolution p_i p_j = true \/ far resolution r_i r_j = true).

(** The invariant of the loop of [filter_pr_curve] on the indices it has
    kept, after [m] rounds. *)
Definition kept_inv (resolution : float) (ps rs ts : list float) (m : nat)
  (st : filter_state) (kept : list nat) : Prop :=
  StronglySorted lt kept
  /\ Forall (fun k => k < m) kept
  /\ (forall i, i < m -> i ∈ kept <-> keeps resolution ps rs kept i)
  /\ Forall2 (fun i p => ps !! i = Some p) kept (new_precisions st)
  /\ Forall2 (fun i r => rs !! i = Some r) kept (new_recalls st)
  /\ Forall2 (fun i t => ts !! i = Some t) kept (new_thresholds st)
  /\ last_precision st = last kept ≫= (fun j => ps !! j)
  /\ last_recall st = last kept ≫= (fun j => rs !! j).

(** ** Callers of the Batch Reader and of the Sparsifier *)

(** [batched_inferences_from_dir]: [absolute_paths_of_files_in_dir] lists
    the files of a directory (it belongs to the [utils] module). *)
Definition batched_inferences_from_dir
  (absolute_paths_of_files_in_dir : string -> list string)
  (parse_shard : string -> list inference_record)
  (shard_dir_path : string) (batch_size : Z) : generated batch :=
  let files_to_process := absolute_paths_of_files_in_dir shard_dir_path in
  batched_inferences_from_files parse_shard files_to_process batch_size.

(** The default [batch_size] of [batched_inferences_from_dir]. *)
Definition default_batch_size : Z := 100.

(** The body of the loop of [get_normalized_inference_results]:
    [normalize_confidences] belongs to the [evaluation] module. *)
Definition tidy_batch {L : Type}
  (normalize_confidences : matrix -> list string -> L -> matrix)
  (vocab : list string) (label_normalizer : L)
  (min_decision_threshold : float) (b : batch) : result (list prediction) :=
  let seq_names := b.1 in
  let confidences := b.2 in
  let normed_confidences :=
    normalize_confidences confidences vocab label_normalizer in
  _make_tidy_df_from_seq_names_and_prediction_array seq_names
    normed_confidences vocab min_decision_threshold.

(** [get_normalized_inference_results]. The batches are taken from the
    generator one at a time, so that the table of a batch is made before
    the next batch is asked for: an exception of the generator comes after
    the tables of the batches it has yielded. The batch size is the
    default one. *)
Definition get_normalized_inference_results {L : Type}
  (absolute_paths_of_files_in_dir : string -> list string)
  (parse_shard : string -> list inference_record)
  (normalize_confidences : matrix -> list string -> L -> matrix)
  (shard_dir_path : string) (vocab : list string) (label_normalizer : L)
  (min_decision_threshold : float) : result (list prediction) :=
  let batches :=
    batched_inferences_from_dir absolute_paths_of_files_in_dir parse_shard
      shard_dir_path default_batch_size in
  dfs <- mapM (tidy_batch normalize_confidences vocab label_normalizer
                 min_decision_threshold) batches.1 ;;
  match batches.2 with
  | Some e => Raise e
  | None => pd_concat dfs
  end.

(** ** Ground-Truth Tidifier *)

(** A row of the ground-truth input: [sequence_name] and [true_label], the
    labels of the example. *)
Record ground_truth_example : Set := MkExample {
  sequence_name : string;
  true_label : list string
}.

(** The ground-truth table is the list of its rows, each with its index
    label, of a type [K]. The labels of a pandas index need not be
    distinct.

    [ground_truth[column][i]] looks the label [i] up in the index:
    [rows_at] gives the rows that carry it, in the order of the table. *)
Definition rows_at {K : Type} `{EqDecision K}
  (ground_truth : list (K * ground_truth_example)) (i : K)
  : list ground_truth_example :=
  snd <$> filter (fun r => r.1 = i) ground_truth.

(** A cell of the [up_id] column of the output: the name of an example,
    or, for an index label that several rows carry, the Series of the
    names of these rows. *)
Inductive up_id_cell : Set :=
| UpId (name : string)
| UpIds (names : list string).

(** A cell of the [label] column of the output: a label, or, for an index
    label that several rows carry, the list of the labels of one of these
    rows. *)
Inductive label_cell : Set :=
| Label (l : string)
| Labels (ls : list string).

(** [ground_truth['sequence_name'][i]]: the entry of the row with the index
    label [i] when one row carries it, a Series of entries otherwise. *)
Definition sequence_name_at {K : Type} `{EqDecision K}
  (ground_truth : list (K * ground_truth_example)) (i : K) : up_id_cell :=
  match rows_at ground_truth i with
  | [e] => UpId (sequence_name e)
  | es => UpIds (sequence_name <$> es)
  end.

(** What [for vocab_entry in ground_truth['true_label'][i]] runs over: the
    labels of the row with the index label [i] when one row carries it;
    otherwise the values of a Series, which are the lists of labels of the
    rows that carry it. *)
Definition true_label_at {K : Type} `{EqDecision K}
  (ground_truth : list (K * ground_truth_example)) (i : K)
  : list label_cell :=
  match rows_at ground_truth i with
  | [e] => Label <$> true_label e
  | es => (fun e => Labels (true_label e)) <$> es
  end.

(** The two lists [make_tidy_df_from_ground_truth] appends to. *)
Record truth_columns : Set := MkTruthColumns {
  gt_up_ids : list up_id_cell;
  gt_labels : list label_cell
}.

(** The body of the inner loop. *)
Definition truth_entry (up_id : up_id_cell) (cols : truth_columns)
  (vocab_entry : label_cell) : truth_columns :=
  MkTruthColumns (gt_up_ids cols ++ [up_id]) (gt_labels cols ++ [vocab_entry]).

(** The body of the outer loop, for the index label [i]. *)
Definition truth_example {K : Type} `{EqDecision K}
  (ground_truth : list (K * ground_truth_example)) (cols : truth_columns)
  (i : K) : truth_columns :=
  let up_id := sequence_name_at ground_truth i in
  foldl (truth_entry up_id) cols (true_label_at ground_truth i).

(** A row of the table [make_tidy_df_from_ground_truth] returns. *)
Record truth_row : Set := MkTruthRow {
  row_up_id : up_id_cell;
  row_label : label_cell;
  row_gt : bool
}.

(** The loop runs over [ground_truth.index], the index labels of the rows
    in order; then
    [pd.DataFrame({"up_id": up_ids, "label": labels, "gt": True})]. *)
Definition make_tidy_df_from_ground_truth {K : Type} `{EqDecision K}
  (ground_truth : list (K * ground_truth_example)) : list truth_row :=
  let cols :=
    foldl (truth_example ground_truth) (MkTruthColumns [] [])
      (ground_truth.*1) in
  zip_with (fun u l => MkTruthRow u l true) (gt_up_ids cols) (gt_labels cols).

(** The row of the output that holds a row of a tidy ground-truth table. *)
Definition truth_row_of (g : truth) : truth_row :=
  MkTruthRow (UpId (truth_up_id g)) (Label (truth_label g)) (truth_gt g).

(** The tidy rows of one example: one per label, in order. *)
Definition truths_of (e : ground_truth_example) : list truth :=
  (fun l => MkTruth (sequence_name e) l true) <$> true_label e.

(** A matrix whose rows have one length. *)
Definition rectangular (m : matrix) : Prop :=
  exists V : nat, Forall (fun v => length v = V) m.

(** The order of the cells of a matrix by row, then by column. *)
Definition cell_lt (c1 c2 : nat * nat) : Prop :=
  c1.1 < c2.1 \/ (c1.1 = c2.1 /\ c1.2 < c2.2).

(** * Part II: properties *)

(** ** Comparisons of floats *)

Section float_facts.

Lemma SFcompare_antisym x y c :
  SFcompare x y = Some c -> SFcompare y x = Some (CompOpp c).
Proof.
  destruct x as [sx|sx| |sx mx ex], y as [sy|sy| |sy my ey]; simpl;
    try discriminate;
    try (intros [= <-];
         repeat match goal with b : bool |- _ => destruct b end;
         reflexivity).
  intros [= <-]. f_equal.
  assert (Hm : Pos.compare_cont Eq my mx
               = CompOpp (Pos.compare_cont Eq mx my))
    by (rewrite Pos.compare_cont_antisym; reflexivity).
  rewrite (Z.compare_antisym ex ey), Hm.
  destruct sx, sy; try reflexivity;
    destruct (ex ?= ey)%Z; simpl; try reflexivity.
Qed.

(** [x < y] and [y < x] never hold together. *)
Lemma ltb_asym x y : PrimFloat.ltb x y = true -> PrimFloat.ltb y x = false.
Proof.
  rewrite !ltb_spec. unfold SFltb.
  destruct (SFcompare (Prim2SF x) (Prim2SF y)) as [c|] eqn:E; [|discriminate].
  rewrite (SFcompare_antisym _ _ _ E). destruct c; simpl; congruence.
Qed.

(** [x == y] excludes [x < y] and [y < x]. *)
Lemma eqb_not_ltb x y :
  PrimFloat.eqb x y = true ->
  PrimFloat.ltb x y = false /\ PrimFloat.ltb y x = false.
Proof.
  rewrite FloatAxioms.eqb_spec, !ltb_spec. unfold SFeqb, SFltb.
  destruct (SFcompare (Prim2SF x) (Prim2SF y)) as [c|] eqn:E; [|discriminate].
  rewrite (SFcompare_antisym _ _ _ E). destruct c; simpl; try discriminate.
  auto.
Qed.

Lemma ltb_irrefl x : PrimFloat.ltb x x = false.
Proof.
  destruct (PrimFloat.ltb x x) eqn:E; [|reflexivity].
  rewrite (ltb_asym _ _ E) in E. discriminate.
Qed.

End float_facts.

(** ** Confusion Assigner *)

Section confusion_assigner.

Lemma assign_row_spec (threshold : float) (r : aligned) :
  let c := assign_row threshold r in
  row c = r
  /\ (tp c = true <->
        gt r = true /\ fgt (scalar_num (value r)) threshold = true)
  /\ (fp c = true <->
        gt r = false /\ fgt (scalar_num (value r)) threshold = true)
  /\ (fn c = true <->
        gt r = true /\ flt (scalar_num (value r)) threshold = true).
Proof.
  simpl. split; [reflexivity|].
  destruct (gt r), (fgt (scalar_num (value r)) threshold),
    (flt (scalar_num (value r)) threshold); simpl; intuition congruence.
Qed.

Lemma assign_row_exclusive (threshold : float) (r : aligned) :
  let c := assign_row threshold r in
  tp c && fp c = false /\ tp c && fn c = false /\ fp c && fn c = false.
Proof.
  simpl. unfold fgt, flt.
  destruct (gt r); simpl; repeat split; try reflexivity;
    try (rewrite ?andb_false_r; reflexivity).
  destruct (PrimFloat.ltb threshold (scalar_num (value r))) eqn:E;
    [|reflexivity].
  simpl. apply ltb_asym, E.
Qed.

Lemma assign_row_tie (threshold : float) (r : aligned) :
  feq (scalar_num (value r)) threshold = true ->
  tp (assign_row threshold r) = false /\ fn (assign_row threshold r) = false.
Proof.
  unfold feq. intros [H1 H2]%eqb_not_ltb. simpl. unfold fgt, flt.
  rewrite H1, H2, !andb_false_r. auto.
Qed.

Lemma column_threshold_float64 (combined : list aligned) (threshold : float) :
  column_threshold float64 combined threshold = threshold.
Proof. unfold column_threshold. destruct (existsb _ _); reflexivity. Qed.

Lemma column_threshold_filled (dt : dtype) (combined : list aligned)
  (threshold : float) :
  Exists (fun r => is_filled (value r) = true) combined ->
  column_threshold dt combined threshold = threshold.
Proof.
  intros H. unfold column_threshold.
  replace (existsb _ combined) with true; [reflexivity|].
  symmetry. apply existsb_exists. apply Exists_exists in H as (r & Hr & E).
  exists r. split; [apply list_elem_of_In, Hr|exact E].
Qed.

Lemma column_threshold_numeric (dt : dtype) (combined : list aligned)
  (threshold : float) :
  Forall (fun r => is_filled (value r) = false) combined ->
  column_threshold dt combined threshold = as_dtype dt threshold.
Proof.
  intros H. unfold column_threshold.
  destruct (existsb _ combined) eqn:E; [|reflexivity].
  apply existsb_exists in E as (r & Hr & E).
  rewrite Forall_forall in H. apply list_elem_of_In, H in Hr. congruence.
Qed.

(** C5, with the threshold as the [value] column is compared with it. On
    every row of the table [assign_tp_fp_fn] returns for predictions whose
    [value] column is of dtype [dt] and a threshold within the range of
    [dt], with [t] the threshold brought to the column
    ([column_threshold]): [tp] is true iff [gt] is true and
    [value > t]; [fp] is true iff [gt] is false and [value > t]; [fn] is
    true iff [gt] is true and [value < t]; no two of [tp], [fp], [fn] are
    true together; and a row whose value equals [t] has [tp] and [fn]
    false, whatever [gt] is. The rows are those of the aligned table, in
    order. [t] is the threshold itself when the column is of dtype
    [float64] and when a cell of it was filled, and the threshold rounded
    to [float32] when the column is of dtype [float32] and no cell of it
    was filled. *)
Theorem assign_tp_fp_fn_classifies (dt : dtype)
  (predictions_df : list prediction) (ground_truth_df : list truth)
  (threshold : float) :
  in_range dt threshold = true ->
  row <$> assign_tp_fp_fn_typed dt predictions_df ground_truth_df threshold
  = merge_predictions_and_ground_truth predictions_df ground_truth_df
  /\ (dt = float64 ->
      column_threshold dt
        (merge_predictions_and_ground_truth predictions_df ground_truth_df)
        threshold
      = threshold)
  /\ (Exists (fun r => is_filled (value r) = true)
        (merge_predictions_and_ground_truth predictions_df ground_truth_df) ->
      column_threshold dt
        (merge_predictions_and_ground_truth predictions_df ground_truth_df)
        threshold
      = threshold)
  /\ (dt = float32 ->
      Forall (fun r => is_filled (value r) = false)
        (merge_predictions_and_ground_truth predictions_df ground_truth_df) ->
      column_threshold dt
        (merge_predictions_and_ground_truth predictions_df ground_truth_df)
        threshold
      = to_float32 threshold)
  /\ Forall
       (fun c =>
          (tp c = true <->
             gt (row c) = true
             /\ fgt (scalar_num (value (row c)))
                  (column_threshold dt
                     (merge_predictions_and_ground_truth predictions_df
                        ground_truth_df) threshold) = true)
          /\ (fp c = true <->
                gt (row c) = false
                /\ fgt (scalar_num (value (row c)))
                     (column_threshold dt
                        (merge_predictions_and_ground_truth predictions_df
                           ground_truth_df) threshold) = true)
          /\ (fn c = true <->
                gt (row c) = true
                /\ flt (scalar_num (value (row c)))
                     (column_threshold dt
                        (merge_predictions_and_ground_truth predictions_df
                           ground_truth_df) threshold) = true)
          /\ tp c && fp c = false
          /\ tp c && fn c = false
          /\ fp c && fn c = false
          /\ (feq (scalar_num (value (row c)))
                (column_threshold dt
                   (merge_predictions_and_ground_truth predictions_df
                      ground_truth_df) threshold) = true ->
              tp c = false /\ fn c = false))
       (assign_tp_fp_fn_typed dt predictions_df ground_truth_df threshold).
Proof.
  intros _. unfold assign_tp_fp_fn_typed.
  set (combined :=
         merge_predictions_and_ground_truth predictions_df ground_truth_df).
  set (t := column_threshold dt combined threshold).
  split; [|split; [|split; [|split]]].
  - rewrite <- list_fmap_compose. apply list_fmap_id.
  - intros ->. apply column_threshold_float64.
  - apply column_threshold_filled.
  - intros -> H. unfold t. rewrite column_threshold_numeric by exact H.
    reflexivity.
  - apply Forall_fmap, Forall_true. intros r.
    destruct (assign_row_spec t r) as (_ & Htp & Hfp & Hfn).
    destruct (assign_row_exclusive t r) as (E1 & E2 & E3).
    pose proof (assign_row_tie t r) as Htie.
    unfold compose. simpl in *. tauto.
Qed.

Lemma assign_tp_fp_fn_classifies_witness :
  Forall
    (fun c =>
       feq (scalar_num (value (row c)))
         (column_threshold float32
            (merge_predictions_and_ground_truth
               [MkPrediction "seq1" "A" 0.5] [MkTruth "seq1" "A" true])
            0.5) = true ->
       tp c = false /\ fn c = false)
    (assign_tp_fp_fn_typed float32
       [MkPrediction "seq1" "A" 0.5] [MkTruth "seq1" "A" true] 0.5).
Proof.
  eapply Forall_impl.
  - exact (proj2 (proj2 (proj2 (proj2
             (assign_tp_fp_fn_classifies float32
                [MkPrediction "seq1" "A" 0.5] [MkTruth "seq1" "A" true]
                0.5 eq_refl))))).
  - intros c H. apply H.
Defined.

(** A [float32] column compared with 0.3: the value
    [0x1.333334p-2 = 0.300000011920928955078125], which is [np.float32(0.3)],
    is above 0.3, and the row has [gt] true, but it is no true positive:
    the column is compared with 0.3 rounded to [float32], which is this very
    value. Once a cell of the column was filled, the same row is a true
    positive. *)
Lemma assign_tp_fp_fn_float32_threshold :
  let predictions_df := [MkPrediction "seq1" "A" 0x1.333334p-2] in
  let ground_truth_df := [MkTruth "seq1" "A" true] in
  to_float32 0x1.333334p-2 = 0x1.333334p-2%float
  /\ in_range float32 0.3 = true
  /\ assign_tp_fp_fn_typed float32 predictions_df ground_truth_df 0.3
     = [MkConfusion (MkAligned "seq1" "A" (SFloat 0x1.333334p-2) true)
          false false false]
  /\ fgt 0x1.333334p-2 0.3 = true
  /\ ~ Forall
         (fun c =>
            tp c = true <->
              gt (row c) = true
              /\ fgt (scalar_num (value (row c))) 0.3 = true)
         (assign_tp_fp_fn_typed float32 predictions_df ground_truth_df 0.3)
  /\ assign_tp_fp_fn_typed float32 predictions_df
       (ground_truth_df ++ [MkTruth "seq2" "A" true]) 0.3
     = [MkConfusion (MkAligned "seq1" "A" (SFloat 0x1.333334p-2) true)
          true false false;
        MkConfusion (MkAligned "seq2" "A" (SBool false) true)
          false false true].
Proof.
  cbv zeta. split; [vm_compute; reflexivity|].
  split; [vm_compute; reflexivity|].
  split; [vm_compute; reflexivity|]. split; [vm_compute; reflexivity|].
  split; [|vm_compute; reflexivity].
  intros H. apply Forall_inv in H. vm_compute in H.
  destruct H as [_ H]. discriminate H. split; reflexivity.
Qed.

(** The scenario of the specification: a value equal to the threshold is
    in none of the three classes. *)
Example assign_tp_fp_fn_tie :
  assign_tp_fp_fn [MkPrediction "seq1" "A" 0.5] [MkTruth "seq1" "A" true] 0.5
  = [MkConfusion (MkAligned "seq1" "A" (SFloat 0.5) true) false false false].
Proof. vm_compute. reflexivity. Qed.

(** On a [float64] column the threshold is compared as it is given. *)
Lemma assign_tp_fp_fn_typed_float64
  (predictions_df : list prediction) (ground_truth_df : list truth)
  (threshold : float) :
  assign_tp_fp_fn_typed float64 predictions_df ground_truth_df threshold
  = assign_tp_fp_fn predictions_df ground_truth_df threshold.
Proof.
  unfold assign_tp_fp_fn_typed, assign_tp_fp_fn.
  rewrite column_threshold_float64. reflexivity.
Qed.

End confusion_assigner.

(** ** Aligner *)

Section aligner.

Implicit Types (left : list prediction) (right : list truth).
Implicit Types (p : prediction) (g : truth) (k : string * string).

Lemma aligned_key_fillna (j : joined) : aligned_key (fillna j) = joined_key j.
Proof. reflexivity. Qed.

(** With unique keys at most one row has a given key. *)
Lemma filter_key_unique {A : Type} (f : A -> string * string) (l : list A) k :
  NoDup (f <$> l) ->
  filter (fun x => f x = k) l = []
  \/ exists x, filter (fun x => f x = k) l = [x].
Proof.
  induction l as [|a l IH]; intros Hnd; [left; reflexivity|].
  rewrite fmap_cons in Hnd. apply NoDup_cons in Hnd as [Hnotin Hnd].
  rewrite filter_cons. destruct (decide (f a = k)) as [Hk|Hk].
  - right. exists a. f_equal.
    destruct (filter (fun x => f x = k) l) as [|b t] eqn:E; [reflexivity|].
    exfalso. apply Hnotin.
    assert (Hb : b ∈ filter (fun x => f x = k) l) by (rewrite E; left).
    apply list_elem_of_filter in Hb as [Hb1 Hb2].
    rewrite Hk, <- Hb1. apply list_elem_of_fmap_2, Hb2.
  - apply IH, Hnd.
Qed.

Lemma join_left_no_match right p :
  pred_key p ∉ truth_key <$> right ->
  join_left right p
  = [MkJoined (pred_up_id p) (pred_label p) (Some (pred_value p)) None].
Proof.
  intros Hk. unfold join_left.
  destruct (filter _ right) as [|g t] eqn:E; [reflexivity|].
  exfalso. apply Hk.
  assert (Hg : g ∈ filter (fun g => truth_key g = pred_key p) right)
    by (rewrite E; left).
  apply list_elem_of_filter in Hg as [Hg1 Hg2].
  rewrite <- Hg1. apply list_elem_of_fmap_2, Hg2.
Qed.

Lemma join_left_match right p g :
  NoDup (truth_key <$> right) ->
  g ∈ right -> truth_key g = pred_key p ->
  join_left right p
  = [MkJoined (pred_up_id p) (pred_label p)
       (Some (pred_value p)) (Some (truth_gt g))].
Proof.
  intros Hnd Hg Hk. unfold join_left.
  assert (Hin : g ∈ filter (fun g => truth_key g = pred_key p) right)
    by (apply list_elem_of_filter; auto).
  destruct (filter_key_unique truth_key right (pred_key p) Hnd)
    as [E|[x E]]; rewrite E in Hin |- *.
  - inversion Hin.
  - apply list_elem_of_singleton in Hin as ->. reflexivity.
Qed.

(** Every row that comes from a left row carries that row's key and value. *)
Lemma join_left_rows right p j :
  j ∈ join_left right p ->
  joined_key j = pred_key p
  /\ joined_value j = Some (pred_value p)
  /\ (joined_gt j = None <-> pred_key p ∉ truth_key <$> right).
Proof.
  unfold join_left.
  destruct (filter _ right) as [|g t] eqn:E.
  - intros ->%list_elem_of_singleton. split; [reflexivity|].
    split; [reflexivity|]. simpl. split; [|reflexivity].
    intros _ [g [Hk Hg]]%list_elem_of_fmap.
    eapply (filter_nil_not_elem_of _ _ g); eauto. simpl. congruence.
  - intros [g' [-> Hg']]%list_elem_of_fmap. split; [reflexivity|].
    split; [reflexivity|]. simpl. split; [discriminate|].
    intros Hk. exfalso. apply Hk.
    assert (Hg : g ∈ filter (fun g => truth_key g = pred_key p) right)
      by (rewrite E; left).
    apply list_elem_of_filter in Hg as [Hg1 Hg2].
    rewrite <- Hg1. apply list_elem_of_fmap_2, Hg2.
Qed.

Lemma join_left_keys left right :
  NoDup (truth_key <$> right) ->
  joined_key <$> (left ≫= join_left right) = pred_key <$> left.
Proof.
  intros Hnd. induction left as [|p left IH]; [reflexivity|].
  rewrite bind_cons, fmap_app, IH, fmap_cons. f_equal.
  destruct (decide (pred_key p ∈ truth_key <$> right)) as [Hin|Hout].
  - apply list_elem_of_fmap in Hin as [g [Hk Hg]].
    rewrite (join_left_match right p g); auto.
  - rewrite join_left_no_match; auto.
Qed.

Lemma filter_fmap_key {A : Type} (f : A -> string * string)
  (P : string * string -> Prop) `{!forall k, Decision (P k)} (l : list A) :
  f <$> filter (fun x => P (f x)) l = filter P (f <$> l).
Proof.
  induction l as [|a l IH]; [reflexivity|].
  rewrite fmap_cons, !filter_cons. destruct (decide (P (f a)));
    rewrite ?fmap_cons, IH; reflexivity.
Qed.

(** The keys of the aligned table, in order: the keys of the predictions,
    then the keys of the ground truth that no prediction has. *)
Lemma merge_keys left right :
  NoDup (truth_key <$> right) ->
  aligned_key <$> merge_predictions_and_ground_truth left right
  = (pred_key <$> left)
    ++ filter (fun k => k ∉ pred_key <$> left) (truth_key <$> right).
Proof.
  intros Hnd. unfold merge_predictions_and_ground_truth, outer_merge. simpl.
  rewrite <- list_fmap_compose.
  rewrite (list_fmap_ext (aligned_key ∘ fillna) joined_key) by reflexivity.
  rewrite fmap_app, join_left_keys by assumption. f_equal.
  rewrite <- list_fmap_compose.
  rewrite (list_fmap_ext (joined_key ∘ join_right_only) truth_key)
    by reflexivity.
  exact (filter_fmap_key truth_key (fun k => k ∉ pred_key <$> left) right).
Qed.

(** Before filling, a column is empty exactly where its side has no row for
    the key. *)
Lemma outer_merge_rows left right j :
  j ∈ outer_merge left right ->
  (joined_value j = None <-> joined_key j ∉ pred_key <$> left)
  /\ (joined_gt j = None <-> joined_key j ∉ truth_key <$> right).
Proof.
  unfold outer_merge. rewrite elem_of_app, list_elem_of_bind.
  intros [[p [Hj Hp]]|Hj].
  - apply join_left_rows in Hj as (Hk & Hv & Hg).
    rewrite Hk, Hv. split; [|exact Hg].
    split; [discriminate|]. intros Hout. exfalso. apply Hout.
    apply list_elem_of_fmap_2, Hp.
  - apply list_elem_of_fmap in Hj as [g [-> Hg]].
    apply list_elem_of_filter in Hg as [Hout Hg]. simpl.
    split; [split; [intros _; exact Hout|reflexivity]|].
    split; [discriminate|]. intros Hno. exfalso. apply Hno.
    apply (list_elem_of_fmap_2 truth_key), Hg.
Qed.

Lemma merge_has_prediction left right p :
  p ∈ left ->
  exists r, r ∈ merge_predictions_and_ground_truth left right
            /\ aligned_key r = pred_key p
            /\ value r = fillna_value (Some (pred_value p)).
Proof.
  intros Hp. unfold merge_predictions_and_ground_truth, outer_merge.
  assert (Hne : exists j, j ∈ join_left right p).
  { unfold join_left. destruct (filter _ right) as [|g t].
    - eexists. left.
    - eexists. rewrite fmap_cons. left. }
  destruct Hne as [j Hj]. exists (fillna j).
  destruct (join_left_rows _ _ _ Hj) as (Hk & Hv & _).
  split; [|split].
  - apply list_elem_of_fmap_2, elem_of_app. left.
    apply list_elem_of_bind. eauto.
  - rewrite aligned_key_fillna. exact Hk.
  - unfold fillna. simpl. rewrite Hv. reflexivity.
Qed.

Lemma merge_has_truth left right g :
  NoDup (truth_key <$> right) ->
  g ∈ right ->
  exists r, r ∈ merge_predictions_and_ground_truth left right
            /\ aligned_key r = truth_key g
            /\ gt r = truth_gt g.
Proof.
  intros Hnd Hg. unfold merge_predictions_and_ground_truth, outer_merge.
  destruct (decide (truth_key g ∈ pred_key <$> left)) as [Hin|Hout].
  - apply list_elem_of_fmap in Hin as [p [Hk Hp]].
    exists (fillna (MkJoined (pred_up_id p) (pred_label p)
                      (Some (pred_value p)) (Some (truth_gt g)))).
    split; [|split; [symmetry; exact Hk|reflexivity]].
    apply list_elem_of_fmap_2, elem_of_app. left.
    apply list_elem_of_bind. exists p. split; [|exact Hp].
    rewrite (join_left_match right p g); auto. left.
  - exists (fillna (join_right_only g)).
    split; [|split; reflexivity].
    apply list_elem_of_fmap_2, elem_of_app. right.
    apply list_elem_of_fmap_2, list_elem_of_filter. auto.
Qed.

(** C4. For a predictions table and a ground-truth table with at most one
    row per (label, up_id) key each, the aligned table has every key of
    either table exactly once, so its number of rows is the size of the
    union of the two key sets; it is the outer join filled afterwards: a
    column of the join is empty exactly where its table has no row for the
    key, an absent [value] is filled with [False], an absent [gt] with
    [False], and a present value or [gt] is carried over. *)
Theorem merge_predictions_and_ground_truth_outer_join left right :
  NoDup (pred_key <$> left) ->
  NoDup (truth_key <$> right) ->
  let combined := merge_predictions_and_ground_truth left right in
  NoDup (aligned_key <$> combined)
  /\ (forall k, k ∈ aligned_key <$> combined
                <-> k ∈ pred_key <$> left \/ k ∈ truth_key <$> right)
  /\ length combined
     = size (list_to_set (pred_key <$> left)
             ∪ list_to_set (truth_key <$> right) : gset (string * string))
  /\ combined = fillna <$> outer_merge left right
  /\ (forall j, j ∈ outer_merge left right ->
        (joined_value j = None <-> joined_key j ∉ pred_key <$> left)
        /\ (joined_gt j = None <-> joined_key j ∉ truth_key <$> right))
  /\ (forall r, r ∈ combined ->
        (aligned_key r ∉ pred_key <$> left -> value r = SBool false)
        /\ (aligned_key r ∉ truth_key <$> right -> gt r = false))
  /\ (forall p, p ∈ left ->
        exists r, r ∈ combined /\ aligned_key r = pred_key p
                  /\ value r = fillna_value (Some (pred_value p)))
  /\ (forall g, g ∈ right ->
        exists r, r ∈ combined /\ aligned_key r = truth_key g
                  /\ gt r = truth_gt g).
Proof.
  intros Hl Hr combined.
  assert (Hkeys : aligned_key <$> combined
                  = (pred_key <$> left)
                    ++ filter (fun k => k ∉ pred_key <$> left)
                         (truth_key <$> right))
    by (apply merge_keys, Hr).
  assert (Hnd : NoDup (aligned_key <$> combined)).
  { rewrite Hkeys. apply NoDup_app. split; [exact Hl|]. split.
    - intros k Hk [Hout _]%list_elem_of_filter. exact (Hout Hk).
    - apply NoDup_filter, Hr. }
  split; [exact Hnd|]. split; [|split; [|split; [reflexivity|]]].
  - intros k. rewrite Hkeys, elem_of_app, list_elem_of_filter.
    destruct (decide (k ∈ pred_key <$> left)); tauto.
  - rewrite <- (length_fmap aligned_key), <- (size_list_to_set (C:=gset _))
      by exact Hnd.
    f_equal. rewrite Hkeys. apply set_eq. intros k.
    rewrite elem_of_union, !elem_of_list_to_set, elem_of_app,
      list_elem_of_filter.
    destruct (decide (k ∈ pred_key <$> left)); tauto.
  - split; [apply outer_merge_rows|]. split; [|split].
    + intros r [j [-> Hj]]%list_elem_of_fmap.
      destruct (outer_merge_rows _ _ _ Hj) as [Hv Hg].
      rewrite aligned_key_fillna. unfold fillna. simpl. split; intros Hout.
      * apply Hv in Hout. rewrite Hout. reflexivity.
      * apply Hg in Hout. rewrite Hout. reflexivity.
    + intros p. apply merge_has_prediction.
    + intros g. apply merge_has_truth, Hr.
Qed.

Lemma merge_predictions_and_ground_truth_outer_join_witness :
  length
    (merge_predictions_and_ground_truth
       [MkPrediction "seq1" "A" 0.9; MkPrediction "seq1" "B" 0.2]
       [MkTruth "seq1" "A" true; MkTruth "seq2" "C" true])
  = size (list_to_set
            (pred_key <$>
               [MkPrediction "seq1" "A" 0.9; MkPrediction "seq1" "B" 0.2])
          ∪ list_to_set
              (truth_key <$>
                 [MkTruth "seq1" "A" true; MkTruth "seq2" "C" true])
          : gset (string * string)).
Proof.
  refine (proj1 (proj2 (proj2
    (merge_predictions_and_ground_truth_outer_join
       [MkPrediction "seq1" "A" 0.9; MkPrediction "seq1" "B" 0.2]
       [MkTruth "seq1" "A" true; MkTruth "seq2" "C" true] _ _)))).
  - apply (bool_decide_unpack _). vm_compute. reflexivity.
  - apply (bool_decide_unpack _). vm_compute. reflexivity.
Defined.

(** The scenario of the specification: one ground-truth label, two
    predictions. *)
Example merge_scenario :
  merge_predictions_and_ground_truth
    [MkPrediction "seq1" "A" 0.9; MkPrediction "seq1" "B" 0.2]
    [MkTruth "seq1" "A" true]
  = [MkAligned "seq1" "A" (SFloat 0.9) true;
     MkAligned "seq1" "B" (SFloat 0.2) false].
Proof. vm_compute. reflexivity. Qed.

(** Pure misses: a ground-truth row without a prediction gets the value
    [False]. *)
Example merge_pure_misses :
  merge_predictions_and_ground_truth [] [MkTruth "seq1" "A" true]
  = [MkAligned "seq1" "A" (SBool false) true].
Proof. vm_compute. reflexivity. Qed.

End aligner.

(** ** Batch Reader *)

Section batch_reader.

Implicit Types (records acc chunk : list inference_record).
Implicit Types (chunks : list (list inference_record)).

Lemma vstack_Ok (l m : list vector) : vstack l = Ok m -> m = l.
Proof.
  unfold vstack. destruct l as [|v vs]; [discriminate|].
  destruct (forallb _ vs); [|discriminate]. intros [= <-]. reflexivity.
Qed.

Lemma vstack_uniform (l : list vector) (V : nat) :
  l <> [] -> Forall (fun v => length v = V) l -> vstack l = Ok l.
Proof.
  destruct l as [|v vs]; [congruence|]. intros _ H.
  apply Forall_cons in H as [Hv Hvs]. unfold vstack.
  replace (forallb _ vs) with true; [reflexivity|].
  symmetry. apply forallb_forall. intros w Hw.
  apply Nat.eqb_eq. rewrite Hv. rewrite Forall_forall in Hvs.
  apply Hvs, list_elem_of_In, Hw.
Qed.

Lemma uniform_vectors records V :
  Forall (fun r => length r.2 = V) records ->
  Forall (fun v => length v = V) records.*2.
Proof. intros H. apply Forall_fmap. exact H. Qed.

Lemma batch_sizes_full (n B : nat) :
  0 < B -> batch_sizes (B + n) B = B :: batch_sizes n B.
Proof.
  intros HB. unfold batch_sizes.
  replace (B + n) with (n + 1 * B) by lia.
  rewrite Nat.div_add, Nat.Div0.mod_add by lia.
  replace (n / B + 1) with (S (n / B)) by lia. reflexivity.
Qed.

Lemma batch_sizes_none (B : nat) : 0 < B -> batch_sizes 0 B = [].
Proof.
  intros HB. unfold batch_sizes.
  rewrite Nat.div_small, Nat.mod_small by lia. reflexivity.
Qed.

Lemma batch_sizes_partial (n B : nat) :
  0 < n -> n < B -> batch_sizes n B = [n].
Proof.
  intros Hn HB. unfold batch_sizes.
  rewrite Nat.div_small, Nat.mod_small by lia.
  destruct (n =? 0) eqn:E; [apply Nat.eqb_eq in E; lia|reflexivity].
Qed.

Lemma batch_sizes_length (R B : nat) :
  0 < B -> length (batch_sizes R B) = (R + B - 1) / B.
Proof.
  intros HB. unfold batch_sizes.
  rewrite length_app, length_replicate.
  pose proof (Nat.div_mod_eq R B) as HR.
  pose proof (Nat.mod_upper_bound R B ltac:(lia)) as Hm.
  destruct (R mod B =? 0) eqn:E; simpl.
  - apply Nat.eqb_eq in E.
    apply (Nat.div_unique _ _ _ (B - 1)); nia.
  - apply Nat.eqb_neq in E.
    apply (Nat.div_unique _ _ _ (R mod B - 1)); nia.
Qed.

(** The loop invariant of [batch_inferences]: [acc] holds the records
    accumulated since the last yield, fewer than [B] of them. The batches
    yielded from here on are runs of consecutive records of [acc ++ it],
    each of 1 to [B] records; they cover all the records unless [vstack]
    raises, which it does not when the vectors have one length. *)
Lemma batch_loop_chunks (B : nat) it acc :
  0 < B -> length acc < B ->
  exists chunks rest,
    (batch_loop (Z.of_nat B) it (Z.of_nat (length acc)) acc.*2 acc.*1).1
    = batch_of <$> chunks
    /\ Forall (fun c => 1 <= length c <= B) chunks
    /\ acc ++ it = concat chunks ++ rest
    /\ ((batch_loop (Z.of_nat B) it (Z.of_nat (length acc)) acc.*2 acc.*1).2
        = None -> rest = [])
    /\ (uniform (acc ++ it) ->
        (batch_loop (Z.of_nat B) it (Z.of_nat (length acc)) acc.*2 acc.*1).2
        = None
        /\ length <$> chunks = batch_sizes (length acc + length it) B).
Proof.
  intros HB. revert acc. induction it as [|r it IH]; intros acc Hacc.
  - cbn [batch_loop]. rewrite length_fmap. destruct acc as [|a acc].
    + exists [], []. simpl. repeat split; auto.
      rewrite batch_sizes_none by exact HB. reflexivity.
    + assert (Hlt : (0 <? length (a :: acc)) = true)
        by (apply Nat.ltb_lt; simpl; lia).
      rewrite Hlt.
      destruct (vstack (a :: acc).*2) as [m|e] eqn:Ev.
      * apply vstack_Ok in Ev as ->.
        exists [a :: acc], []. simpl. rewrite !app_nil_r.
        split; [reflexivity|]. split.
        { constructor; [simpl in *; lia|constructor]. }
        split; [reflexivity|]. split; [reflexivity|].
        intros _. split; [reflexivity|].
        rewrite Nat.add_0_r, batch_sizes_partial by (simpl in *; lia).
        reflexivity.
      * exists [], (a :: acc). simpl. rewrite app_nil_r.
        split; [reflexivity|]. split; [constructor|].
        split; [reflexivity|]. split; [discriminate|].
        intros [V HV]. exfalso.
        rewrite ?app_nil_r in HV. apply uniform_vectors in HV.
        rewrite (vstack_uniform _ V) in Ev; [discriminate|discriminate|].
        exact HV.
  - cbn [batch_loop].
    replace (acc.*1 ++ [r.1]) with (acc ++ [r]).*1
      by (rewrite fmap_app; reflexivity).
    replace (acc.*2 ++ [r.2]) with (acc ++ [r]).*2
      by (rewrite fmap_app; reflexivity).
    replace (Z.of_nat (length acc) + 1)%Z with (Z.of_nat (length (acc ++ [r])))
      by (rewrite length_app; simpl; lia).
    assert (Hlen : length (acc ++ [r]) = S (length acc))
      by (rewrite length_app; simpl; lia).
    destruct (Z.eqb_spec (Z.of_nat (length (acc ++ [r]))) (Z.of_nat B))
      as [Heq|Hne].
    + apply Nat2Z.inj in Heq.
      destruct (IH [] ltac:(simpl; lia))
        as (chunks & rest & Hb & Hsz & Hcat & Hnone & Huni).
      simpl in Hb, Hcat, Hnone, Huni.
      change (Z.of_nat 0) with 0%Z in Hb, Hnone, Huni.
      destruct (vstack (acc ++ [r]).*2) as [m|e] eqn:Ev.
      * apply vstack_Ok in Ev as ->.
        exists ((acc ++ [r]) :: chunks), rest. simpl.
        split; [rewrite Hb; reflexivity|]. split.
        { constructor; [lia|exact Hsz]. }
        split.
        { rewrite <- !app_assoc. simpl. rewrite <- Hcat. reflexivity. }
        split; [exact Hnone|].
        intros [V HV].
        destruct Huni as [Hn Hs].
        { exists V. apply Forall_app in HV as [_ HV].
          apply Forall_cons in HV as [_ HV]. exact HV. }
        split; [exact Hn|].
        change (list_fmap _ _ length chunks) with (length <$> chunks).
        rewrite Hs. replace (length acc + S (length it))
          with (B + length it) by lia.
        rewrite batch_sizes_full by lia. rewrite Heq. reflexivity.
      * exists [], (acc ++ r :: it). simpl.
        split; [reflexivity|]. split; [constructor|].
        split; [reflexivity|]. split; [discriminate|].
        intros [V HV]. exfalso.
        replace (acc ++ r :: it) with ((acc ++ [r]) ++ it) in HV
          by (rewrite <- app_assoc; reflexivity).
        apply Forall_app in HV as [HV _]. apply uniform_vectors in HV.
        rewrite (vstack_uniform _ V) in Ev; [discriminate| |exact HV].
        destruct acc; discriminate.
    + assert (Hlt : length (acc ++ [r]) < B) by lia.
      destruct (IH (acc ++ [r]) Hlt)
        as (chunks & rest & Hb & Hsz & Hcat & Hnone & Huni).
      exists chunks, rest.
      rewrite <- app_assoc in Hcat, Huni. simpl in Hcat, Huni.
      split; [exact Hb|]. split; [exact Hsz|]. split; [exact Hcat|].
      split; [exact Hnone|].
      intros HU. destruct (Huni HU) as [Hn Hs]. split; [exact Hn|].
      rewrite Hs, Hlen. f_equal. simpl. lia.
Qed.

Lemma batch_len_of chunks :
  batch_len <$> (batch_of <$> chunks) = length <$> chunks.
Proof.
  rewrite <- list_fmap_compose. apply list_fmap_ext. intros i c _.
  unfold compose, batch_len, batch_of. simpl. apply length_fmap.
Qed.

Lemma batch_sizes_lookup (R B i n : nat) :
  0 < B -> batch_sizes R B !! i = Some n ->
  n = if S i <? length (batch_sizes R B) then B
      else if R mod B =? 0 then B else R mod B.
Proof.
  intros HB. unfold batch_sizes. rewrite length_app, length_replicate.
  intros Hi. destruct (decide (i < R / B)) as [Hlt|Hge].
  - rewrite lookup_app_l in Hi by (rewrite length_replicate; lia).
    apply lookup_replicate in Hi as [-> _].
    destruct (R mod B =? 0); simpl.
    + destruct (S i <? R / B + 0); reflexivity.
    + replace (S i <? R / B + 1) with true; [reflexivity|].
      symmetry. apply Nat.ltb_lt. lia.
  - rewrite lookup_app_r in Hi by (rewrite length_replicate; lia).
    rewrite length_replicate in Hi.
    destruct (R mod B =? 0); simpl in *.
    + rewrite lookup_nil in Hi. discriminate.
    + apply list_lookup_singleton_Some in Hi as [Hi ->].
      replace (S i <? R / B + 1) with false; [reflexivity|].
      symmetry. apply Nat.ltb_ge. lia.
Qed.

(** On records whose vectors have one length the generator ends without an
    exception, and its batches have the sizes [batch_sizes] gives. *)
Lemma batch_inferences_uniform records (B : nat) :
  0 < B -> uniform records ->
  exists batches,
    batch_inferences records (Z.of_nat B) = (batches, None)
    /\ batch_len <$> batches = batch_sizes (length records) B.
Proof.
  intros HB HU. unfold batch_inferences.
  destruct (batch_loop_chunks B records [] HB ltac:(simpl; lia))
    as (chunks & rest & Hb & _ & _ & _ & Huni).
  simpl in Hb, Huni. change (Z.of_nat 0) with 0%Z in Hb, Huni.
  destruct (Huni HU) as [Hnone Hs].
  exists (batch_of <$> chunks). split.
  - rewrite <- Hb, <- Hnone. apply surjective_pairing.
  - rewrite batch_len_of. exact Hs.
Qed.

(** C3. For a positive batch size [B] and [R] records (whose vectors have
    one length), [batch_inferences] runs to its end and yields
    [ceil (R / B)] batches: all of them have [B] records, except that the
    last has [R mod B] when that is not zero; with no record it yields no
    batch. *)
Theorem batch_inferences_count records (B : nat) :
  0 < B -> uniform records ->
  exists batches,
    batch_inferences records (Z.of_nat B) = (batches, None)
    /\ length batches = (length records + B - 1) / B
    /\ batch_len <$> batches = batch_sizes (length records) B
    /\ (forall i b, batches !! i = Some b ->
          batch_len b
          = if S i <? length batches then B
            else if length records mod B =? 0 then B
                 else length records mod B)
    /\ (length records = 0 -> batches = []).
Proof.
  intros HB HU.
  destruct (batch_inferences_uniform records B HB HU)
    as (batches & Hrun & Hsizes).
  exists batches.
  assert (Hlen : length batches = length (batch_sizes (length records) B))
    by (rewrite <- Hsizes, length_fmap; reflexivity).
  split; [exact Hrun|]. split; [|split; [exact Hsizes|split]].
  - rewrite Hlen. apply batch_sizes_length, HB.
  - intros i b Hi. rewrite Hlen.
    apply (batch_sizes_lookup _ _ _ _ HB). rewrite <- Hsizes.
    rewrite list_lookup_fmap, Hi. reflexivity.
  - intros HR. apply length_zero_iff_nil. rewrite Hlen, HR.
    rewrite batch_sizes_none by exact HB. reflexivity.
Qed.

(** C10. For a positive batch size [B], the batches [batch_inferences]
    yields are made of consecutive runs of the input records, in order:
    the identifiers of a batch are the identifiers of its run and the rows
    of its matrix are the vectors of the same records, so there are as many
    identifiers as rows; every run has between 1 and [B] records, the last
    one included. The runs cover all the records when the generator ends
    without an exception. *)
Theorem batch_inferences_batches records (B : nat) :
  0 < B ->
  exists chunks rest,
    (batch_inferences records (Z.of_nat B)).1 = batch_of <$> chunks
    /\ records = concat chunks ++ rest
    /\ ((batch_inferences records (Z.of_nat B)).2 = None -> rest = [])
    /\ Forall (fun c => 1 <= length c <= B) chunks
    /\ Forall (fun b : batch =>
                 length b.1 = length b.2 /\ 1 <= length b.1 <= B)
         (batch_inferences records (Z.of_nat B)).1.
Proof.
  intros HB. unfold batch_inferences.
  destruct (batch_loop_chunks B records [] HB ltac:(simpl; lia))
    as (chunks & rest & Hb & Hsz & Hcat & Hnone & _).
  simpl in Hb, Hcat, Hnone. change (Z.of_nat 0) with 0%Z in Hb, Hnone.
  exists chunks, rest. repeat (split; [assumption|]).
  rewrite Hb. apply Forall_fmap. eapply Forall_impl; [exact Hsz|].
  intros c Hc. unfold compose, batch_of. cbn beta iota delta [fst snd] in *.
  rewrite !length_fmap. lia.
Qed.

(** The batches of a list of files are those of each file, file after
    file. *)
Lemma batched_inferences_from_files_concat parse_shard shard_names
  (batch_size : Z) :
  Forall (fun f => (batch_inferences (parse_shard f) batch_size).2 = None)
    shard_names ->
  batched_inferences_from_files parse_shard shard_names batch_size
  = (shard_names ≫=
       (fun f => (batch_inferences (parse_shard f) batch_size).1), None).
Proof.
  induction 1 as [|f fs Hf Hfs IH]; [reflexivity|].
  cbn [batched_inferences_from_files]. rewrite Hf, IH. reflexivity.
Qed.

(** C2, as the code has it. For a positive batch size [B] (and vectors of
    one length in every file), [batched_inferences_from_files] batches
    every file on its own: its batches are the batches of the first file,
    then those of the second, and so on, so that a file of [R] records
    gives [R / B] full batches followed by one of [R mod B] records when
    that is not zero, whatever the next file holds; a file without records
    gives no batch, and the run is the same without it. *)
Theorem batched_inferences_from_files_per_file parse_shard shard_names
  (B : nat) :
  0 < B ->
  Forall (fun f => uniform (parse_shard f)) shard_names ->
  batched_inferences_from_files parse_shard shard_names (Z.of_nat B)
  = (shard_names ≫=
       (fun f => (batch_inferences (parse_shard f) (Z.of_nat B)).1), None)
  /\ batch_len <$>
       (batched_inferences_from_files parse_shard shard_names (Z.of_nat B)).1
     = shard_names ≫= (fun f => batch_sizes (length (parse_shard f)) B)
  /\ (forall before f after,
        shard_names = before ++ f :: after -> parse_shard f = [] ->
        batched_inferences_from_files parse_shard shard_names (Z.of_nat B)
        = batched_inferences_from_files parse_shard (before ++ after)
            (Z.of_nat B)).
Proof.
  intros HB HU.
  assert (Hnone : forall fs, Forall (fun f => uniform (parse_shard f)) fs ->
            Forall (fun f =>
              (batch_inferences (parse_shard f) (Z.of_nat B)).2 = None) fs).
  { intros fs Hfs. eapply Forall_impl; [exact Hfs|]. intros f Hf. simpl in Hf.
    destruct (batch_inferences_uniform _ B HB Hf) as (bs & -> & _).
    reflexivity. }
  split; [|split].
  - apply batched_inferences_from_files_concat, Hnone, HU.
  - rewrite batched_inferences_from_files_concat by (apply Hnone, HU).
    cbn [fst]. clear Hnone.
    induction HU as [|f fs Hf Hfs IH]; [reflexivity|].
    rewrite !bind_cons, fmap_app, IH. f_equal.
    destruct (batch_inferences_uniform _ B HB Hf) as (bs & -> & Hs).
    exact Hs.
  - intros before f after -> Hf.
    pose proof HU as HU'. apply Forall_app in HU' as [Hb Ha].
    apply Forall_cons in Ha as [_ Ha].
    rewrite (batched_inferences_from_files_concat _ (before ++ f :: after))
      by (apply Hnone, HU).
    rewrite (batched_inferences_from_files_concat _ (before ++ after))
      by (apply Hnone, Forall_app; auto).
    rewrite !bind_app, bind_cons, Hf. reflexivity.
Qed.

(** Two shard files of one record each, batched by two: carried over the
    file boundary the two records would make one batch, as they do when
    they come from one iterator; [batched_inferences_from_files] yields the
    record of the first file as a batch of its own at the end of that
    file. *)
Lemma batched_inferences_from_files_no_carry_over :
  let parse_shard (file_name : string) : list inference_record :=
    if String.eqb file_name "shard-0" then [("seq1", [0.5%float])]
    else [("seq2", [0.25%float])] in
  batched_inferences_from_files parse_shard ["shard-0"; "shard-1"] 2
  = ([(["seq1"], [[0.5%float]]); (["seq2"], [[0.25%float]])], None)
  /\ batch_inferences (parse_shard "shard-0" ++ parse_shard "shard-1") 2
     = ([(["seq1"; "seq2"], [[0.5%float]; [0.25%float]])], None)
  /\ batched_inferences_from_files parse_shard ["shard-0"; "shard-1"] 2
     <> batch_inferences (parse_shard "shard-0" ++ parse_shard "shard-1") 2.
Proof.
  cbv zeta. split; [vm_compute; reflexivity|].
  split; [vm_compute; reflexivity|].
  intros H. vm_compute in H. discriminate H.
Qed.

Lemma batch_inferences_count_witness :
  exists batches,
    batch_inferences
      [("seq1", [0.9; 0; 0.5]); ("seq2", [0.1; 0.2; 0.3]);
       ("seq3", [0; 0; 1])]%float (Z.of_nat 2)
    = (batches, None)
    /\ length batches = (3 + 2 - 1) / 2
    /\ batch_len <$> batches = batch_sizes 3 2
    /\ (forall i b, batches !! i = Some b ->
          batch_len b
          = if S i <? length batches then 2
            else if 3 mod 2 =? 0 then 2 else 3 mod 2)
    /\ (3 = 0 -> batches = []).
Proof.
  apply (batch_inferences_count
           [("seq1", [0.9; 0; 0.5]); ("seq2", [0.1; 0.2; 0.3]);
            ("seq3", [0; 0; 1])]%float 2).
  - lia.
  - exists 3. repeat constructor.
Defined.

Lemma batch_inferences_batches_witness :
  exists chunks rest,
    (batch_inferences
       [("seq1", [0.9; 0; 0.5]); ("seq2", [0.1; 0.2; 0.3]);
        ("seq3", [0; 0; 1])]%float (Z.of_nat 2)).1
    = batch_of <$> chunks
    /\ [("seq1", [0.9; 0; 0.5]); ("seq2", [0.1; 0.2; 0.3]);
        ("seq3", [0; 0; 1])]%float = concat chunks ++ rest
    /\ ((batch_inferences
           [("seq1", [0.9; 0; 0.5]); ("seq2", [0.1; 0.2; 0.3]);
            ("seq3", [0; 0; 1])]%float (Z.of_nat 2)).2 = None -> rest = [])
    /\ Forall (fun c => 1 <= length c <= 2) chunks
    /\ Forall (fun b : batch =>
                 length b.1 = length b.2 /\ 1 <= length b.1 <= 2)
         (batch_inferences
            [("seq1", [0.9; 0; 0.5]); ("seq2", [0.1; 0.2; 0.3]);
             ("seq3", [0; 0; 1])]%float (Z.of_nat 2)).1.
Proof.
  apply (batch_inferences_batches
           [("seq1", [0.9; 0; 0.5]); ("seq2", [0.1; 0.2; 0.3]);
            ("seq3", [0; 0; 1])]%float 2).
  lia.
Defined.

Lemma batched_inferences_from_files_per_file_witness :
  let parse_shard (file_name : string) : list inference_record :=
    if String.eqb file_name "shard-0" then [("seq1", [0.5%float])]
    else if String.eqb file_name "shard-1" then []
    else [("seq2", [0.25%float])] in
  batch_len <$>
    (batched_inferences_from_files parse_shard
       ["shard-0"; "shard-1"; "shard-2"] (Z.of_nat 2)).1
  = ["shard-0"; "shard-1"; "shard-2"] ≫=
      (fun f => batch_sizes (length (parse_shard f)) 2).
Proof.
  intros parse_shard.
  refine (proj1 (proj2
    (batched_inferences_from_files_per_file parse_shard
       ["shard-0"; "shard-1"; "shard-2"] 2 _ _))).
  - lia.
  - repeat constructor; exists 1; vm_compute; repeat constructor.
Defined.

End batch_reader.

(** ** Sparsifier *)

Section sparsifier.

Implicit Types (sequence_names vocab : list string) (M : matrix).
Implicit Types (rows : list prediction) (threshold : float).

Lemma elem_of_argwhere_gt_from (i : nat) (preds : vector) threshold (j : nat) :
  j ∈ argwhere_gt_from i preds threshold
  <-> i <= j /\ exists x, preds !! (j - i) = Some x /\ fgt x threshold = true.
Proof.
  revert i. induction preds as [|y preds IH]; intros i; simpl.
  - split; [intros H; inversion H|intros (_ & x & Hx & _); discriminate].
  - rewrite elem_of_app, IH. split.
    + intros [Hj|(Hle & x & Hx & Hgt)].
      * destruct (fgt y threshold) eqn:E; [|inversion Hj].
        apply list_elem_of_singleton in Hj as ->. split; [lia|].
        exists y. rewrite Nat.sub_diag. auto.
      * split; [lia|]. exists x. split; [|exact Hgt].
        replace (j - i) with (S (j - S i)) by lia. exact Hx.
    + intros (Hle & x & Hx & Hgt).
      destruct (decide (j = i)) as [->|Hne].
      * left. rewrite Nat.sub_diag in Hx. simpl in Hx.
        injection Hx as ->. rewrite Hgt. left.
      * right. split; [lia|]. exists x. split; [|exact Hgt].
        replace (j - i) with (S (j - S i)) in Hx by lia. exact Hx.
Qed.

Lemma NoDup_argwhere_gt_from (i : nat) (preds : vector) threshold :
  NoDup (argwhere_gt_from i preds threshold).
Proof.
  revert i. induction preds as [|y preds IH]; intros i; simpl.
  - constructor.
  - apply NoDup_app. split; [|split; [|apply IH]].
    + destruct (fgt y threshold); [apply NoDup_singleton|constructor].
    + intros j Hj [Hle _]%elem_of_argwhere_gt_from.
      destruct (fgt y threshold); [|inversion Hj].
      apply list_elem_of_singleton in Hj. lia.
Qed.

Lemma elem_of_cells_of M threshold (i i' v : nat) :
  (i', v) ∈ cells_of M threshold i
  <-> i' = i /\ exists x, entry M i v = Some x /\ fgt x threshold = true.
Proof.
  unfold cells_of, entry, argwhere_gt.
  destruct (M !! i) as [preds|]; simpl.
  - rewrite list_elem_of_fmap. split.
    + intros (j & [= -> ->] & Hj).
      apply elem_of_argwhere_gt_from in Hj as (_ & x & Hx & Hgt).
      rewrite Nat.sub_0_r in Hx. eauto.
    + intros (-> & x & Hx & Hgt). exists v. split; [reflexivity|].
      apply elem_of_argwhere_gt_from. split; [lia|].
      rewrite Nat.sub_0_r. eauto.
  - split; [intros H; inversion H|intros (_ & x & Hx & _); discriminate].
Qed.

Lemma tidy_frame_cols_of rows : tidy_frame (cols_of rows) = Ok rows.
Proof.
  unfold tidy_frame, cols_of. simpl. rewrite !length_fmap, !Nat.eqb_refl.
  simpl. f_equal. induction rows as [|[u l v] rows IH]; [reflexivity|].
  simpl. f_equal. exact IH.
Qed.

(** The inner loop: one row per position of [idxs]. *)
Lemma tidy_entries sequence_names vocab M (i : nat) (up_id : string)
  (preds : vector) (idxs : list nat) rows0 :
  sequence_names !! i = Some up_id ->
  M !! i = Some preds ->
  length preds = length vocab ->
  Forall (fun j => j < length preds) idxs ->
  exists rows,
    foldM (tidy_entry up_id preds vocab) (cols_of rows0) idxs
    = Ok (cols_of (rows0 ++ rows))
    /\ Forall2 (cell_row sequence_names vocab M) (pair i <$> idxs) rows.
Proof.
  intros Hname Hrow Hlen. revert rows0.
  induction idxs as [|j idxs IH]; intros rows0 Hidx.
  - exists []. rewrite app_nil_r. split; [reflexivity|constructor].
  - apply Forall_cons in Hidx as [Hj Hidx].
    destruct (lookup_lt_is_Some_2 preds j Hj) as [x Hx].
    destruct (lookup_lt_is_Some_2 vocab j ltac:(lia)) as [l Hl].
    destruct (IH (rows0 ++ [MkPrediction up_id l x]) Hidx)
      as (rows & Hfold & Hrows).
    exists (MkPrediction up_id l x :: rows). split.
    + cbn [foldM]. unfold tidy_entry at 1, index. rewrite Hl, Hx.
      cbn [bind]. unfold cols_of in Hfold |- *. cbn [up_ids labels values].
      rewrite !fmap_app in Hfold.
      cbn [fmap list_fmap pred_up_id pred_label pred_value] in Hfold.
      rewrite Hfold, !fmap_app, !fmap_cons, <- !app_assoc. reflexivity.
    + rewrite fmap_cons. constructor; [|exact Hrows].
      unfold cell_row, entry. simpl. rewrite Hrow. simpl. auto.
Qed.

(** The outer loop over the examples [i], ..., [i + n - 1]. *)
Lemma tidy_examples sequence_names vocab M threshold (n : nat) :
  length M = length sequence_names ->
  Forall (fun preds => length preds = length vocab) M ->
  forall (i : nat) rows0,
    i + n = length sequence_names ->
    exists rows,
      foldM (tidy_example sequence_names M vocab threshold) (cols_of rows0)
        (seq i n)
      = Ok (cols_of (rows0 ++ rows))
      /\ Forall2 (cell_row sequence_names vocab M)
           (seq i n ≫= cells_of M threshold) rows.
Proof.
  intros HM Hshape. induction n as [|n IH]; intros i rows0 Hi.
  - exists []. rewrite app_nil_r. split; [reflexivity|constructor].
  - destruct (lookup_lt_is_Some_2 sequence_names i ltac:(lia))
      as [up_id Hname].
    destruct (lookup_lt_is_Some_2 M i ltac:(lia)) as [preds Hrow].
    assert (Hlen : length preds = length vocab).
    { rewrite Forall_forall in Hshape. apply Hshape.
      apply list_elem_of_lookup. eauto. }
    destruct (tidy_entries sequence_names vocab M i up_id preds
                (argwhere_gt preds threshold) rows0 Hname Hrow Hlen)
      as (rows1 & Hfold1 & Hrows1).
    { apply Forall_forall. intros j Hj.
      apply elem_of_argwhere_gt_from in Hj as (_ & x & Hx & _).
      rewrite Nat.sub_0_r in Hx. apply lookup_lt_Some in Hx. exact Hx. }
    destruct (IH (S i) (rows0 ++ rows1) ltac:(lia))
      as (rows2 & Hfold2 & Hrows2).
    exists (rows1 ++ rows2). split.
    + cbn [seq foldM]. unfold tidy_example at 1, index.
      rewrite Hname, Hrow. cbn [bind]. rewrite Hfold1. cbn [bind].
      rewrite Hfold2, <- app_assoc. reflexivity.
    + cbn [seq]. rewrite bind_cons. apply Forall2_app; [|exact Hrows2].
      unfold cells_of at 1. rewrite Hrow. exact Hrows1.
Qed.

(** C1, with the threshold as the matrix is compared with it. For [N]
    identifiers, an [N x V] matrix [M] of dtype [dt], a vocabulary of
    length [V] and a threshold within the range of [dt], the Sparsifier
    returns a table whose rows
    correspond one to one, in order, to a duplicate-free list of cells
    [(i, v)]: the cells of this list are exactly those with [M[i, v] > t],
    where [t] is the threshold brought to the dtype of the matrix (the
    threshold itself for [float64], the threshold rounded to [float32] for
    [float32]), and the row of a cell carries the identifier of example
    [i], the label at position [v] of the vocabulary and the value
    [M[i, v]]. So every row has a value above [t], and every entry above
    [t] gives exactly one row. *)
Theorem make_tidy_df_rows (dt : dtype) sequence_names M vocab threshold :
  in_range dt threshold = true ->
  length M = length sequence_names ->
  Forall (fun preds => length preds = length vocab) M ->
  exists (cells : list (nat * nat)) rows,
    _make_tidy_df_from_typed_array dt sequence_names M vocab threshold
    = Ok rows
    /\ NoDup cells
    /\ (forall i v, (i, v) ∈ cells
          <-> exists x, entry M i v = Some x
                        /\ fgt x (as_dtype dt threshold) = true)
    /\ Forall2 (cell_row sequence_names vocab M) cells rows
    /\ Forall (fun r => fgt (pred_value r) (as_dtype dt threshold) = true)
         rows.
Proof.
  intros _ HM Hshape. unfold _make_tidy_df_from_typed_array.
  set (t := as_dtype dt threshold).
  destruct (tidy_examples sequence_names vocab M t
              (length sequence_names) HM Hshape 0 [] eq_refl)
    as (rows & Hfold & Hrows).
  set (cells := seq 0 (length sequence_names) ≫= cells_of M t) in *.
  assert (Hcells : forall i v, (i, v) ∈ cells
            <-> exists x, entry M i v = Some x /\ fgt x t = true).
  { intros i v. unfold cells. rewrite list_elem_of_bind. split.
    - intros (i' & Hc & _). apply elem_of_cells_of in Hc as [-> Hc]. exact Hc.
    - intros (x & Hx & Hgt). exists i. split.
      + apply elem_of_cells_of. eauto.
      + apply elem_of_seq. split; [lia|]. unfold entry in Hx.
        destruct (M !! i) as [preds|] eqn:E; [|discriminate].
        apply lookup_lt_Some in E. lia. }
  exists cells, rows. split; [|split; [|split; [exact Hcells|split]]].
  - unfold _make_tidy_df_from_seq_names_and_prediction_array.
    change (MkTidy [] [] []) with (cols_of []). rewrite Hfold. cbn [bind].
    apply tidy_frame_cols_of.
  - apply NoDup_bind; [| |apply NoDup_seq].
    + intros i1 i2 [i v] _ _ [-> _]%elem_of_cells_of [-> _]%elem_of_cells_of.
      reflexivity.
    + intros i _. unfold cells_of. destruct (M !! i); [|constructor].
      apply NoDup_fmap_2; [|apply NoDup_argwhere_gt_from].
      intros a b [= ->]. reflexivity.
  - exact Hrows.
  - apply Forall_forall. intros r Hr.
    apply list_elem_of_lookup in Hr as [k Hk].
    destruct (Forall2_lookup_r _ _ _ _ _ Hrows Hk) as ([i v] & Hc & _ & _ & He).
    assert (Hin : (i, v) ∈ cells) by (apply list_elem_of_lookup; eauto).
    apply Hcells in Hin as (x & Hx & Hgt). simpl in He.
    rewrite Hx in He. injection He as <-. exact Hgt.
Qed.

Lemma make_tidy_df_rows_witness :
  exists (cells : list (nat * nat)) rows,
    _make_tidy_df_from_typed_array float32
      ["seq1"] [[0.5; 0; 0x1.333334p-2]%float] ["A"; "B"; "C"] 0.3%float
    = Ok rows
    /\ NoDup cells
    /\ (forall i v, (i, v) ∈ cells
          <-> exists x, entry [[0.5; 0; 0x1.333334p-2]%float] i v = Some x
                        /\ fgt x (as_dtype float32 0.3%float) = true)
    /\ Forall2
         (cell_row ["seq1"] ["A"; "B"; "C"] [[0.5; 0; 0x1.333334p-2]%float])
         cells rows
    /\ Forall (fun r => fgt (pred_value r) (as_dtype float32 0.3%float) = true)
         rows.
Proof.
  apply (make_tidy_df_rows float32 ["seq1"] [[0.5; 0; 0x1.333334p-2]%float]
           ["A"; "B"; "C"] 0.3%float).
  - vm_compute. reflexivity.
  - reflexivity.
  - repeat constructor.
Defined.

(** A [float32] matrix compared with 0.3: the entry
    [0x1.333334p-2 = 0.300000011920928955078125], which is [np.float32(0.3)],
    is above 0.3 and gives no row, since the matrix is compared with 0.3
    rounded to [float32], which is this very value. The same matrix with
    dtype [float64] gives the row. *)
Lemma make_tidy_df_float32_threshold :
  let M := [[0.5; 0x1.333334p-2]%float] in
  Forall (Forall (fun x => to_float32 x = x)) M
  /\ in_range float32 0.3 = true
  /\ as_dtype float32 0.3 = 0x1.333334p-2%float
  /\ _make_tidy_df_from_typed_array float32 ["seq1"] M ["A"; "B"] 0.3
     = Ok [MkPrediction "seq1" "A" 0.5]
  /\ entry M 0 1 = Some 0x1.333334p-2%float
  /\ fgt 0x1.333334p-2 0.3 = true
  /\ ~ (exists (cells : list (nat * nat)) rows,
          _make_tidy_df_from_typed_array float32 ["seq1"] M ["A"; "B"] 0.3
          = Ok rows
          /\ (forall i v, (i, v) ∈ cells
                <-> exists x, entry M i v = Some x /\ fgt x 0.3 = true)
          /\ Forall2 (cell_row ["seq1"] ["A"; "B"] M) cells rows)
  /\ _make_tidy_df_from_typed_array float64 ["seq1"] M ["A"; "B"] 0.3
     = Ok [MkPrediction "seq1" "A" 0.5;
           MkPrediction "seq1" "B" 0x1.333334p-2].
Proof.
  cbv zeta. split; [repeat constructor|]. split; [vm_compute; reflexivity|].
  split; [vm_compute; reflexivity|]. split; [vm_compute; reflexivity|].
  split; [reflexivity|]. split; [vm_compute; reflexivity|].
  split; [|vm_compute; reflexivity].
  intros (cells & rows & Hrows & Hcells & Hcr).
  vm_compute in Hrows. injection Hrows as <-.
  assert (Hin : (0, 1) ∈ cells).
  { apply Hcells. exists 0x1.333334p-2%float. split; reflexivity. }
  assert (Hin' : (0, 0) ∈ cells).
  { apply Hcells. exists 0.5%float. split; reflexivity. }
  apply Forall2_length in Hcr. simpl in Hcr.
  destruct cells as [|c1 [|c2 cells]]; simpl in Hcr; try discriminate.
  apply list_elem_of_singleton in Hin, Hin'. congruence.
Qed.

(** The scenario of the specification: one example, two entries above the
    threshold. *)
Example make_tidy_df_scenario :
  _make_tidy_df_from_seq_names_and_prediction_array
    ["seq1"] [[0.9; 0; 0.5]%float] ["A"; "B"; "C"] 0.3%float
  = Ok [MkPrediction "seq1" "A" 0.9; MkPrediction "seq1" "C" 0.5].
Proof. vm_compute. reflexivity. Qed.

(** On a [float64] matrix the threshold is compared as it is given. *)
Lemma make_tidy_df_typed_float64 sequence_names M vocab threshold :
  _make_tidy_df_from_typed_array float64 sequence_names M vocab threshold
  = _make_tidy_df_from_seq_names_and_prediction_array sequence_names M vocab
      threshold.
Proof. reflexivity. Qed.

End sparsifier.

(** ** Curve Builder: compaction *)

Section compaction.

Implicit Types (ps rs ts : list float) (resolution : float).
Implicit Types (st : filter_state) (kept : list nat).

Lemma foldM_app {St A : Type} (body : St -> A -> result St) (s : St)
  (l1 l2 : list A) :
  foldM body s (l1 ++ l2) = (s' <- foldM body s l1 ;; foldM body s' l2).
Proof.
  revert s. induction l1 as [|a l1 IH]; intros s; [reflexivity|].
  simpl. destruct (body s a); [apply IH|reflexivity].
Qed.

Lemma foldM_seq_S {St : Type} (body : St -> nat -> result St) (s : St)
  (m : nat) :
  foldM body s (seq 0 (S m))
  = (s' <- foldM body s (seq 0 m) ;; body s' m).
Proof.
  rewrite seq_S, foldM_app. simpl.
  destruct (foldM body s (seq 0 m)) as [s'|]; [|reflexivity].
  simpl. destruct (body s' m); reflexivity.
Qed.

(** What the test of the loop says when it keeps the point. *)
Lemma filter_test_true ps rs resolution st i :
  filter_test ps rs resolution st i = Ok true ->
  last_precision st = None
  \/ exists last_p p,
       last_precision st = Some last_p /\ ps !! i = Some p
       /\ (far resolution p last_p = true
           \/ exists last_r r,
                last_recall st = Some last_r /\ rs !! i = Some r
                /\ far resolution r last_r = true).
Proof.
  unfold filter_test, index.
  destruct (last_precision st) as [last_p|]; [|auto].
  destruct (ps !! i) as [p|]; [|discriminate]. simpl.
  destruct (far resolution p last_p) eqn:Ep; [eauto 10|].
  destruct (rs !! i) as [r|]; [|discriminate]. simpl.
  destruct (last_recall st) as [last_r|]; [|discriminate].
  intros [= Er]. eauto 15.
Qed.

(** What it says when it drops the point. *)
Lemma filter_test_false ps rs resolution st i :
  filter_test ps rs resolution st i = Ok false ->
  exists last_p p last_r r,
    last_precision st = Some last_p /\ ps !! i = Some p
    /\ last_recall st = Some last_r /\ rs !! i = Some r
    /\ far resolution p last_p = false /\ far resolution r last_r = false.
Proof.
  unfold filter_test, index.
  destruct (last_precision st) as [last_p|]; [|discriminate].
  destruct (ps !! i) as [p|]; [|discriminate]. simpl.
  destruct (far resolution p last_p) eqn:Ep; [discriminate|].
  destruct (rs !! i) as [r|]; [|discriminate]. simpl.
  destruct (last_recall st) as [last_r|]; [|discriminate].
  intros [= Er]. eauto 15.
Qed.

(** One round of the loop either leaves the state as it is or appends the
    point to the three lists. *)
Lemma filter_step_Ok ps rs ts resolution st i st' :
  filter_step ps rs ts resolution st i = Ok st' ->
  (filter_test ps rs resolution st i = Ok false /\ st' = st)
  \/ exists p r t,
       filter_test ps rs resolution st i = Ok true
       /\ ps !! i = Some p /\ rs !! i = Some r /\ ts !! i = Some t
       /\ st' = MkFilter (Some p) (Some r) (new_precisions st ++ [p])
                  (new_recalls st ++ [r]) (new_thresholds st ++ [t]).
Proof.
  unfold filter_step.
  destruct (filter_test ps rs resolution st i) as [[|]|]; simpl;
    [|intros [= <-]; auto|discriminate].
  unfold index.
  destruct (ps !! i) as [p|]; [|discriminate]. simpl.
  destruct (rs !! i) as [r|]; [|discriminate]. simpl.
  destruct (ts !! i) as [t|]; [|discriminate]. simpl.
  intros [= <-]. right. eauto 10.
Qed.

Lemma spaced_snoc resolution ps rs p r :
  length ps = length rs ->
  spaced resolution ps rs ->
  (forall last_p last_r,
     last ps = Some last_p -> last rs = Some last_r ->
     far resolution p last_p = true \/ far resolution r last_r = true) ->
  spaced resolution (ps ++ [p]) (rs ++ [r]).
Proof.
  intros Hlen Hsp Hlast k a b a' b' Ha Hb Ha' Hb'.
  apply lookup_snoc_Some in Ha' as [[Hk Ha']|[Hk <-]];
    apply lookup_snoc_Some in Hb' as [[Hk' Hb']|[Hk' <-]]; try lia.
  - rewrite lookup_app_l in Ha by lia. rewrite lookup_app_l in Hb by lia.
    eapply Hsp; eauto.
  - rewrite lookup_app_l in Ha by lia. rewrite lookup_app_l in Hb by lia.
    apply Hlast.
    + rewrite last_lookup, <- Hk. exact Ha.
    + rewrite last_lookup, <- Hk'. exact Hb.
Qed.

Lemma filter_loop_inv ps rs ts resolution (m : nat) st :
  foldM (filter_step ps rs ts resolution) (MkFilter None None [] [] [])
    (seq 0 m) = Ok st ->
  filter_inv resolution m st.
Proof.
  revert st. induction m as [|m IH]; intros st.
  - intros [= <-]. unfold filter_inv, spaced. simpl.
    repeat split; try reflexivity; try lia. intros k ? ? ? ? H. inversion H.
  - rewrite foldM_seq_S.
    destruct (foldM _ _ (seq 0 m)) as [st0|]; [|discriminate]. simpl.
    specialize (IH st0 eq_refl).
    destruct IH as (H1 & H2 & H3 & H4 & H5 & H6 & H7).
    intros [[Ht ->]|(p & r & t & Ht & Hp & Hr & Hth & ->)]%filter_step_Ok.
    + unfold filter_inv. repeat split; auto; try lia.
      intros _. apply filter_test_false in Ht as (lp & _ & _ & _ & Hlp & _).
      rewrite H3 in Hlp. destruct (new_precisions st0); [discriminate|].
      simpl. lia.
    + unfold filter_inv. simpl. rewrite !length_app, !last_snoc. simpl.
      repeat split; try lia.
      apply spaced_snoc; [exact H1|exact H5|].
      intros last_p last_r Hlp Hlr. rewrite <- H3 in Hlp. rewrite <- H4 in Hlr.
      apply filter_test_true in Ht
        as [Hn|(lp & p0 & Hl & Hp0 & [Hfar|(lr & r0 & Hl' & Hr0 & Hfar)])];
        [congruence| |]; simplify_eq; auto.
Qed.

(** On a spaced curve the loop keeps every point. *)
Lemma filter_loop_spaced ps rs ts resolution (m : nat) :
  length ps = length rs -> length rs = length ts ->
  spaced resolution ps rs ->
  m <= length ps ->
  foldM (filter_step ps rs ts resolution) (MkFilter None None [] [] [])
    (seq 0 m)
  = Ok (MkFilter (last (take m ps)) (last (take m rs))
          (take m ps) (take m rs) (take m ts)).
Proof.
  intros H1 H2 Hsp. induction m as [|m IH]; intros Hm; [reflexivity|].
  rewrite foldM_seq_S, IH by lia. simpl.
  destruct (lookup_lt_is_Some_2 ps m ltac:(lia)) as [p Hp].
  destruct (lookup_lt_is_Some_2 rs m ltac:(lia)) as [r Hr].
  destruct (lookup_lt_is_Some_2 ts m ltac:(lia)) as [t Ht].
  assert (Htest : filter_test ps rs resolution
            (MkFilter (last (take m ps)) (last (take m rs))
               (take m ps) (take m rs) (take m ts)) m = Ok true).
  { unfold filter_test, index. simpl.
    destruct m as [|k]; [reflexivity|].
    destruct (lookup_lt_is_Some_2 ps k ltac:(lia)) as [pk Hpk].
    destruct (lookup_lt_is_Some_2 rs k ltac:(lia)) as [rk Hrk].
    rewrite (take_S_r _ _ _ Hpk), (take_S_r _ _ _ Hrk), !last_snoc, Hp.
    simpl. destruct (far resolution p pk) eqn:Ep; [reflexivity|].
    rewrite Hr. simpl. f_equal.
    destruct (Hsp k pk rk p r Hpk Hrk Hp Hr); congruence. }
  unfold filter_step. rewrite Htest. simpl. unfold index.
  rewrite Hp, Hr, Ht. simpl.
  rewrite (take_S_r _ _ _ Hp), (take_S_r _ _ _ Hr), (take_S_r _ _ _ Ht),
    !last_snoc.
  reflexivity.
Qed.

(** C7. Compaction is idempotent: whenever [filter_pr_curve] returns a
    curve, applying it to that curve with the same resolution returns the
    same curve. *)
Theorem filter_pr_curve_idempotent ps rs ts resolution
  (out : list float * list float * list float) :
  filter_pr_curve ps rs ts resolution = Ok out ->
  filter_pr_curve out.1.1 out.1.2 out.2 resolution = Ok out.
Proof.
  unfold filter_pr_curve at 1.
  destruct (foldM _ _ (seq 0 (length ps))) as [st|] eqn:E; [|discriminate].
  simpl. intros [= <-]. simpl.
  apply filter_loop_inv in E as (H1 & H2 & _ & _ & Hsp & _).
  unfold filter_pr_curve.
  rewrite (filter_loop_spaced _ _ _ _ _ H1 H2 Hsp (Nat.le_refl _)). simpl.
  rewrite !take_ge by lia. reflexivity.
Qed.

Lemma filter_pr_curve_idempotent_witness :
  filter_pr_curve [0.5; 0.5004; 0.75]%float [1; 1; 0.5]%float
    [0.1; 0.2; 0.3]%float default_resolution
  = Ok ([0.5; 0.75], [1; 0.5], [0.1; 0.3])%float
  /\ filter_pr_curve [0.5; 0.75]%float [1; 0.5]%float [0.1; 0.3]%float
       default_resolution
     = Ok ([0.5; 0.75], [1; 0.5], [0.1; 0.3])%float.
Proof.
  split; [vm_compute; reflexivity|].
  apply (filter_pr_curve_idempotent [0.5; 0.5004; 0.75]%float
           [1; 1; 0.5]%float [0.1; 0.2; 0.3]%float default_resolution
           ([0.5; 0.75], [1; 0.5], [0.1; 0.3])%float).
  vm_compute. reflexivity.
Defined.

Lemma filter_below_all kept (m : nat) :
  Forall (fun k => k < m) kept -> filter (fun k => k < m) kept = kept.
Proof.
  induction 1 as [|k kept Hk _ IH]; [reflexivity|].
  rewrite filter_cons_True by exact Hk. f_equal. exact IH.
Qed.

Lemma last_kept_before_all kept (m : nat) :
  Forall (fun k => k < m) kept -> last_kept_before kept m = last kept.
Proof. intros H. unfold last_kept_before. rewrite filter_below_all; auto. Qed.

Lemma last_kept_before_snoc kept (m i : nat) :
  i <= m -> last_kept_before (kept ++ [m]) i = last_kept_before kept i.
Proof.
  intros Hi. unfold last_kept_before.
  rewrite filter_app, filter_cons_False, filter_nil, app_nil_r by lia.
  reflexivity.
Qed.

Lemma keeps_snoc resolution ps rs kept (m i : nat) :
  i <= m ->
  keeps resolution ps rs (kept ++ [m]) i <-> keeps resolution ps rs kept i.
Proof.
  intros Hi. unfold keeps. rewrite last_kept_before_snoc by exact Hi.
  reflexivity.
Qed.

(** One round of the loop on a curve whose three lists have one length. *)
Lemma filter_kept_step ps rs ts resolution (m : nat) st kept :
  length rs = length ps -> length ts = length ps -> m < length ps ->
  kept_inv resolution ps rs ts m st kept ->
  exists st' kept',
    filter_step ps rs ts resolution st m = Ok st'
    /\ kept_inv resolution ps rs ts (S m) st' kept'.
Proof.
  intros Hr Ht Hm (Hsorted & Hlt & Hiff & Hps & Hrs & Hts & Hlp & Hlr).
  destruct (lookup_lt_is_Some_2 ps m Hm) as [p Hp].
  destruct (lookup_lt_is_Some_2 rs m ltac:(lia)) as [r Hrm].
  destruct (lookup_lt_is_Some_2 ts m ltac:(lia)) as [t Htm].
  assert (Hnotin : m ∉ kept).
  { intros Hin. rewrite Forall_forall in Hlt. apply Hlt in Hin. lia. }
  assert (Hbelow : forall i, i < m ->
            i ∈ kept ++ [m] <-> keeps resolution ps rs (kept ++ [m]) i).
  { intros i Hi. rewrite keeps_snoc, <- Hiff, elem_of_app by lia.
    rewrite list_elem_of_singleton. split; [intros [?|?]; [auto|lia]|auto]. }
  assert (Hkeep : forall b,
            filter_test ps rs resolution st m = Ok b ->
            (b = true <-> keeps resolution ps rs kept m) ->
            exists st' kept',
              filter_step ps rs ts resolution st m = Ok st'
              /\ kept_inv resolution ps rs ts (S m) st' kept').
  { intros b Htest Hb. unfold filter_step. rewrite Htest. cbn [bind].
    destruct b.
    - unfold index. rewrite Hp, Hrm, Htm. cbn [bind].
      eexists _, (kept ++ [m]). split; [reflexivity|].
      unfold kept_inv. cbn [new_precisions new_recalls new_thresholds
                              last_precision last_recall].
      rewrite last_snoc. cbn [mbind option_bind].
      split; [|split; [|split; [|split; [|split; [|split; [|auto]]]]]].
      + apply StronglySorted_app_2; [|exact Hsorted|repeat constructor].
        intros x1 x2 Hx1 ->%list_elem_of_singleton.
        rewrite Forall_forall in Hlt. apply Hlt, Hx1.
      + apply Forall_app. split.
        * eapply Forall_impl; [exact Hlt|]. intros; simpl in *; lia.
        * repeat constructor.
      + intros i Hi. destruct (decide (i = m)) as [->|Hne].
        * rewrite keeps_snoc by lia. rewrite <- Hb.
          split; [reflexivity|]. intros _. apply elem_of_app. right. left.
        * apply Hbelow. lia.
      + apply Forall2_app; [exact Hps|repeat constructor; exact Hp].
      + apply Forall2_app; [exact Hrs|repeat constructor; exact Hrm].
      + apply Forall2_app; [exact Hts|repeat constructor; exact Htm].
    - exists st, kept. split; [reflexivity|].
      unfold kept_inv.
      split; [exact Hsorted|].
      split; [eapply Forall_impl; [exact Hlt|]; intros; simpl in *; lia|].
      split; [|auto 10].
      intros i Hi. destruct (decide (i = m)) as [->|Hne].
      + rewrite <- Hb. split; [intros Hin; contradiction|discriminate].
      + apply Hiff. lia. }
  destruct (last kept) as [j|] eqn:Elast.
  - assert (Hj : j < m).
    { rewrite Forall_forall in Hlt. apply Hlt.
      apply last_Some_elem_of, Elast. }
    destruct (lookup_lt_is_Some_2 ps j ltac:(lia)) as [pj Hpj].
    destruct (lookup_lt_is_Some_2 rs j ltac:(lia)) as [rj Hrj].
    cbn [mbind option_bind] in Hlp, Hlr. rewrite Hpj in Hlp.
    rewrite Hrj in Hlr.
    apply (Hkeep (far resolution p pj || far resolution r rj)).
    + unfold filter_test, index. rewrite Hlp, Hp. cbn [bind].
      destruct (far resolution p pj); [reflexivity|].
      rewrite Hrm, Hlr. reflexivity.
    + unfold keeps. rewrite last_kept_before_all, Elast by exact Hlt.
      rewrite orb_true_iff. split.
      * intros Hfar. right. exists j, p, pj, r, rj. auto 10.
      * intros [->|(j' & a & b & c & d & [= <-] & Ha & Hb & Hc & Hd & Hfar)];
          [lia|]. simplify_eq. exact Hfar.
  - apply last_None in Elast. subst kept.
    cbn [mbind option_bind] in Hlp.
    apply (Hkeep true).
    + unfold filter_test. rewrite Hlp. reflexivity.
    + split; [|reflexivity]. intros _. left.
      destruct m as [|m']; [reflexivity|].
      exfalso. assert (H0 : 0 ∈ @nil nat).
      { apply (Hiff 0); [lia|]. left. reflexivity. }
      inversion H0.
Qed.

Lemma filter_loop_kept ps rs ts resolution (m : nat) :
  length rs = length ps -> length ts = length ps -> m <= length ps ->
  exists st kept,
    foldM (filter_step ps rs ts resolution) (MkFilter None None [] [] [])
      (seq 0 m) = Ok st
    /\ kept_inv resolution ps rs ts m st kept.
Proof.
  intros Hr Ht. induction m as [|m IH]; intros Hm.
  - exists (MkFilter None None [] [] []), []. split; [reflexivity|].
    unfold kept_inv. simpl.
    repeat split; try constructor; try lia; intros; lia.
  - destruct (IH ltac:(lia)) as (st & kept & Hfold & Hinv).
    destruct (filter_kept_step ps rs ts resolution m st kept Hr Ht
                ltac:(lia) Hinv) as (st' & kept' & Hstep & Hinv').
    exists st', kept'. split; [|exact Hinv'].
    rewrite foldM_seq_S, Hfold. exact Hstep.
Qed.

(** C6. On a curve of points (precision, recall, threshold), compaction
    returns the points at a list [kept] of indices, in increasing order of
    index and with their own precision, recall and threshold; a point is in
    [kept] if and only if it is the first point, or its precision or its
    recall is at least the resolution away from that of the last point
    kept before it. *)
Theorem filter_pr_curve_keeps ps rs ts resolution :
  length rs = length ps -> length ts = length ps ->
  exists kept (new_ps new_rs new_ts : list float),
    filter_pr_curve ps rs ts resolution = Ok (new_ps, new_rs, new_ts)
    /\ StronglySorted lt kept
    /\ (forall i, i ∈ kept
          <-> i < length ps /\ keeps resolution ps rs kept i)
    /\ Forall2 (fun i p => ps !! i = Some p) kept new_ps
    /\ Forall2 (fun i r => rs !! i = Some r) kept new_rs
    /\ Forall2 (fun i t => ts !! i = Some t) kept new_ts.
Proof.
  intros Hr Ht.
  destruct (filter_loop_kept ps rs ts resolution (length ps) Hr Ht
              (Nat.le_refl _))
    as (st & kept & Hfold & Hsorted & Hlt & Hiff & Hps & Hrs & Hts & _).
  exists kept, (new_precisions st), (new_recalls st), (new_thresholds st).
  split; [unfold filter_pr_curve; rewrite Hfold; reflexivity|].
  split; [exact Hsorted|]. split; [|auto].
  intros i. split.
  - intros Hin. assert (Hi : i < length ps).
    { rewrite Forall_forall in Hlt. apply Hlt, Hin. }
    split; [exact Hi|]. apply Hiff; assumption.
  - intros [Hi Hk]. apply Hiff; assumption.
Qed.

Lemma filter_pr_curve_keeps_witness :
  exists kept (new_ps new_rs new_ts : list float),
    filter_pr_curve [0.5; 0.5004; 0.75]%float [1; 1; 0.5]%float
      [0.1; 0.2; 0.3]%float default_resolution
    = Ok (new_ps, new_rs, new_ts)
    /\ StronglySorted lt kept
    /\ (forall i, i ∈ kept
          <-> i < length [0.5; 0.5004; 0.75]%float
              /\ keeps default_resolution [0.5; 0.5004; 0.75]%float
                   [1; 1; 0.5]%float kept i)
    /\ Forall2 (fun i p => [0.5; 0.5004; 0.75]%float !! i = Some p)
         kept new_ps
    /\ Forall2 (fun i r => [1; 1; 0.5]%float !! i = Some r) kept new_rs
    /\ Forall2 (fun i t => [0.1; 0.2; 0.3]%float !! i = Some t) kept new_ts.
Proof.
  apply (filter_pr_curve_keeps [0.5; 0.5004; 0.75]%float [1; 1; 0.5]%float
           [0.1; 0.2; 0.3]%float default_resolution); reflexivity.
Defined.

End compaction.

(** ** Curve Builder: groups and curves *)

Section curve_builder.

Implicit Types (grouping : gmap string string) (filtered : bool).
Implicit Types (combined group : list aligned).

Lemma insert_threshold_nonempty (x : float) (ts : list float) :
  insert_threshold x ts <> [].
Proof.
  destruct ts as [|t ts]; simpl; [discriminate|].
  destruct (feq x t); [discriminate|]. destruct (flt x t); discriminate.
Qed.

Lemma distinct_thresholds_nonempty (y_score : list float) :
  y_score <> [] -> 0 < length (distinct_thresholds y_score).
Proof.
  destruct y_score as [|x xs]; [congruence|]. intros _. simpl.
  pose proof (insert_threshold_nonempty x (distinct_thresholds xs)) as H.
  destruct (insert_threshold x (distinct_thresholds xs)); [congruence|].
  simpl. lia.
Qed.

(** The shape of the library's curve: one threshold per distinct score,
    and one more precision and recall, the point (1, 0). *)
Lemma precision_recall_curve_shape (y_true : list bool)
  (y_score : list float) :
  y_true <> [] -> length y_true = length y_score ->
  exists ps rs,
    precision_recall_curve y_true y_score
    = Ok (ps ++ [1%float], rs ++ [0%float], distinct_thresholds y_score)
    /\ length ps = length (distinct_thresholds y_score)
    /\ length rs = length (distinct_thresholds y_score).
Proof.
  intros Hne Hlen. unfold precision_recall_curve.
  destruct y_true as [|y ys]; [congruence|].
  rewrite Hlen, Nat.eqb_refl. rewrite <- Hlen. cbn [length Nat.eqb orb negb].
  eexists _, _. split; [reflexivity|].
  rewrite length_zip_with, !length_fmap. split; lia.
Qed.

(** Compaction returns on every curve, with three lists of one length,
    not longer than the curve and not empty unless the curve is. *)
Lemma filter_pr_curve_total (ps rs ts : list float) (resolution : float) :
  length rs = length ps -> length ts = length ps ->
  exists new_ps new_rs new_ts,
    filter_pr_curve ps rs ts resolution = Ok (new_ps, new_rs, new_ts)
    /\ length new_ps = length new_ts
    /\ length new_rs = length new_ts
    /\ length new_ts <= length ps
    /\ (0 < length ps -> 0 < length new_ts).
Proof.
  intros Hr Ht.
  destruct (filter_loop_kept ps rs ts resolution (length ps) Hr Ht
              (Nat.le_refl _)) as (st & kept & Hfold & _).
  pose proof (filter_loop_inv _ _ _ _ _ _ Hfold)
    as (H1 & H2 & _ & _ & _ & H6 & H7).
  exists (new_precisions st), (new_recalls st), (new_thresholds st).
  split; [unfold filter_pr_curve; rewrite Hfold; reflexivity|].
  repeat split; lia.
Qed.

Lemma broadcast_same (op : float -> float -> float) (xs ys : list float) :
  length xs = length ys -> broadcast op xs ys = Ok (zip_with op xs ys).
Proof. intros H. unfold broadcast. rewrite H, Nat.eqb_refl. reflexivity. Qed.

Lemma f1_scores_same (ps rs : list float) :
  length ps = length rs ->
  exists f1s, f1_scores ps rs = Ok f1s /\ length f1s = length ps.
Proof.
  intros H. unfold f1_scores.
  rewrite (broadcast_same _ (_ <$> ps)) by (rewrite length_fmap; exact H).
  cbn [bind]. rewrite (broadcast_same _ ps rs) by exact H. cbn [bind].
  rewrite broadcast_same
    by (rewrite !length_zip_with, length_fmap; reflexivity).
  eexists. split; [reflexivity|].
  rewrite !length_zip_with, length_fmap. lia.
Qed.

Lemma zip_with_fmap_l {A B C D : Type} (f : A -> B -> C) (g : C -> D)
  (h : A -> D) (xs : list A) (ys : list B) :
  (forall a b, g (f a b) = h a) -> length xs = length ys ->
  g <$> zip_with f xs ys = h <$> xs.
Proof.
  intros Hg. revert ys. induction xs as [|x xs IH]; intros [|y ys] Hlen;
    try discriminate; [reflexivity|].
  simpl. rewrite Hg. f_equal. apply IH. simpl in Hlen. lia.
Qed.

Lemma zip_with_fmap_r {A B C D : Type} (f : A -> B -> C) (g : C -> D)
  (h : B -> D) (xs : list A) (ys : list B) :
  (forall a b, g (f a b) = h b) -> length xs = length ys ->
  g <$> zip_with f xs ys = h <$> ys.
Proof.
  intros Hg. revert ys. induction xs as [|x xs IH]; intros [|y ys] Hlen;
    try discriminate; [reflexivity|].
  simpl. rewrite Hg. f_equal. apply IH. simpl in Hlen. lia.
Qed.

Lemma curve_frame_same (group_name : string) (ps rs ts f1s : list float) :
  length ps = length ts -> length rs = length ts -> length f1s = length ts ->
  exists pts,
    curve_frame group_name ps rs ts f1s = Ok pts
    /\ curve_precision <$> pts = ps
    /\ curve_recall <$> pts = rs
    /\ curve_threshold <$> pts = ts
    /\ Forall (fun pt => curve_group pt = group_name) pts.
Proof.
  intros Hp Hr Hf. unfold curve_frame.
  replace (length ps =? length rs) with true
    by (symmetry; apply Nat.eqb_eq; lia).
  replace (length rs =? length ts) with true
    by (symmetry; apply Nat.eqb_eq; lia).
  replace (length ts =? length f1s) with true
    by (symmetry; apply Nat.eqb_eq; lia).
  eexists. split; [reflexivity|].
  assert (Hz : length (zip ps rs) = length (zip ts f1s))
    by (rewrite !length_zip_with; lia).
  split; [|split; [|split]].
  - rewrite (zip_with_fmap_l _ _ fst) by (auto; reflexivity).
    apply fst_zip. lia.
  - rewrite (zip_with_fmap_l _ _ snd) by (auto; reflexivity).
    apply snd_zip. lia.
  - rewrite (zip_with_fmap_r _ _ fst) by (auto; reflexivity).
    apply fst_zip. lia.
  - apply Forall_forall. intros pt Hpt.
    apply list_elem_of_lookup in Hpt as [k Hk].
    apply lookup_zip_with_Some in Hk as (a & b & -> & _). reflexivity.
Qed.

(** The arrays of a group that is not empty: the library's curve without
    its last point, filtered if asked; they have one length, bounded by
    the number of distinct scores. *)
Lemma curve_arrays_shape filtered group :
  group <> [] ->
  exists (ps0 rs0 ps rs ts : list float),
    precision_recall_curve (gt <$> group) (scores_of group)
    = Ok (ps0 ++ [1%float], rs0 ++ [0%float],
          distinct_thresholds (scores_of group))
    /\ (if filtered
        then filter_pr_curve ps0 rs0 (distinct_thresholds (scores_of group))
               default_resolution
        else Ok (ps0, rs0, distinct_thresholds (scores_of group)))
       = Ok (ps, rs, ts)
    /\ curve_arrays filtered group = Ok (ps, rs, ts)
    /\ length ps = length ts
    /\ length rs = length ts
    /\ (filtered = false ->
        length ts = length (distinct_thresholds (scores_of group)))
    /\ 1 <= length ts <= length (distinct_thresholds (scores_of group)).
Proof.
  intros Hne.
  destruct (precision_recall_curve_shape (gt <$> group) (scores_of group))
    as (ps0 & rs0 & Hprc & Hp0 & Hr0).
  { destruct group; [congruence|discriminate]. }
  { unfold scores_of. rewrite !length_fmap. reflexivity. }
  assert (Hpos : 0 < length (distinct_thresholds (scores_of group))).
  { apply distinct_thresholds_nonempty. unfold scores_of.
    destruct group; [congruence|discriminate]. }
  assert (Harr : exists ps rs ts,
            (if filtered
             then filter_pr_curve ps0 rs0
                    (distinct_thresholds (scores_of group)) default_resolution
             else Ok (ps0, rs0, distinct_thresholds (scores_of group)))
            = Ok (ps, rs, ts)
            /\ length ps = length ts /\ length rs = length ts
            /\ (filtered = false ->
                length ts = length (distinct_thresholds (scores_of group)))
            /\ 1 <= length ts
               <= length (distinct_thresholds (scores_of group))).
  { destruct filtered.
    - destruct (filter_pr_curve_total ps0 rs0
                  (distinct_thresholds (scores_of group)) default_resolution)
        as (ps & rs & ts & Hf & H1 & H2 & H3 & H4); [lia..|].
      exists ps, rs, ts. split; [exact Hf|].
      repeat split; try lia; discriminate.
    - exists ps0, rs0, (distinct_thresholds (scores_of group)).
      repeat split; lia. }
  destruct Harr as (ps & rs & ts & Hsel & H1 & H2 & H3 & H4).
  exists ps0, rs0, ps, rs, ts.
  split; [exact Hprc|]. split; [exact Hsel|]. split; [|auto].
  unfold curve_arrays. rewrite Hprc. cbn [bind fst snd].
  rewrite !removelast_last. exact Hsel.
Qed.

(** The table of a group whose arrays have one length: one row per
    threshold, tagged with the name of the group. *)
Lemma curve_of_group_table filtered group (group_name : string)
  (ps rs ts : list float) :
  curve_arrays filtered group = Ok (ps, rs, ts) ->
  length ps = length ts -> length rs = length ts ->
  exists pts,
    curve_of_group filtered (group_name, group) = Ok pts
    /\ curve_precision <$> pts = ps
    /\ curve_recall <$> pts = rs
    /\ curve_threshold <$> pts = ts
    /\ Forall (fun pt => curve_group pt = group_name) pts.
Proof.
  intros Hca H1 H2.
  destruct (f1_scores_same ps rs ltac:(lia)) as (f1s & Hf1 & Hf1len).
  destruct (curve_frame_same group_name ps rs ts f1s)
    as (pts & Hpts & Hrest); [lia..|].
  exists pts. split; [|exact Hrest].
  unfold curve_of_group. cbn [fst snd]. rewrite Hca. cbn [bind fst snd].
  rewrite Hf1. cbn [bind]. exact Hpts.
Qed.

(** C8, as the code has it. For every group that is not empty, the last
    point of the library's curve, (1, 0) without a threshold, is dropped
    before the curve is filtered and put out, and the precisions, recalls
    and thresholds put out for the group have one length, which is the
    number of rows of the group's table. Without filtering this length is
    the number of distinct score thresholds of the group; with filtering
    it is at least one and at most that number. *)
Theorem curve_arrays_lengths filtered group (group_name : string) :
  group <> [] ->
  exists (ps0 rs0 ps rs ts : list float) (pts : list curve_point),
    precision_recall_curve (gt <$> group) (scores_of group)
    = Ok (ps0 ++ [1%float], rs0 ++ [0%float],
          distinct_thresholds (scores_of group))
    /\ (if filtered
        then filter_pr_curve ps0 rs0 (distinct_thresholds (scores_of group))
               default_resolution
        else Ok (ps0, rs0, distinct_thresholds (scores_of group)))
       = Ok (ps, rs, ts)
    /\ curve_arrays filtered group = Ok (ps, rs, ts)
    /\ length ps = length ts
    /\ length rs = length ts
    /\ (filtered = false ->
        length ts = length (distinct_thresholds (scores_of group)))
    /\ 1 <= length ts <= length (distinct_thresholds (scores_of group))
    /\ curve_of_group filtered (group_name, group) = Ok pts
    /\ curve_precision <$> pts = ps
    /\ curve_recall <$> pts = rs
    /\ curve_threshold <$> pts = ts
    /\ Forall (fun pt => curve_group pt = group_name) pts.
Proof.
  intros Hne.
  destruct (curve_arrays_shape filtered group Hne)
    as (ps0 & rs0 & ps & rs & ts & Hprc & Hsel & Hca & H1 & H2 & H3 & H4).
  destruct (curve_of_group_table filtered group group_name ps rs ts
              Hca H1 H2) as (pts & Hpts & Hcols).
  exists ps0, rs0, ps, rs, ts, pts.
  split; [exact Hprc|]. split; [exact Hsel|]. split; [exact Hca|].
  split; [exact H1|]. split; [exact H2|]. split; [exact H3|].
  split; [exact H4|]. split; [exact Hpts|]. exact Hcols.
Qed.

Lemma curve_arrays_lengths_witness :
  exists (ps0 rs0 ps rs ts : list float) (pts : list curve_point),
    precision_recall_curve
      (gt <$> [MkAligned "seq1" "A" (SFloat 0.9) true;
               MkAligned "seq1" "B" (SFloat 0.2) false])
      (scores_of [MkAligned "seq1" "A" (SFloat 0.9) true;
                  MkAligned "seq1" "B" (SFloat 0.2) false])
    = Ok (ps0 ++ [1%float], rs0 ++ [0%float],
          distinct_thresholds
            (scores_of [MkAligned "seq1" "A" (SFloat 0.9) true;
                        MkAligned "seq1" "B" (SFloat 0.2) false]))
    /\ (if true
        then filter_pr_curve ps0 rs0
               (distinct_thresholds
                  (scores_of [MkAligned "seq1" "A" (SFloat 0.9) true;
                              MkAligned "seq1" "B" (SFloat 0.2) false]))
               default_resolution
        else Ok (ps0, rs0,
                 distinct_thresholds
                   (scores_of [MkAligned "seq1" "A" (SFloat 0.9) true;
                               MkAligned "seq1" "B" (SFloat 0.2) false])))
       = Ok (ps, rs, ts)
    /\ curve_arrays true
         [MkAligned "seq1" "A" (SFloat 0.9) true;
          MkAligned "seq1" "B" (SFloat 0.2) false] = Ok (ps, rs, ts)
    /\ length ps = length ts
    /\ length rs = length ts
    /\ (true = false ->
        length ts
        = length (distinct_thresholds
                    (scores_of [MkAligned "seq1" "A" (SFloat 0.9) true;
                                MkAligned "seq1" "B" (SFloat 0.2) false])))
    /\ 1 <= length ts
       <= length (distinct_thresholds
                    (scores_of [MkAligned "seq1" "A" (SFloat 0.9) true;
                                MkAligned "seq1" "B" (SFloat 0.2) false]))
    /\ curve_of_group true
         ("all", [MkAligned "seq1" "A" (SFloat 0.9) true;
                  MkAligned "seq1" "B" (SFloat 0.2) false]) = Ok pts
    /\ curve_precision <$> pts = ps
    /\ curve_recall <$> pts = rs
    /\ curve_threshold <$> pts = ts
    /\ Forall (fun pt => curve_group pt = "all") pts.
Proof.
  apply (curve_arrays_lengths true
           [MkAligned "seq1" "A" (SFloat 0.9) true;
            MkAligned "seq1" "B" (SFloat 0.2) false] "all").
  discriminate.
Defined.

(** Three predictions with distinct scores for one label, the lowest one
    true: the curve has three thresholds, and filtering drops the point of
    the highest one, whose precision and recall are those of the point
    before it. Two thresholds are put out where the group has three. *)
Lemma curve_arrays_filtered_shorter :
  let predictions_df :=
    [MkPrediction "seq1" "A" 0.9; MkPrediction "seq2" "A" 0.8;
     MkPrediction "seq3" "A" 0.7] in
  let ground_truth_df := [MkTruth "seq3" "A" true] in
  let group :=
    merge_predictions_and_ground_truth predictions_df ground_truth_df in
  to_process None group = [("all", group)]
  /\ distinct_thresholds (scores_of group) = [0.7; 0.8; 0.9]%float
  /\ curve_arrays true group
     = Ok ([(1 / 3)%float; 0%float], [1%float; 0%float], [0.7; 0.8]%float)
  /\ (pts <- get_pr_curve_df predictions_df ground_truth_df None true ;;
      Ok (curve_threshold <$> pts))
     = Ok [0.7; 0.8]%float
  /\ ~ (exists ps rs ts,
          curve_arrays true group = Ok (ps, rs, ts)
          /\ length ts = length (distinct_thresholds (scores_of group))).
Proof.
  cbv zeta. split; [reflexivity|]. split; [vm_compute; reflexivity|].
  split; [vm_compute; reflexivity|]. split; [vm_compute; reflexivity|].
  intros (ps & rs & ts & H & Hlen). vm_compute in H, Hlen.
  injection H as <- <- <-. discriminate Hlen.
Qed.

Lemma mapM_Forall2 {A B : Type} (body : A -> result B) (P : A -> B -> Prop)
  (l : list A) :
  Forall (fun a => exists b, body a = Ok b /\ P a b) l ->
  exists bs, mapM body l = Ok bs /\ Forall2 P l bs.
Proof.
  induction 1 as [|a l (b & Hb & HP) _ (bs & Hbs & HPs)].
  - exists []. split; [reflexivity|constructor].
  - exists (b :: bs). simpl. rewrite Hb, Hbs. split; [reflexivity|].
    constructor; assumption.
Qed.

Lemma omap_group_of_mapped grouping combined :
  omap (group_of grouping)
    (filter (fun r => is_Some (group_of grouping r)) combined)
  = omap (group_of grouping) combined.
Proof.
  induction combined as [|r combined IH]; [reflexivity|].
  rewrite filter_cons. destruct (decide (is_Some (group_of grouping r)))
    as [[k Hk]|Hnone].
  - csimpl. rewrite Hk, IH. reflexivity.
  - csimpl. rewrite IH.
    destruct (group_of grouping r) as [k|] eqn:E; [|reflexivity].
    exfalso. apply Hnone. eauto.
Qed.

Lemma filter_group_mapped grouping combined (k : string) :
  filter (fun r => group_of grouping r = Some k)
    (filter (fun r => is_Some (group_of grouping r)) combined)
  = filter (fun r => group_of grouping r = Some k) combined.
Proof.
  induction combined as [|r combined IH]; [reflexivity|].
  rewrite (filter_cons (fun r => is_Some _)).
  destruct (decide (is_Some (group_of grouping r))) as [Hsome|Hnone].
  - rewrite !filter_cons. destruct (decide (group_of grouping r = Some k));
      rewrite IH; reflexivity.
  - rewrite IH, filter_cons_False; [reflexivity|].
    intros Hk. apply Hnone. eauto.
Qed.

(** The groups are those of the rows that have a group. *)
Lemma groupby_mapped grouping combined :
  groupby grouping combined
  = groupby grouping
      (filter (fun r => is_Some (group_of grouping r)) combined).
Proof.
  unfold groupby. rewrite omap_group_of_mapped.
  apply list_fmap_ext. intros _ k _. rewrite filter_group_mapped.
  reflexivity.
Qed.

(** Every group has a key that is the group of one of its rows, and holds
    exactly the rows with that group. *)
Lemma groupby_groups grouping combined (named : string * list aligned) :
  named ∈ groupby grouping combined ->
  named.2 = filter (fun r => group_of grouping r = Some named.1) combined
  /\ exists r, r ∈ named.2 /\ group_of grouping r = Some named.1.
Proof.
  unfold groupby. intros (k & -> & Hk)%list_elem_of_fmap.
  split; [reflexivity|]. cbn [fst snd].
  rewrite merge_sort_Permutation in Hk.
  apply elem_of_remove_dups, list_elem_of_omap in Hk as (r & Hr & Hg).
  exists r. split; [|exact Hg]. apply list_elem_of_filter. auto.
Qed.

Lemma groupby_nonempty grouping combined (r : aligned) :
  r ∈ combined -> is_Some (group_of grouping r) ->
  groupby grouping combined <> [].
Proof.
  intros Hr [k Hk] Hnil.
  assert (Hin : k ∈ merge_sort String.le
                      (remove_dups (omap (group_of grouping) combined))).
  { rewrite merge_sort_Permutation. apply elem_of_remove_dups.
    apply list_elem_of_omap. eauto. }
  unfold groupby in Hnil. apply fmap_nil_inv in Hnil.
  rewrite Hnil in Hin. inversion Hin.
Qed.

(** C9, as the code has it. With a grouping mapping, a row whose label is
    not a key of the mapping has no group and is in the table of no group;
    the groups, and with them the outcome of the call, are those of the
    table without these rows. When at least one row has a group the call
    returns a table, and each of its rows carries the group of a row of
    the aligned table. *)
Theorem pr_curve_excludes_unmapped grouping filtered combined :
  (forall r, r ∈ combined -> grouping !! label r = None ->
     group_of grouping r = None
     /\ forall named, named ∈ to_process (Some grouping) combined ->
                      r ∉ named.2)
  /\ to_process (Some grouping) combined
     = to_process (Some grouping)
         (filter (fun r => is_Some (grouping !! label r)) combined)
  /\ pr_curve_of_aligned (Some grouping) filtered combined
     = pr_curve_of_aligned (Some grouping) filtered
         (filter (fun r => is_Some (grouping !! label r)) combined)
  /\ ((exists r, r ∈ combined /\ is_Some (grouping !! label r)) ->
      exists pts,
        pr_curve_of_aligned (Some grouping) filtered combined = Ok pts
        /\ forall pt, pt ∈ pts ->
             exists r, r ∈ combined
                       /\ grouping !! label r = Some (curve_group pt)).
Proof.
  split; [|split; [|split]].
  - intros r Hr Hnone. split; [exact Hnone|].
    intros named Hnamed Hin. cbn [to_process] in Hnamed.
    apply groupby_groups in Hnamed as [Hrows _]. rewrite Hrows in Hin.
    apply list_elem_of_filter in Hin as [Hk _].
    unfold group_of in Hk. congruence.
  - cbn [to_process]. apply groupby_mapped.
  - unfold pr_curve_of_aligned. cbn [to_process].
    rewrite (groupby_mapped grouping combined). reflexivity.
  - intros (r0 & Hr0 & Hsome0).
    unfold pr_curve_of_aligned. cbn [to_process].
    destruct (mapM_Forall2 (curve_of_group filtered)
                (fun named pts =>
                   Forall (fun pt => curve_group pt = named.1) pts)
                (groupby grouping combined)) as (dfs & Hdfs & Hgroups).
    { apply Forall_forall. intros [k rows] Hnamed.
      apply groupby_groups in Hnamed as [_ (r & Hr & _)]. cbn [fst snd] in *.
      destruct (curve_arrays_shape filtered rows)
        as (? & ? & ps & rs & ts & _ & _ & Hca & H1 & H2 & _).
      { intros ->. inversion Hr. }
      destruct (curve_of_group_table filtered rows k ps rs ts Hca H1 H2)
        as (pts & Hpts & Hcols).
      exists pts. split; [exact Hpts|apply Hcols]. }
    rewrite Hdfs. cbn [bind].
    assert (Hne : dfs <> []).
    { intros ->. apply Forall2_nil_inv_r in Hgroups.
      exact (groupby_nonempty grouping combined r0 Hr0 Hsome0 Hgroups). }
    exists (concat dfs). split; [destruct dfs; [congruence|reflexivity]|].
    intros pt Hpt. apply list_elem_of_In, in_concat in Hpt as (df & Hdf & Hpt).
    apply list_elem_of_In in Hdf, Hpt.
    apply list_elem_of_lookup in Hdf as [i Hi].
    destruct (Forall2_lookup_r _ _ _ _ _ Hgroups Hi)
      as ([k rows] & Hnamed & Hk).
    rewrite Forall_forall in Hk. rewrite (Hk pt Hpt). cbn [fst].
    assert (Hin : (k, rows) ∈ groupby grouping combined)
      by (apply list_elem_of_lookup; eauto).
    apply groupby_groups in Hin as [Hrows (r & Hr & Hg)].
    cbn [fst snd] in *. exists r. split; [|exact Hg].
    rewrite Hrows in Hr. apply list_elem_of_filter in Hr as [_ Hr]. exact Hr.
Qed.

Lemma pr_curve_excludes_unmapped_witness :
  exists pts,
    pr_curve_of_aligned (Some {[ "A" := "g1" ]}) true
      [MkAligned "seq1" "A" (SFloat 0.9) true;
       MkAligned "seq1" "B" (SFloat 0.2) false] = Ok pts
    /\ forall pt, pt ∈ pts ->
         exists r, r ∈ [MkAligned "seq1" "A" (SFloat 0.9) true;
                        MkAligned "seq1" "B" (SFloat 0.2) false]
                   /\ ({[ "A" := "g1" ]} : gmap string string) !! label r
                      = Some (curve_group pt).
Proof.
  apply (pr_curve_excludes_unmapped {[ "A" := "g1" ]} true
           [MkAligned "seq1" "A" (SFloat 0.9) true;
            MkAligned "seq1" "B" (SFloat 0.2) false]).
  exists (MkAligned "seq1" "A" (SFloat 0.9) true). split.
  - left.
  - exists "g1". vm_compute. reflexivity.
Defined.

(** One prediction, true, whose label is not a key of the mapping: no row
    has a group, there is no table to concatenate, and the call raises
    ValueError. *)
Lemma get_pr_curve_df_all_unmapped :
  let grouping : gmap string string := {[ "A" := "g1" ]} in
  let predictions_df := [MkPrediction "seq1" "B" 0.9] in
  let ground_truth_df := [MkTruth "seq1" "B" true] in
  merge_predictions_and_ground_truth predictions_df ground_truth_df
  = [MkAligned "seq1" "B" (SFloat 0.9) true]
  /\ grouping !! "B" = None
  /\ to_process (Some grouping)
       (merge_predictions_and_ground_truth predictions_df ground_truth_df)
     = []
  /\ get_pr_curve_df predictions_df ground_truth_df (Some grouping) true
     = Raise ValueError.
Proof. cbv zeta. repeat split; vm_compute; reflexivity. Qed.

End curve_builder.

(** ** Batch Reader: edge cases and composition *)

Section batch_reader_edges.

Implicit Types (records acc : list inference_record) (batch_size : Z).

(** While the counter cannot reach the batch size the loop only
    accumulates. *)
Lemma batch_loop_accumulates batch_size it (counter : Z)
  (predictions : list vector) (seq_ids : list string) :
  (0 <= counter)%Z ->
  (batch_size <= 0 \/ counter + Z.of_nat (length it) < batch_size)%Z ->
  batch_loop batch_size it counter predictions seq_ids
  = batch_loop batch_size [] 0 (predictions ++ it.*2) (seq_ids ++ it.*1).
Proof.
  revert counter predictions seq_ids.
  induction it as [|r it IH]; intros counter predictions seq_ids Hc Hb.
  - rewrite !app_nil_r. reflexivity.
  - cbn [batch_loop].
    destruct (Z.eqb_spec (counter + 1) batch_size) as [Heq|Hne].
    + exfalso. simpl in Hb. lia.
    + rewrite IH by (simpl in Hb; lia).
      rewrite !fmap_cons, <- !app_assoc. reflexivity.
Qed.

(** A batch size that is never reached, because it is not positive or
    because there are fewer records than it asks for, gives one batch with
    all the records, or none when there is no record. *)
Theorem batch_inferences_single_batch records batch_size :
  (batch_size <= 0 \/ Z.of_nat (length records) < batch_size)%Z ->
  batch_inferences records batch_size
  = match records with
    | [] => ([], None)
    | _ :: _ =>
        match vstack records.*2 with
        | Ok m => ([(records.*1, m)], None)
        | Raise e => ([], Some e)
        end
    end.
Proof.
  intros Hb. unfold batch_inferences.
  rewrite batch_loop_accumulates by lia. cbn [batch_loop app].
  destruct records as [|r records]; [reflexivity|].
  rewrite length_fmap. cbn [length Nat.ltb Nat.leb].
  destruct (vstack _); reflexivity.
Qed.

Lemma batch_inferences_single_batch_witness :
  batch_inferences [("seq1", [0.5; 0.25]); ("seq2", [0; 1])]%float 0
  = ([(["seq1"; "seq2"], [[0.5; 0.25]; [0; 1]]%float)], None).
Proof.
  rewrite (batch_inferences_single_batch
             [("seq1", [0.5; 0.25]); ("seq2", [0; 1])]%float 0).
  - reflexivity.
  - left. lia.
Defined.

Lemma concat_batch_of (chunks : list (list inference_record)) :
  concat ((batch_of <$> chunks).*1) = (concat chunks).*1
  /\ concat ((batch_of <$> chunks).*2) = (concat chunks).*2.
Proof.
  induction chunks as [|c chunks [IH1 IH2]]; [split; reflexivity|].
  cbn [fmap list_fmap concat batch_of fst snd] in *.
  rewrite !fmap_app. split; f_equal; assumption.
Qed.

(** Batching loses and reorders nothing: when the generator ends without
    an exception, the identifiers of its batches, put end to end, are the
    identifiers of the records, and the rows of its matrices are their
    vectors. *)
Theorem batch_inferences_flatten records (B : nat) :
  0 < B ->
  (batch_inferences records (Z.of_nat B)).2 = None ->
  concat (batch_inferences records (Z.of_nat B)).1.*1 = records.*1
  /\ concat (batch_inferences records (Z.of_nat B)).1.*2 = records.*2.
Proof.
  intros HB Hnone. unfold batch_inferences in *.
  destruct (batch_loop_chunks B records [] HB ltac:(simpl; lia))
    as (chunks & rest & Hb & _ & Hcat & Hrest & _).
  simpl in Hb, Hcat, Hrest. change (Z.of_nat 0) with 0%Z in Hb, Hrest.
  rewrite (Hrest Hnone), app_nil_r in Hcat. rewrite Hb, Hcat.
  apply concat_batch_of.
Qed.

Lemma batch_inferences_flatten_witness :
  concat
    (batch_inferences
       [("seq1", [0.9; 0; 0.5]); ("seq2", [0.1; 0.2; 0.3]);
        ("seq3", [0; 0; 1])]%float (Z.of_nat 2)).1.*1
  = [("seq1", [0.9; 0; 0.5]); ("seq2", [0.1; 0.2; 0.3]);
     ("seq3", [0; 0; 1])]%float.*1
  /\ concat
       (batch_inferences
          [("seq1", [0.9; 0; 0.5]); ("seq2", [0.1; 0.2; 0.3]);
           ("seq3", [0; 0; 1])]%float (Z.of_nat 2)).1.*2
     = [("seq1", [0.9; 0; 0.5]); ("seq2", [0.1; 0.2; 0.3]);
        ("seq3", [0; 0; 1])]%float.*2.
Proof.
  apply (batch_inferences_flatten
           [("seq1", [0.9; 0; 0.5]); ("seq2", [0.1; 0.2; 0.3]);
            ("seq3", [0; 0; 1])]%float 2).
  - lia.
  - vm_compute. reflexivity.
Defined.

Lemma vstack_rectangular (l m : list vector) :
  vstack l = Ok m -> rectangular m /\ m <> [].
Proof.
  unfold vstack. destruct l as [|v vs]; [discriminate|].
  destruct (forallb _ vs) eqn:E; [|discriminate]. intros [= <-].
  split; [|discriminate]. exists (length v). constructor; [reflexivity|].
  apply Forall_forall. intros w Hw.
  rewrite forallb_forall in E. apply Nat.eqb_eq, E, list_elem_of_In, Hw.
Qed.

Lemma vstack_Raise (l : list vector) (e : exn) :
  vstack l = Raise e -> e = ValueError.
Proof.
  unfold vstack. destruct l as [|v vs]; [congruence|].
  destruct (forallb _ vs); congruence.
Qed.

(** Whatever the records and the batch size, the generator never yields a
    ragged or an empty matrix, its matrices have as many rows as the batch
    has identifiers, and the only exception that ends it is the ValueError
    of [np.vstack]. *)
Theorem batch_inferences_rectangular records batch_size :
  Forall (fun b : batch =>
            rectangular b.2 /\ b.2 <> [] /\ length b.1 = length b.2)
    (batch_inferences records batch_size).1
  /\ (forall e, (batch_inferences records batch_size).2 = Some e ->
        e = ValueError).
Proof.
  unfold batch_inferences.
  assert (H : forall it (counter : Z) (predictions : list vector)
                (seq_ids : list string),
             length seq_ids = length predictions ->
             Forall (fun b : batch =>
                       rectangular b.2 /\ b.2 <> []
                       /\ length b.1 = length b.2)
               (batch_loop batch_size it counter predictions seq_ids).1
             /\ (forall e,
                   (batch_loop batch_size it counter predictions seq_ids).2
                   = Some e -> e = ValueError)).
  { induction it as [|r it IH]; intros counter predictions seq_ids Hlen.
    - cbn [batch_loop]. destruct (0 <? length seq_ids).
      + destruct (vstack predictions) as [m|e] eqn:Ev.
        * pose proof (vstack_rectangular _ _ Ev) as [Hrect Hne].
          apply vstack_Ok in Ev as ->. cbn [yield fst snd]. split.
          { constructor; [|constructor]. cbn [fst snd]. auto. }
          { discriminate. }
        * apply vstack_Raise in Ev as ->. cbn [fst snd]. split.
          { constructor. }
          { intros e [= <-]. reflexivity. }
      + split; [constructor|discriminate].
    - cbn [batch_loop].
      assert (Hlen' : length (seq_ids ++ [r.1])
                      = length (predictions ++ [r.2]))
        by (rewrite !length_app; simpl; lia).
      destruct (counter + 1 =? batch_size)%Z.
      + destruct (vstack (predictions ++ [r.2])) as [m|e] eqn:Ev.
        * pose proof (vstack_rectangular _ _ Ev) as [Hrect Hne].
          apply vstack_Ok in Ev as ->.
          destruct (IH 0%Z [] [] eq_refl) as [IH1 IH2].
          cbn [yield fst snd]. split; [|exact IH2].
          constructor; [|exact IH1]. cbn [fst snd]. auto.
        * apply vstack_Raise in Ev as ->. cbn [fst snd]. split.
          { constructor. }
          { intros e [= <-]. reflexivity. }
      + apply IH, Hlen'. }
  apply H. reflexivity.
Qed.

(** An exception ends the whole run: when the generator of a file is ended
    by an exception, after files that were read to their end, the run
    yields the batches of the files before it and the batches this file
    yielded, and is ended by the same exception; the files after it are
    not read. *)
Theorem batched_inferences_from_files_stops parse_shard
  (before after : list string) (file_name : string) batch_size (e : exn) :
  Forall (fun f => (batch_inferences (parse_shard f) batch_size).2 = None)
    before ->
  (batch_inferences (parse_shard file_name) batch_size).2 = Some e ->
  batched_inferences_from_files parse_shard
    (before ++ file_name :: after) batch_size
  = ((before ≫=
        (fun f => (batch_inferences (parse_shard f) batch_size).1))
     ++ (batch_inferences (parse_shard file_name) batch_size).1,
     Some e).
Proof.
  intros Hbefore He. induction Hbefore as [|f fs Hf _ IH].
  - cbn [app batched_inferences_from_files]. rewrite He. reflexivity.
  - cbn [app batched_inferences_from_files]. rewrite Hf, IH.
    cbn [fst snd]. rewrite bind_cons, <- app_assoc. reflexivity.
Qed.

Lemma batched_inferences_from_files_stops_witness :
  let parse_shard (file_name : string) : list inference_record :=
    if String.eqb file_name "shard-0" then [("seq1", [0.5%float])]
    else if String.eqb file_name "shard-1"
         then [("seq2", [0.5%float]); ("seq3", [0.5; 0.25]%float)]
         else [("seq4", [0.25%float])] in
  batched_inferences_from_files parse_shard
    (["shard-0"] ++ "shard-1" :: ["shard-2"]) 2
  = ((["shard-0"] ≫=
        (fun f => (batch_inferences (parse_shard f) 2).1))
     ++ (batch_inferences (parse_shard "shard-1") 2).1,
     Some ValueError).
Proof.
  intros parse_shard.
  apply (batched_inferences_from_files_stops parse_shard ["shard-0"]
           ["shard-2"] "shard-1" 2 ValueError).
  - repeat constructor.
  - vm_compute. reflexivity.
Defined.

End batch_reader_edges.

(** ** Loops that can raise *)

Section loops.

Context {St A : Type} (body : St -> A -> result St).

(** A property of the state that every round keeps holds at the end. *)
Lemma foldM_invariant (P : St -> Prop) (l : list A) (s s' : St) :
  (forall s0 a s1, a ∈ l -> P s0 -> body s0 a = Ok s1 -> P s1) ->
  P s -> foldM body s l = Ok s' -> P s'.
Proof.
  revert s. induction l as [|a l IH]; intros s Hstep Hs.
  - intros [= <-]. exact Hs.
  - cbn [foldM]. destruct (body s a) as [s1|e] eqn:E; [|discriminate].
    cbn [bind]. apply IH.
    + intros s2 b s3 Hb. apply Hstep. right. exact Hb.
    + eapply Hstep; [left|exact Hs|exact E].
Qed.

(** When the success of a round depends on the element only, the loop
    succeeds exactly when every round does. *)
Lemma foldM_Ok_iff (Q : A -> Prop) (l : list A) (s : St) :
  (forall s0 a, a ∈ l -> (exists s1, body s0 a = Ok s1) <-> Q a) ->
  (exists s', foldM body s l = Ok s') <-> Forall Q l.
Proof.
  revert s. induction l as [|a l IH]; intros s Hstep.
  - split; [constructor|]. intros _. exists s. reflexivity.
  - cbn [foldM]. rewrite Forall_cons.
    rewrite <- (Hstep s a) by left.
    destruct (body s a) as [s1|e] eqn:E; cbn [bind].
    + rewrite IH by (intros s2 b Hb; apply Hstep; right; exact Hb).
      split; [intros H; split; [eauto|exact H]|intros [_ H]; exact H].
    + split; [intros [s' Hs']; discriminate|].
      intros [[s' Hs'] _]. discriminate.
Qed.

(** A loop raises what one of its rounds raises. *)
Lemma foldM_Raise (E : exn) (l : list A) (s : St) (e : exn) :
  (forall s0 a e0, body s0 a = Raise e0 -> e0 = E) ->
  foldM body s l = Raise e -> e = E.
Proof.
  intros Hstep. revert s. induction l as [|a l IH]; intros s; [discriminate|].
  cbn [foldM]. destruct (body s a) as [s1|e1] eqn:E1; cbn [bind].
  - apply IH.
  - intros [= <-]. eapply Hstep, E1.
Qed.

End loops.

(** ** Sparsifier: failures and keys *)

Section sparsifier_edges.

Implicit Types (sequence_names vocab : list string) (M : matrix).
Implicit Types (threshold : float) (cols : tidy_columns).

Lemma argwhere_gt_lookup (preds : vector) threshold (j : nat) :
  j ∈ argwhere_gt preds threshold
  <-> exists x, preds !! j = Some x /\ fgt x threshold = true.
Proof.
  unfold argwhere_gt. rewrite elem_of_argwhere_gt_from, Nat.sub_0_r.
  split; [intros [_ H]; exact H|intros H; split; [lia|exact H]].
Qed.

Lemma tidy_entry_Ok (up_id : string) (preds : vector) vocab cols (j : nat) :
  j < length preds ->
  (exists cols', tidy_entry up_id preds vocab cols j = Ok cols')
  <-> j < length vocab.
Proof.
  intros Hj. unfold tidy_entry, index.
  destruct (lookup_lt_is_Some_2 preds j Hj) as [x Hx]. split.
  - intros [cols' H]. destruct (vocab !! j) as [l|] eqn:El; [|discriminate].
    apply lookup_lt_Some in El. exact El.
  - intros Hv. destruct (lookup_lt_is_Some_2 vocab j Hv) as [l Hl].
    rewrite Hl, Hx. cbn [bind]. eauto.
Qed.

(** When the round of example [i] succeeds. *)
Lemma tidy_example_Ok sequence_names M vocab threshold cols (i : nat) :
  i < length sequence_names ->
  (exists cols',
     tidy_example sequence_names M vocab threshold cols i = Ok cols')
  <-> exists preds,
        M !! i = Some preds
        /\ Forall (fun j => j < length vocab) (argwhere_gt preds threshold).
Proof.
  intros Hi. unfold tidy_example, index.
  destruct (lookup_lt_is_Some_2 sequence_names i Hi) as [up_id Hname].
  rewrite Hname. cbn [bind].
  destruct (M !! i) as [preds|] eqn:Erow; cbn [bind].
  - rewrite (foldM_Ok_iff _ (fun j => j < length vocab)).
    + split; [eauto|]. intros (p & [= <-] & H). exact H.
    + intros s j Hj. apply tidy_entry_Ok.
      apply argwhere_gt_lookup in Hj as (x & Hx & _).
      apply lookup_lt_Some in Hx. exact Hx.
  - split; [intros [? ?]; discriminate|intros (? & ? & _); discriminate].
Qed.

Lemma tidy_entry_Raise (up_id : string) (preds : vector) vocab cols (j : nat)
  (e : exn) :
  tidy_entry up_id preds vocab cols j = Raise e -> e = IndexError.
Proof.
  unfold tidy_entry, index. destruct (vocab !! j); cbn [bind]; [|congruence].
  destruct (preds !! j); cbn [bind]; congruence.
Qed.

Lemma tidy_example_Raise sequence_names M vocab threshold cols (i : nat)
  (e : exn) :
  tidy_example sequence_names M vocab threshold cols i = Raise e ->
  e = IndexError.
Proof.
  unfold tidy_example, index.
  destruct (sequence_names !! i) as [up_id|]; cbn [bind]; [|congruence].
  destruct (M !! i) as [preds|]; cbn [bind]; [|congruence].
  apply foldM_Raise. intros s j e'. apply tidy_entry_Raise.
Qed.

(** The lists of the Sparsifier grow together. *)
Lemma tidy_columns_lengths sequence_names M vocab threshold cols
  (l : list nat) :
  foldM (tidy_example sequence_names M vocab threshold) (MkTidy [] [] []) l
  = Ok cols ->
  length (up_ids cols) = length (labels cols)
  /\ length (labels cols) = length (values cols).
Proof.
  intros Hfold.
  set (P := fun c : tidy_columns =>
              length (up_ids c) = length (labels c)
              /\ length (labels c) = length (values c)).
  apply (fun H1 H2 => foldM_invariant _ P _ _ _ H1 H2 Hfold);
    [|split; reflexivity].
  intros s i s' _ Hs. unfold tidy_example, index.
  destruct (sequence_names !! i) as [up_id|]; cbn [bind]; [|discriminate].
  destruct (M !! i) as [preds|]; cbn [bind]; [|discriminate].
  intros Hin. apply (fun H1 H2 => foldM_invariant _ P _ _ _ H1 H2 Hin);
    [|exact Hs].
  intros s1 j s2 _ [H1 H2]. unfold tidy_entry, index.
  destruct (vocab !! j); cbn [bind]; [|discriminate].
  destruct (preds !! j); cbn [bind]; [|discriminate].
  intros [= <-]. unfold P. cbn [up_ids labels values]. rewrite !length_app.
  simpl. lia.
Qed.

(** Exactly when the Sparsifier fails, on a matrix of dtype [dt] and a
    threshold within the range of [dt]. It returns a table if and only if the matrix has a row for every
    identifier and the vocabulary has a label for every entry of these rows
    that is above the threshold as brought to the dtype of the matrix;
    otherwise it raises IndexError, and it raises nothing else. Rows of the
    matrix beyond the identifiers, entries that are not above this
    threshold and labels beyond the width of the matrix are never looked
    at. *)
Theorem make_tidy_df_fails (dt : dtype) sequence_names M vocab
  (min_decision_threshold : float) :
  in_range dt min_decision_threshold = true ->
  ((exists rows,
      _make_tidy_df_from_typed_array dt sequence_names M vocab
        min_decision_threshold = Ok rows)
   <-> length sequence_names <= length M
       /\ forall i v x,
            i < length sequence_names -> entry M i v = Some x ->
            fgt x (as_dtype dt min_decision_threshold) = true ->
            v < length vocab)
  /\ (forall e,
        _make_tidy_df_from_typed_array dt sequence_names M vocab
          min_decision_threshold = Raise e -> e = IndexError).
Proof.
  intros _. unfold _make_tidy_df_from_typed_array.
  generalize (as_dtype dt min_decision_threshold). intros threshold.
  unfold _make_tidy_df_from_seq_names_and_prediction_array.
  pose proof (foldM_Ok_iff
                (tidy_example sequence_names M vocab threshold)
                (fun i => exists preds,
                   M !! i = Some preds
                   /\ Forall (fun j => j < length vocab)
                        (argwhere_gt preds threshold))
                (seq 0 (length sequence_names)) (MkTidy [] [] [])) as Hiff.
  destruct (foldM (tidy_example sequence_names M vocab threshold)
              (MkTidy [] [] []) (seq 0 (length sequence_names)))
    as [cols|e0] eqn:Efold; cbn [bind].
  - destruct (tidy_columns_lengths _ _ _ _ _ _ Efold) as [H1 H2].
    assert (Hframe : exists rows, tidy_frame cols = Ok rows).
    { unfold tidy_frame. rewrite H1, H2, !Nat.eqb_refl. eauto. }
    destruct Hframe as [rows Hrows]. rewrite Hrows.
    split; [|discriminate]. split; [intros _|eauto].
    assert (HQ : Forall (fun i => exists preds,
                   M !! i = Some preds
                   /\ Forall (fun j => j < length vocab)
                        (argwhere_gt preds threshold))
                   (seq 0 (length sequence_names))).
    { apply Hiff; [|eauto]. intros s i Hi%elem_of_seq.
      apply tidy_example_Ok. lia. }
    rewrite Forall_forall in HQ. split.
    + destruct (decide (length sequence_names <= length M)) as [|Hlt];
        [assumption|].
      destruct (HQ (length M)) as (preds & Hrow & _).
      { apply elem_of_seq. lia. }
      apply lookup_lt_Some in Hrow. lia.
    + intros i v x Hi Hx Hgt. destruct (HQ i) as (preds & Hrow & Hv).
      { apply elem_of_seq. lia. }
      unfold entry in Hx. rewrite Hrow in Hx. cbn in Hx.
      rewrite Forall_forall in Hv. apply Hv, argwhere_gt_lookup. eauto.
  - split.
    + split; [intros [rows H]; discriminate|]. intros [Hlen Hvocab].
      exfalso.
      assert (Hok : exists cols, Raise e0 = @Ok tidy_columns cols);
        [|destruct Hok; discriminate].
      apply Hiff.
      * intros s i Hi%elem_of_seq. apply tidy_example_Ok. lia.
      * apply Forall_forall. intros i Hi%elem_of_seq.
        destruct (lookup_lt_is_Some_2 M i ltac:(lia)) as [preds Hrow].
        exists preds. split; [exact Hrow|].
        apply Forall_forall. intros j (x & Hx & Hgt)%argwhere_gt_lookup.
        apply (Hvocab i j x); [lia| |exact Hgt].
        unfold entry. rewrite Hrow. exact Hx.
    + intros e [= <-]. eapply foldM_Raise; [|exact Efold].
      intros s i e'. apply tidy_example_Raise.
Qed.

Lemma make_tidy_df_fails_witness :
  ((exists rows,
      _make_tidy_df_from_typed_array float32
        ["seq1"] [[0x1.ccccccp-1; 0x1.333334p-2]%float] ["A"] 0.3 = Ok rows)
   <-> length ["seq1"] <= length [[0x1.ccccccp-1; 0x1.333334p-2]%float]
       /\ forall i v x,
            i < length ["seq1"] ->
            entry [[0x1.ccccccp-1; 0x1.333334p-2]%float] i v = Some x ->
            fgt x (as_dtype float32 0.3) = true ->
            v < length ["A"])
  /\ (forall e,
        _make_tidy_df_from_typed_array float32
          ["seq1"] [[0x1.ccccccp-1; 0x1.333334p-2]%float] ["A"] 0.3
        = Raise e -> e = IndexError).
Proof.
  apply (make_tidy_df_fails float32
           ["seq1"] [[0x1.ccccccp-1; 0x1.333334p-2]%float] ["A"] 0.3).
  vm_compute. reflexivity.
Defined.

(** A vocabulary of one label for a matrix of two columns: with dtype
    [float32] the entry of the second column, [np.float32(0.3)], is not
    above 0.3 rounded to [float32], its label is not looked up and the table
    is returned; with dtype [float64] it is above 0.3 and the lookup
    fails. *)
Example make_tidy_df_short_vocab :
  _make_tidy_df_from_typed_array float32
    ["seq1"] [[0x1.ccccccp-1; 0x1.333334p-2]%float] ["A"] 0.3
  = Ok [MkPrediction "seq1" "A" 0x1.ccccccp-1]
  /\ _make_tidy_df_from_typed_array float64
       ["seq1"] [[0x1.ccccccp-1; 0x1.333334p-2]%float] ["A"] 0.3
     = Raise IndexError
  /\ to_float32 0.9 = 0x1.ccccccp-1%float
  /\ to_float32 0.3 = 0x1.333334p-2%float.
Proof. repeat split; vm_compute; reflexivity. Qed.

(** The values, labels and identifiers of a table the Sparsifier
    returns. *)
Lemma tidy_rows_sound sequence_names M vocab threshold
  (rows : list prediction) :
  _make_tidy_df_from_seq_names_and_prediction_array
    sequence_names M vocab threshold = Ok rows ->
  Forall (fun r => fgt (pred_value r) threshold = true
                   /\ pred_label r ∈ vocab
                   /\ pred_up_id r ∈ sequence_names) rows.
Proof.
  unfold _make_tidy_df_from_seq_names_and_prediction_array.
  destruct (foldM _ _ (seq 0 (length sequence_names)))
    as [cols|e0] eqn:Efold; cbn [bind]; [|discriminate].
  set (P := fun c : tidy_columns =>
              Forall (fun x => fgt x threshold = true) (values c)
              /\ Forall (fun l => l ∈ vocab) (labels c)
              /\ Forall (fun u => u ∈ sequence_names) (up_ids c)).
  assert (HP : P cols).
  { apply (fun H1 H2 => foldM_invariant _ P _ _ _ H1 H2 Efold);
      [|repeat split; constructor].
    intros s i s' _ Hs. unfold tidy_example, index.
    destruct (sequence_names !! i) as [up_id|] eqn:Ename; cbn [bind];
      [|discriminate].
    destruct (M !! i) as [preds|]; cbn [bind]; [|discriminate].
    intros Hin. apply (fun H1 H2 => foldM_invariant _ P _ _ _ H1 H2 Hin);
      [|exact Hs].
    intros s1 j s2 Hj (H1 & H2 & H3). unfold tidy_entry, index.
    destruct (vocab !! j) as [l|] eqn:El; cbn [bind]; [|discriminate].
    destruct (preds !! j) as [x|] eqn:Ex; cbn [bind]; [|discriminate].
    intros [= <-]. unfold P. cbn [up_ids labels values].
    apply argwhere_gt_lookup in Hj as (x' & Hx' & Hgt).
    assert (x' = x) as -> by congruence.
    rewrite !Forall_app, !Forall_singleton.
    repeat split; try assumption.
    - apply list_elem_of_lookup. eauto.
    - apply list_elem_of_lookup. eauto. }
  destruct HP as (Hv & Hl & Hu).
  unfold tidy_frame. destruct (_ && _); [|discriminate]. intros [= <-].
  apply Forall_forall. intros r Hr.
  apply list_elem_of_lookup in Hr as [k Hk].
  apply lookup_zip_with_Some in Hk as ([u l] & x & -> & Hul & Hx).
  apply lookup_zip_with_Some in Hul as (u' & l' & [= <- <-] & Hu' & Hl').
  cbn [pred_value pred_label pred_up_id fst snd].
  split; [|split].
  - exact (Forall_lookup_1 _ _ _ _ Hv Hx).
  - exact (Forall_lookup_1 _ _ _ _ Hl Hl').
  - exact (Forall_lookup_1 _ _ _ _ Hu Hu').
Qed.

(** Whatever the shapes of its arguments, a table the Sparsifier returns
    holds only values above the threshold, labels of the vocabulary and
    identifiers of the list of names. *)
Theorem make_tidy_df_sound sequence_names M vocab threshold
  (rows : list prediction) :
  _make_tidy_df_from_seq_names_and_prediction_array
    sequence_names M vocab threshold = Ok rows ->
  Forall (fun r => fgt (pred_value r) threshold = true
                   /\ pred_label r ∈ vocab
                   /\ pred_up_id r ∈ sequence_names) rows.
Proof. intros H. exact (tidy_rows_sound _ _ _ _ _ H). Qed.

Lemma make_tidy_df_sound_witness :
  Forall (fun r => fgt (pred_value r) 0.3 = true
                   /\ pred_label r ∈ ["A"; "B"; "C"; "D"]
                   /\ pred_up_id r ∈ ["seq1"])
    [MkPrediction "seq1" "A" 0.9; MkPrediction "seq1" "C" 0.5].
Proof.
  apply (make_tidy_df_sound ["seq1"] [[0.9; 0; 0.5]; [0.4; 0.4; 0.4]]%float
           ["A"; "B"; "C"; "D"] 0.3%float).
  vm_compute. reflexivity.
Defined.

Lemma cells_NoDup M threshold (n : nat) :
  NoDup (seq 0 n ≫= cells_of M threshold).
Proof.
  apply NoDup_bind; [| |apply NoDup_seq].
  - intros i1 i2 [i v] _ _ [-> _]%elem_of_cells_of [-> _]%elem_of_cells_of.
    reflexivity.
  - intros i _. unfold cells_of. destruct (M !! i); [|constructor].
    apply NoDup_fmap_2; [|apply NoDup_argwhere_gt_from].
    intros a b [= ->]. reflexivity.
Qed.

(** With distinct identifiers and distinct labels, the table of the
    Sparsifier has at most one row for a (label, identifier) pair, which
    is what the outer join of the Aligner needs of it. *)
Theorem make_tidy_df_unique_keys sequence_names M vocab threshold :
  length M = length sequence_names ->
  Forall (fun preds => length preds = length vocab) M ->
  NoDup sequence_names -> NoDup vocab ->
  exists rows,
    _make_tidy_df_from_seq_names_and_prediction_array
      sequence_names M vocab threshold = Ok rows
    /\ NoDup (pred_key <$> rows).
Proof.
  intros HM Hshape Hnames Hvocab.
  destruct (tidy_examples sequence_names vocab M threshold
              (length sequence_names) HM Hshape 0 [] eq_refl)
    as (rows & Hfold & Hrows).
  exists rows. split.
  - unfold _make_tidy_df_from_seq_names_and_prediction_array.
    change (MkTidy [] [] []) with (cols_of []). rewrite Hfold. cbn [bind].
    apply tidy_frame_cols_of.
  - pose proof (cells_NoDup M threshold (length sequence_names)) as Hcells.
    apply NoDup_alt. intros k1 k2 key Hk1 Hk2.
    apply list_lookup_fmap_Some in Hk1 as (r1 & -> & Hr1).
    apply list_lookup_fmap_Some in Hk2 as (r2 & Hkey & Hr2).
    destruct (Forall2_lookup_r _ _ _ _ _ Hrows Hr1)
      as ([i1 v1] & Hc1 & Hn1 & Hv1 & _).
    destruct (Forall2_lookup_r _ _ _ _ _ Hrows Hr2)
      as ([i2 v2] & Hc2 & Hn2 & Hv2 & _).
    unfold pred_key in Hkey. injection Hkey as Hl Hu. cbn [fst snd] in *.
    rewrite Hu in Hn1. rewrite Hl in Hv1.
    pose proof (NoDup_lookup _ _ _ _ Hnames Hn1 Hn2) as ->.
    pose proof (NoDup_lookup _ _ _ _ Hvocab Hv1 Hv2) as ->.
    exact (NoDup_lookup _ _ _ _ Hcells Hc1 Hc2).
Qed.

Lemma make_tidy_df_unique_keys_witness :
  exists rows,
    _make_tidy_df_from_seq_names_and_prediction_array
      ["seq1"; "seq2"] [[0.9; 0; 0.5]; [0.4; 0.4; 0.4]]%float
      ["A"; "B"; "C"] 0.3%float = Ok rows
    /\ NoDup (pred_key <$> rows).
Proof.
  apply (make_tidy_df_unique_keys ["seq1"; "seq2"]
           [[0.9; 0; 0.5]; [0.4; 0.4; 0.4]]%float ["A"; "B"; "C"] 0.3%float).
  - reflexivity.
  - repeat constructor.
  - apply (bool_decide_unpack _). vm_compute. reflexivity.
  - apply (bool_decide_unpack _). vm_compute. reflexivity.
Defined.

Lemma argwhere_gt_from_sorted (i : nat) (preds : vector) threshold :
  StronglySorted lt (argwhere_gt_from i preds threshold).
Proof.
  revert i. induction preds as [|y preds IH]; intros i;
    cbn [argwhere_gt_from]; [constructor|].
  apply StronglySorted_app_2; [| |apply IH].
  - intros j1 j2 Hj1 [Hle _]%elem_of_argwhere_gt_from.
    destruct (fgt y threshold); [|inversion Hj1].
    apply list_elem_of_singleton in Hj1. lia.
  - destruct (fgt y threshold); repeat constructor.
Qed.

Lemma cells_sorted M threshold (i n : nat) :
  StronglySorted cell_lt (seq i n ≫= cells_of M threshold).
Proof.
  revert i. induction n as [|n IH]; intros i; [constructor|].
  cbn [seq]. rewrite bind_cons. apply StronglySorted_app_2; [| |apply IH].
  - intros [i1 v1] [i2 v2] [-> _]%elem_of_cells_of Hc2.
    apply list_elem_of_bind in Hc2 as (i' & [-> _]%elem_of_cells_of & Hi').
    apply elem_of_seq in Hi'. left. cbn. lia.
  - unfold cells_of. destruct (M !! i) as [preds|]; [|constructor].
    pose proof (argwhere_gt_from_sorted 0 preds threshold) as Hs.
    unfold argwhere_gt. induction Hs as [|j js _ IHs Hj]; [constructor|].
    rewrite fmap_cons. constructor; [exact IHs|].
    apply Forall_fmap. eapply Forall_impl; [exact Hj|].
    intros j' Hlt. right. cbn. split; [reflexivity|exact Hlt].
Qed.

(** The order of the rows of the Sparsifier's table: they follow the cells
    of the matrix above the threshold by example, in the order of the
    identifiers, and within an example by increasing column. *)
Theorem make_tidy_df_row_order sequence_names M vocab threshold :
  length M = length sequence_names ->
  Forall (fun preds => length preds = length vocab) M ->
  exists (cells : list (nat * nat)) rows,
    _make_tidy_df_from_seq_names_and_prediction_array
      sequence_names M vocab threshold = Ok rows
    /\ Forall2 (cell_row sequence_names vocab M) cells rows
    /\ StronglySorted cell_lt cells.
Proof.
  intros HM Hshape.
  destruct (tidy_examples sequence_names vocab M threshold
              (length sequence_names) HM Hshape 0 [] eq_refl)
    as (rows & Hfold & Hrows).
  eexists _, rows. split; [|split; [exact Hrows|apply cells_sorted]].
  unfold _make_tidy_df_from_seq_names_and_prediction_array.
  change (MkTidy [] [] []) with (cols_of []). rewrite Hfold. cbn [bind].
  apply tidy_frame_cols_of.
Qed.

Lemma make_tidy_df_row_order_witness :
  exists (cells : list (nat * nat)) rows,
    _make_tidy_df_from_seq_names_and_prediction_array
      ["seq1"; "seq2"] [[0.9; 0; 0.5]; [0.4; 0.4; 0.4]]%float
      ["A"; "B"; "C"] 0.3%float = Ok rows
    /\ Forall2
         (cell_row ["seq1"; "seq2"] ["A"; "B"; "C"]
            [[0.9; 0; 0.5]; [0.4; 0.4; 0.4]]%float) cells rows
    /\ StronglySorted cell_lt cells.
Proof.
  apply (make_tidy_df_row_order ["seq1"; "seq2"]
           [[0.9; 0; 0.5]; [0.4; 0.4; 0.4]]%float ["A"; "B"; "C"] 0.3%float).
  - reflexivity.
  - repeat constructor.
Defined.

End sparsifier_edges.

(** ** Ground-Truth Tidifier *)

Section ground_truth_tidifier.

Context {K : Type} `{EqDecision K}.

Implicit Types (ground_truth : list (K * ground_truth_example)).
Implicit Types (e : ground_truth_example) (cols : truth_columns) (i : K).

(** The rows of one round of the outer loop: one per entry the inner loop
    runs over, in order. *)
Lemma truth_example_rows ground_truth cols i :
  truth_example ground_truth cols i
  = MkTruthColumns
      (gt_up_ids cols
       ++ ((fun _ => sequence_name_at ground_truth i)
             <$> true_label_at ground_truth i))
      (gt_labels cols ++ true_label_at ground_truth i).
Proof.
  unfold truth_example. generalize (sequence_name_at ground_truth i).
  generalize (true_label_at ground_truth i). intros ls up_id.
  revert cols. induction ls as [|l ls IH]; intros [us vs].
  - cbn. rewrite !app_nil_r. reflexivity.
  - cbn [foldl]. rewrite IH. unfold truth_entry.
    cbn [gt_up_ids gt_labels fmap list_fmap]. rewrite <- !app_assoc.
    reflexivity.
Qed.

Lemma truth_examples_rows ground_truth cols (idx : list K) :
  foldl (truth_example ground_truth) cols idx
  = MkTruthColumns
      (gt_up_ids cols
       ++ (idx ≫=
             (fun i => (fun _ => sequence_name_at ground_truth i)
                         <$> true_label_at ground_truth i)))
      (gt_labels cols ++ (idx ≫= true_label_at ground_truth)).
Proof.
  revert cols. induction idx as [|i idx IH]; intros [us vs].
  - cbn. rewrite !app_nil_r. reflexivity.
  - cbn [foldl]. rewrite IH, truth_example_rows.
    cbn [gt_up_ids gt_labels]. rewrite !bind_cons, <- !app_assoc.
    reflexivity.
Qed.

(** The table, index label by index label. *)
Lemma make_tidy_df_from_ground_truth_by_label ground_truth :
  make_tidy_df_from_ground_truth ground_truth
  = ground_truth.*1 ≫=
      (fun i => (fun l => MkTruthRow (sequence_name_at ground_truth i) l true)
                  <$> true_label_at ground_truth i).
Proof.
  unfold make_tidy_df_from_ground_truth. rewrite truth_examples_rows.
  cbn [gt_up_ids gt_labels app].
  induction (ground_truth.*1) as [|i idx IH]; [reflexivity|].
  rewrite !bind_cons, zip_with_app by apply length_fmap.
  rewrite IH. f_equal.
  clear IH. induction (true_label_at ground_truth i) as [|l ls IHl];
    [reflexivity|].
  cbn [fmap list_fmap zip_with] in *. rewrite IHl. reflexivity.
Qed.

(** An index label that one row carries is looked up to this row. *)
Lemma rows_at_unique ground_truth i e :
  NoDup (ground_truth.*1) -> (i, e) ∈ ground_truth ->
  rows_at ground_truth i = [e].
Proof.
  unfold rows_at. induction ground_truth as [|[j e'] t IH]; intros Hnd Hin.
  - inversion Hin.
  - rewrite fmap_cons in Hnd. apply NoDup_cons in Hnd as [Hnotin Hnd].
    cbn [fst] in Hnotin. rewrite filter_cons. cbn [fst].
    apply elem_of_cons in Hin as [[= <- <-]|Hin].
    + rewrite decide_True by reflexivity. rewrite fmap_cons. cbn [snd].
      f_equal.
      destruct (filter (fun r => r.1 = i) t) as [|[j e''] t'] eqn:E;
        [reflexivity|].
      exfalso. apply Hnotin.
      assert (Hb : (j, e'') ∈ filter (fun r => r.1 = i) t)
        by (rewrite E; left).
      apply list_elem_of_filter in Hb as [Hb1 Hb2]. cbn in Hb1. subst j.
      change i with ((i, e'').1). apply list_elem_of_fmap_2, Hb2.
    + rewrite decide_False.
      * apply IH; assumption.
      * intros ->. apply Hnotin. change i with ((i, e).1).
        apply list_elem_of_fmap_2, Hin.
Qed.

(** The rounds of index labels that one row carries each. *)
Lemma truth_rows_of_unique_labels ground_truth
  (rows : list (K * ground_truth_example)) :
  (forall i e, (i, e) ∈ rows -> rows_at ground_truth i = [e]) ->
  rows.*1 ≫=
    (fun i => (fun l => MkTruthRow (sequence_name_at ground_truth i) l true)
                <$> true_label_at ground_truth i)
  = truth_row_of <$> (rows.*2 ≫= truths_of).
Proof.
  induction rows as [|[i e] rows IH]; intros Hall; [reflexivity|].
  rewrite !fmap_cons, !bind_cons, fmap_app. cbn [fst snd].
  rewrite IH by (intros i' e' Hin; apply Hall; right; exact Hin).
  f_equal. unfold sequence_name_at, true_label_at, truths_of.
  rewrite (Hall i e) by left.
  rewrite <- !list_fmap_compose. reflexivity.
Qed.

(** With distinct index labels the table is the tidy table of the
    examples. *)
Lemma make_tidy_df_from_ground_truth_flat ground_truth :
  NoDup (ground_truth.*1) ->
  make_tidy_df_from_ground_truth ground_truth
  = truth_row_of <$> (ground_truth.*2 ≫= truths_of).
Proof.
  intros Hnd. rewrite make_tidy_df_from_ground_truth_by_label.
  apply truth_rows_of_unique_labels.
  intros i e. apply rows_at_unique, Hnd.
Qed.

(** With distinct index labels, the ground-truth table has one row per
    example and label of it, in the order of the examples and of their
    labels, with the name of the example, the label and [gt = True]: a
    label listed twice for an example gives two rows, an example without a
    label gives none, and the number of rows is the total number of
    labels. *)
Theorem make_tidy_df_from_ground_truth_rows ground_truth :
  NoDup (ground_truth.*1) ->
  make_tidy_df_from_ground_truth ground_truth
  = truth_row_of <$> (ground_truth.*2 ≫= truths_of)
  /\ length (make_tidy_df_from_ground_truth ground_truth)
     = sum_list (length <$> (true_label <$> ground_truth.*2))
  /\ Forall (fun r => row_gt r = true)
       (make_tidy_df_from_ground_truth ground_truth).
Proof.
  intros Hnd.
  pose proof (make_tidy_df_from_ground_truth_flat ground_truth Hnd) as Hrows.
  split; [exact Hrows|]. rewrite Hrows. clear Hrows Hnd. split.
  - rewrite length_fmap.
    induction (ground_truth.*2) as [|e es IH]; [reflexivity|].
    rewrite bind_cons, length_app, IH. unfold truths_of.
    rewrite length_fmap. reflexivity.
  - apply Forall_fmap, Forall_forall.
    intros g (e & Hg & _)%list_elem_of_bind.
    apply list_elem_of_fmap in Hg as (l & -> & _). reflexivity.
Qed.

(** When the index labels are distinct, the examples have distinct names
    and no example lists a label twice, the ground-truth table is a tidy
    table with at most one row for a (label, identifier) pair, which is
    what the outer join of the Aligner needs of it. *)
Theorem make_tidy_df_from_ground_truth_unique_keys ground_truth :
  NoDup (ground_truth.*1) ->
  NoDup (sequence_name <$> ground_truth.*2) ->
  Forall (fun e => NoDup (true_label e)) (ground_truth.*2) ->
  exists rows : list truth,
    make_tidy_df_from_ground_truth ground_truth = truth_row_of <$> rows
    /\ NoDup (truth_key <$> rows).
Proof.
  intros Hnd Hnames Hlabels.
  exists (ground_truth.*2 ≫= truths_of).
  split; [apply make_tidy_df_from_ground_truth_flat, Hnd|]. clear Hnd.
  induction (ground_truth.*2) as [|e es IH]; [constructor|].
  rewrite fmap_cons in Hnames. apply NoDup_cons in Hnames as [Hnotin Hnames].
  apply Forall_cons in Hlabels as [He Hes].
  rewrite bind_cons, fmap_app. apply NoDup_app. split; [|split].
  - unfold truths_of. rewrite <- list_fmap_compose.
    apply NoDup_fmap_2; [|exact He].
    intros l1 l2 [= ->]. reflexivity.
  - intros key Hk1 Hk2.
    apply list_elem_of_fmap in Hk1 as (g1 & -> & Hg1).
    apply list_elem_of_fmap in Hg1 as (l1 & -> & _).
    apply list_elem_of_fmap in Hk2 as (g2 & Hkey & Hg2).
    apply list_elem_of_bind in Hg2 as (e2 & Hg2 & He2).
    apply list_elem_of_fmap in Hg2 as (l2 & -> & _).
    injection Hkey as _ Hname. apply Hnotin. rewrite Hname.
    apply list_elem_of_fmap_2, He2.
  - apply IH; assumption.
Qed.

End ground_truth_tidifier.

Section ground_truth_examples.

Lemma make_tidy_df_from_ground_truth_rows_witness :
  make_tidy_df_from_ground_truth
    [(0%Z, MkExample "seq1" ["A"; "B"]); (1%Z, MkExample "seq2" ["A"])]
  = truth_row_of <$>
      ([(0%Z, MkExample "seq1" ["A"; "B"]);
        (1%Z, MkExample "seq2" ["A"])].*2 ≫= truths_of)
  /\ length
       (make_tidy_df_from_ground_truth
          [(0%Z, MkExample "seq1" ["A"; "B"]); (1%Z, MkExample "seq2" ["A"])])
     = sum_list
         (length <$>
            (true_label <$>
               [(0%Z, MkExample "seq1" ["A"; "B"]);
                (1%Z, MkExample "seq2" ["A"])].*2))
  /\ Forall (fun r => row_gt r = true)
       (make_tidy_df_from_ground_truth
          [(0%Z, MkExample "seq1" ["A"; "B"]); (1%Z, MkExample "seq2" ["A"])]).
Proof.
  apply (make_tidy_df_from_ground_truth_rows
           [(0%Z, MkExample "seq1" ["A"; "B"]); (1%Z, MkExample "seq2" ["A"])]).
  apply (bool_decide_unpack _). vm_compute. reflexivity.
Defined.

Lemma make_tidy_df_from_ground_truth_unique_keys_witness :
  exists rows : list truth,
    make_tidy_df_from_ground_truth
      [(0%Z, MkExample "seq1" ["A"; "B"]); (1%Z, MkExample "seq2" ["A"])]
    = truth_row_of <$> rows
    /\ NoDup (truth_key <$> rows).
Proof.
  apply (make_tidy_df_from_ground_truth_unique_keys
           [(0%Z, MkExample "seq1" ["A"; "B"]); (1%Z, MkExample "seq2" ["A"])]).
  - apply (bool_decide_unpack _). vm_compute. reflexivity.
  - apply (bool_decide_unpack _). vm_compute. reflexivity.
  - repeat constructor; apply (bool_decide_unpack _); vm_compute;
      reflexivity.
Defined.

(** Two rows with the same index label: each of the two visits of the
    label finds both rows, so the table has four rows, whose [up_id] is the
    Series of the two names and whose [label] is the list of labels of one
    of the two rows. *)
Example make_tidy_df_from_ground_truth_repeated_label :
  make_tidy_df_from_ground_truth
    [(0%Z, MkExample "seq1" ["A"]); (0%Z, MkExample "seq2" ["B"; "C"])]
  = [MkTruthRow (UpIds ["seq1"; "seq2"]) (Labels ["A"]) true;
     MkTruthRow (UpIds ["seq1"; "seq2"]) (Labels ["B"; "C"]) true;
     MkTruthRow (UpIds ["seq1"; "seq2"]) (Labels ["A"]) true;
     MkTruthRow (UpIds ["seq1"; "seq2"]) (Labels ["B"; "C"]) true].
Proof. vm_compute. reflexivity. Qed.

End ground_truth_examples.

(** ** Aligner: tables with repeated keys *)

Section aligner_multiplicity.

Implicit Types (left : list prediction) (right : list truth).
Implicit Types (p : prediction) (g : truth) (k : string * string).

Lemma length_filter_fmap {A B : Type} (f : A -> B) (P : B -> Prop)
  `{!forall y, Decision (P y)} (l : list A) :
  length (filter P (f <$> l)) = length (filter (fun x => P (f x)) l).
Proof.
  induction l as [|a l IH]; [reflexivity|].
  rewrite fmap_cons, !filter_cons.
  destruct (decide (P (f a))); simpl; rewrite IH; reflexivity.
Qed.

Lemma length_filter_const {A : Type} (Q : Prop) `{!Decision Q} (l : list A) :
  length (filter (fun _ => Q) l) = if decide Q then length l else 0.
Proof.
  induction l as [|a l IH]; [destruct (decide Q); reflexivity|].
  rewrite filter_cons. destruct (decide Q); simpl; rewrite IH; reflexivity.
Qed.

(** The rows of the join for one prediction all have its key: as many as
    the ground-truth rows with this key, and one when there is none. *)
Lemma join_left_count right p k :
  length (filter (fun j => joined_key j = k) (join_left right p))
  = if decide (pred_key p = k)
    then Nat.max 1 (length (filter (fun g => truth_key g = pred_key p) right))
    else 0.
Proof.
  unfold join_left.
  destruct (filter (fun g => truth_key g = pred_key p) right) as [|m ms].
  - rewrite filter_cons. unfold joined_key, pred_key.
    cbn [joined_label joined_up_id].
    destruct (decide ((pred_label p, pred_up_id p) = k)); reflexivity.
  - rewrite length_filter_fmap. unfold joined_key, pred_key.
    cbn [joined_label joined_up_id].
    rewrite length_filter_const.
    destruct (decide ((pred_label p, pred_up_id p) = k)); [|reflexivity].
    cbn [length]. lia.
Qed.

Lemma left_rows_count left right k :
  length (filter (fun j => joined_key j = k) (left ≫= join_left right))
  = length (filter (fun p => pred_key p = k) left)
    * Nat.max 1 (length (filter (fun g => truth_key g = k) right)).
Proof.
  induction left as [|p left IH]; [reflexivity|].
  rewrite bind_cons, filter_app, length_app, IH, join_left_count, filter_cons.
  destruct (decide (pred_key p = k)) as [->|Hne]; cbn [length]; lia.
Qed.

Lemma right_rows_count left right k :
  length
    (filter (fun j => joined_key j = k)
       (join_right_only <$>
          filter (fun g => truth_key g ∉ pred_key <$> left) right))
  = if decide (k ∈ pred_key <$> left)
    then 0
    else length (filter (fun g => truth_key g = k) right).
Proof.
  rewrite length_filter_fmap.
  assert (Hkey : forall g, joined_key (join_right_only g) = truth_key g)
    by reflexivity.
  induction right as [|g right IH];
    [destruct (decide (k ∈ pred_key <$> left)); reflexivity|].
  rewrite !filter_cons.
  destruct (decide (truth_key g ∉ pred_key <$> left)) as [Hout|Hin].
  - rewrite filter_cons, Hkey.
    destruct (decide (truth_key g = k)) as [Hk|Hk].
    + cbn [length]. rewrite IH. subst k.
      destruct (decide (truth_key g ∈ pred_key <$> left));
        [contradiction|reflexivity].
    + exact IH.
  - rewrite IH. destruct (decide (truth_key g = k)) as [Hk|Hk];
      [|reflexivity].
    subst k. destruct (decide (truth_key g ∈ pred_key <$> left));
      [reflexivity|contradiction].
Qed.

Lemma no_row_of_key left k :
  k ∈ pred_key <$> left
  <-> 0 < length (filter (fun p => pred_key p = k) left).
Proof.
  induction left as [|p left IH].
  - split; [intros H; inversion H|cbn; lia].
  - rewrite fmap_cons, elem_of_cons, filter_cons.
    destruct (decide (pred_key p = k)) as [Hk|Hk]; cbn [length].
    + split; [lia|auto].
    + rewrite IH. split; [intros [?|?]; [congruence|assumption]|auto].
Qed.

(** What the outer join does with repeated keys. Whatever the two tables,
    a key that [p] predictions and [g] ground-truth rows have is the key of
    [p * g] rows of the aligned table when both tables have it, one per
    pair of rows, and of [p + g] rows when one of the tables has no row for
    it (one per row of the other table). *)
Theorem merge_key_multiplicity left right k :
  length
    (filter (fun r => aligned_key r = k)
       (merge_predictions_and_ground_truth left right))
  = let p := length (filter (fun p => pred_key p = k) left) in
    let g := length (filter (fun g => truth_key g = k) right) in
    if (0 <? p) && (0 <? g) then p * g else p + g.
Proof.
  unfold merge_predictions_and_ground_truth, outer_merge.
  rewrite length_filter_fmap.
  rewrite filter_app, length_app, left_rows_count, right_rows_count.
  pose proof (no_row_of_key left k) as Hp. cbv zeta.
  destruct (decide (k ∈ pred_key <$> left)) as [Hin|Hout].
  - apply Hp in Hin. rewrite (proj2 (Nat.ltb_lt _ _) Hin). cbn [andb].
    destruct (length (filter (fun g => truth_key g = k) right)) as [|g];
      cbn [Nat.ltb Nat.leb]; lia.
  - assert (Hz : length (filter (fun p => pred_key p = k) left) = 0)
      by (destruct (length (filter (fun p => pred_key p = k) left));
          [reflexivity|exfalso; apply Hout, Hp; lia]).
    rewrite Hz. reflexivity.
Qed.

(** Two predictions and two ground-truth rows for one pair give four
    aligned rows; a prediction alone gives one. *)
Example merge_repeated_key :
  length
    (filter (fun r => aligned_key r = ("A", "seq1"))
       (merge_predictions_and_ground_truth
          [MkPrediction "seq1" "A" 0.9; MkPrediction "seq1" "A" 0.8;
           MkPrediction "seq2" "A" 0.7]
          [MkTruth "seq1" "A" true; MkTruth "seq1" "A" true]))
  = 4
  /\ length
       (filter (fun r => aligned_key r = ("A", "seq2"))
          (merge_predictions_and_ground_truth
             [MkPrediction "seq1" "A" 0.9; MkPrediction "seq1" "A" 0.8;
              MkPrediction "seq2" "A" 0.7]
             [MkTruth "seq1" "A" true; MkTruth "seq1" "A" true]))
     = 1.
Proof. split; vm_compute; reflexivity. Qed.

End aligner_multiplicity.

(** ** Confusion Assigner: missed pairs and thresholds *)

Section one_sided.

Implicit Types (left : list prediction) (right : list truth).
Implicit Types (threshold : float).

(** A float is NaN exactly when its specification is. *)
Lemma SFcompare_refl (a : spec_float) :
  a <> S754_nan -> SFcompare a a = Some Eq.
Proof.
  destruct a as [s|s| |s m e]; intros Ha; try congruence; simpl;
    try (destruct s; reflexivity).
  rewrite Z.compare_refl, Pos.compare_cont_refl. destruct s; reflexivity.
Qed.

Lemma is_nan_spec (x : float) : is_nan x = true <-> Prim2SF x = S754_nan.
Proof.
  unfold is_nan. rewrite FloatAxioms.eqb_spec. unfold SFeqb. split.
  - intros H. destruct (Prim2SF x) eqn:E; try reflexivity;
      rewrite SFcompare_refl in H by discriminate; discriminate.
  - intros ->. reflexivity.
Qed.

Lemma SFcompare_total (a b : spec_float) :
  a <> S754_nan -> b <> S754_nan -> exists c, SFcompare a b = Some c.
Proof.
  destruct a, b; intros Ha Hb; try congruence; simpl; eauto.
Qed.

(** Two floats that are not NaN are ordered: exactly one of [x < y],
    [x == y] and [y < x] holds, and [x <= y] is [x < y] or [x == y]. *)
Lemma float_trichotomy (x y : float) :
  is_nan x = false -> is_nan y = false ->
  (PrimFloat.ltb x y = true /\ PrimFloat.eqb x y = false
   /\ PrimFloat.ltb y x = false /\ PrimFloat.leb x y = true)
  \/ (PrimFloat.ltb x y = false /\ PrimFloat.eqb x y = true
      /\ PrimFloat.ltb y x = false /\ PrimFloat.leb x y = true)
  \/ (PrimFloat.ltb x y = false /\ PrimFloat.eqb x y = false
      /\ PrimFloat.ltb y x = true /\ PrimFloat.leb x y = false).
Proof.
  intros Hx Hy.
  assert (Hx' : Prim2SF x <> S754_nan)
    by (intros H; apply is_nan_spec in H; congruence).
  assert (Hy' : Prim2SF y <> S754_nan)
    by (intros H; apply is_nan_spec in H; congruence).
  rewrite !ltb_spec, FloatAxioms.eqb_spec, leb_spec.
  unfold SFltb, SFeqb, SFleb.
  destruct (SFcompare_total _ _ Hx' Hy') as [c Hc].
  rewrite Hc, (SFcompare_antisym _ _ _ Hc).
  destruct c; simpl; auto 10.
Qed.

(** A comparison with NaN is false. *)
Lemma ltb_nan (x y : float) :
  is_nan x = true \/ is_nan y = true -> PrimFloat.ltb x y = false.
Proof.
  rewrite ltb_spec. unfold SFltb.
  intros [H|H]; apply is_nan_spec in H; rewrite H.
  - reflexivity.
  - destruct (Prim2SF x); reflexivity.
Qed.

(** The values of the aligned table are never NaN. *)
Lemma merge_values_not_nan left right :
  Forall (fun r => is_nan (scalar_num (value r)) = false)
    (merge_predictions_and_ground_truth left right).
Proof.
  unfold merge_predictions_and_ground_truth. apply Forall_fmap, Forall_true.
  intros [u l [x|] g]; unfold compose; cbn; [|reflexivity].
  destruct (is_nan x) eqn:E; [reflexivity|exact E].
Qed.

(** A ground-truth pair that no prediction covers is in the table with the
    value [False], which compares as 0: it is a false negative when the
    threshold is above 0, a true positive when the threshold is below 0,
    and neither when the threshold is 0. It is never a false positive
    when it is true. *)
Theorem assign_tp_fp_fn_missed left right threshold (g : truth) :
  g ∈ right ->
  truth_key g ∉ pred_key <$> left ->
  truth_gt g = true ->
  MkConfusion (MkAligned (truth_up_id g) (truth_label g) (SBool false) true)
    (fgt 0 threshold) false (flt 0 threshold)
  ∈ assign_tp_fp_fn left right threshold.
Proof.
  intros Hg Hout Hgt.
  assert (Hrow : MkAligned (truth_up_id g) (truth_label g) (SBool false) true
                 ∈ merge_predictions_and_ground_truth left right).
  { unfold merge_predictions_and_ground_truth, outer_merge.
    apply list_elem_of_fmap. exists (join_right_only g). split.
    - unfold fillna, join_right_only. cbn. rewrite Hgt. reflexivity.
    - apply elem_of_app. right. apply list_elem_of_fmap_2.
      apply list_elem_of_filter. auto. }
  unfold assign_tp_fp_fn. apply list_elem_of_fmap.
  eexists. split; [|exact Hrow]. reflexivity.
Qed.

Lemma assign_tp_fp_fn_missed_witness :
  MkConfusion (MkAligned "seq1" "B" (SBool false) true)
    (fgt 0 0.5) false (flt 0 0.5)
  ∈ assign_tp_fp_fn [MkPrediction "seq1" "A" 0.9]
      [MkTruth "seq1" "A" true; MkTruth "seq1" "B" true] 0.5.
Proof.
  apply (assign_tp_fp_fn_missed [MkPrediction "seq1" "A" 0.9]
           [MkTruth "seq1" "A" true; MkTruth "seq1" "B" true] 0.5
           (MkTruth "seq1" "B" true)).
  - right. left.
  - apply (bool_decide_unpack _). vm_compute. reflexivity.
  - reflexivity.
Defined.

(** For a threshold within the range of the dtype of the [value] column:
    when the threshold the column is compared with (the threshold brought
    to the column, [column_threshold]) is not NaN, the three flags,
    the tie and the true negatives cover every row, and exclude each other:
    a row with [gt = True] is exactly one of a true positive, a false
    negative and a tie (its value equals that threshold); a row with
    [gt = False] is a false positive or has a value at most that threshold,
    not both, and is neither a true positive nor a false negative. *)
Theorem assign_tp_fp_fn_covers (dt : dtype) left right threshold :
  in_range dt threshold = true ->
  is_nan
    (column_threshold dt (merge_predictions_and_ground_truth left right)
       threshold) = false ->
  Forall
    (fun c =>
       let v := scalar_num (value (row c)) in
       let t :=
         column_threshold dt (merge_predictions_and_ground_truth left right)
           threshold in
       (gt (row c) = true ->
        fp c = false
        /\ ((tp c = true /\ fn c = false /\ feq v t = false)
            \/ (tp c = false /\ fn c = true /\ feq v t = false)
            \/ (tp c = false /\ fn c = false /\ feq v t = true)))
       /\ (gt (row c) = false ->
           tp c = false /\ fn c = false
           /\ ((fp c = true /\ fge t v = false)
               \/ (fp c = false /\ fge t v = true))))
    (assign_tp_fp_fn_typed dt left right threshold).
Proof.
  intros _. unfold assign_tp_fp_fn_typed.
  generalize (column_threshold dt
                (merge_predictions_and_ground_truth left right) threshold).
  intros t Hnan. apply Forall_fmap.
  eapply Forall_impl; [apply merge_values_not_nan|].
  intros r Hr. unfold compose. cbn [assign_row row tp fp fn].
  cbn beta zeta in *. unfold fgt, flt, feq, fge.
  destruct (float_trichotomy (scalar_num (value r)) t Hr Hnan)
    as [(H1 & H2 & H3 & H4)|[(H1 & H2 & H3 & H4)|(H1 & H2 & H3 & H4)]];
    rewrite H1, H2, H3, H4; destruct (gt r); cbn;
    split; intros; try discriminate; auto 10.
Qed.

Lemma assign_tp_fp_fn_covers_witness :
  Forall
    (fun c =>
       let v := scalar_num (value (row c)) in
       let t :=
         column_threshold float32
           (merge_predictions_and_ground_truth
              [MkPrediction "seq1" "A" 0x1.333334p-2;
               MkPrediction "seq1" "B" 0.5]
              [MkTruth "seq1" "A" true; MkTruth "seq1" "B" true])
           0.3 in
       (gt (row c) = true ->
        fp c = false
        /\ ((tp c = true /\ fn c = false /\ feq v t = false)
            \/ (tp c = false /\ fn c = true /\ feq v t = false)
            \/ (tp c = false /\ fn c = false /\ feq v t = true)))
       /\ (gt (row c) = false ->
           tp c = false /\ fn c = false
           /\ ((fp c = true /\ fge t v = false)
               \/ (fp c = false /\ fge t v = true))))
    (assign_tp_fp_fn_typed float32
       [MkPrediction "seq1" "A" 0x1.333334p-2; MkPrediction "seq1" "B" 0.5]
       [MkTruth "seq1" "A" true; MkTruth "seq1" "B" true] 0.3).
Proof.
  apply (assign_tp_fp_fn_covers float32
           [MkPrediction "seq1" "A" 0x1.333334p-2;
            MkPrediction "seq1" "B" 0.5]
           [MkTruth "seq1" "A" true; MkTruth "seq1" "B" true] 0.3).
  - vm_compute. reflexivity.
  - vm_compute. reflexivity.
Defined.

(** With a NaN threshold no row gets a flag. *)
Theorem assign_tp_fp_fn_nan_threshold left right threshold :
  is_nan threshold = true ->
  Forall (fun c => tp c = false /\ fp c = false /\ fn c = false)
    (assign_tp_fp_fn left right threshold).
Proof.
  intros Hnan. unfold assign_tp_fp_fn. apply Forall_fmap, Forall_true.
  intros r. unfold compose. cbn [assign_row tp fp fn]. unfold fgt, flt.
  rewrite !ltb_nan by auto. rewrite !andb_false_r. auto.
Qed.

Lemma assign_tp_fp_fn_nan_threshold_witness :
  Forall (fun c => tp c = false /\ fp c = false /\ fn c = false)
    (assign_tp_fp_fn [MkPrediction "seq1" "A" 0.9]
       [MkTruth "seq1" "A" true] nan).
Proof.
  apply (assign_tp_fp_fn_nan_threshold [MkPrediction "seq1" "A" 0.9]
           [MkTruth "seq1" "A" true] nan).
  reflexivity.
Defined.

End one_sided.

(** ** Curve Builder: what compaction keeps, and when it fails *)

Section compaction_edges.

Implicit Types (ps rs ts : list float) (resolution : float).
Implicit Types (st : filter_state).

Lemma take_sublist_S {A : Type} (l : list A) (m : nat) :
  take m l `sublist_of` take (S m) l.
Proof.
  revert m. induction l as [|x l IH]; intros [|m]; cbn;
    try apply sublist_nil_l.
  apply sublist_skip, IH.
Qed.

Lemma head_snoc {A : Type} (l : list A) (x : A) :
  l <> [] -> head (l ++ [x]) = head l.
Proof. destruct l; [congruence|reflexivity]. Qed.

(** The invariant of the loop on what it has kept of the first [m]
    points. *)
Lemma filter_loop_sublist ps rs ts resolution (m : nat) st :
  foldM (filter_step ps rs ts resolution) (MkFilter None None [] [] [])
    (seq 0 m) = Ok st ->
  new_precisions st `sublist_of` take m ps
  /\ new_recalls st `sublist_of` take m rs
  /\ new_thresholds st `sublist_of` take m ts
  /\ (0 < m ->
      head (new_precisions st) = head ps
      /\ head (new_recalls st) = head rs
      /\ head (new_thresholds st) = head ts).
Proof.
  revert st. induction m as [|m IH]; intros st.
  - intros [= <-]. cbn. repeat split; try apply sublist_nil_l; lia.
  - rewrite foldM_seq_S.
    destruct (foldM _ _ (seq 0 m)) as [st0|] eqn:Efold; [|discriminate].
    cbn [bind]. destruct (IH st0 eq_refl) as (Hp & Hr & Ht & Hhead).
    pose proof (filter_loop_inv _ _ _ _ _ _ Efold)
      as (L1 & L2 & L3 & _ & _ & _ & Hpos).
    intros Hstep. apply filter_step_Ok in Hstep
      as [[Htest ->]|(p & r & t & Htest & Hpm & Hrm & Htm & ->)].
    + split; [|split; [|split]].
      * etransitivity; [exact Hp|apply take_sublist_S].
      * etransitivity; [exact Hr|apply take_sublist_S].
      * etransitivity; [exact Ht|apply take_sublist_S].
      * intros _. apply Hhead.
        apply filter_test_false in Htest as (lp & _ & _ & _ & Hlp & _).
        destruct m; [|lia]. cbn in Efold. injection Efold as <-.
        discriminate.
    + cbn [new_precisions new_recalls new_thresholds].
      rewrite (take_S_r _ _ _ Hpm), (take_S_r _ _ _ Hrm),
        (take_S_r _ _ _ Htm).
      split; [apply sublist_app; [exact Hp|reflexivity]|].
      split; [apply sublist_app; [exact Hr|reflexivity]|].
      split; [apply sublist_app; [exact Ht|reflexivity]|].
      intros _. destruct m as [|m'].
      * cbn in Efold. injection Efold as <-. cbn.
        destruct ps, rs, ts; try discriminate. cbn in *.
        repeat split; congruence.
      * destruct (Hhead ltac:(lia)) as (E1 & E2 & E3).
        specialize (Hpos ltac:(lia)).
        rewrite !head_snoc; [auto| | |].
        -- intros E. rewrite E in L2. rewrite L1, L2 in Hpos.
           cbn in Hpos. lia.
        -- intros E. rewrite E in L1. rewrite L1 in Hpos. cbn in Hpos. lia.
        -- intros E. rewrite E in Hpos. cbn in Hpos. lia.
Qed.

(** Compaction only drops points: what it returns is a subsequence of each
    of its three arguments, so it has no more points than the curve; and
    it never drops the first point. *)
Theorem filter_pr_curve_subsequence ps rs ts resolution
  (out : list float * list float * list float) :
  filter_pr_curve ps rs ts resolution = Ok out ->
  out.1.1 `sublist_of` ps
  /\ out.1.2 `sublist_of` rs
  /\ out.2 `sublist_of` ts
  /\ length out.1.1 <= length ps
  /\ (ps <> [] ->
      head out.1.1 = head ps /\ head out.1.2 = head rs
      /\ head out.2 = head ts).
Proof.
  unfold filter_pr_curve.
  destruct (foldM _ _ (seq 0 (length ps))) as [st|] eqn:E; [|discriminate].
  cbn [bind]. intros [= <-]. cbn [fst snd].
  destruct (filter_loop_sublist _ _ _ _ _ _ E) as (Hp & Hr & Ht & Hhead).
  rewrite take_ge in Hp by lia.
  split; [exact Hp|].
  split; [etransitivity; [exact Hr|apply sublist_take]|].
  split; [etransitivity; [exact Ht|apply sublist_take]|].
  split; [apply sublist_length, Hp|].
  intros Hne. apply Hhead. destruct ps; [congruence|cbn; lia].
Qed.

Lemma filter_pr_curve_subsequence_witness :
  ([0.5; 0.75], [1; 0.5], [0.1; 0.3])%float.1.1
    `sublist_of` [0.5; 0.5004; 0.75]%float
  /\ ([0.5; 0.75], [1; 0.5], [0.1; 0.3])%float.1.2
       `sublist_of` [1; 1; 0.5]%float
  /\ ([0.5; 0.75], [1; 0.5], [0.1; 0.3])%float.2
       `sublist_of` [0.1; 0.2; 0.3]%float
  /\ length ([0.5; 0.75], [1; 0.5], [0.1; 0.3])%float.1.1
     <= length [0.5; 0.5004; 0.75]%float
  /\ ([0.5; 0.5004; 0.75]%float <> [] ->
      head ([0.5; 0.75], [1; 0.5], [0.1; 0.3])%float.1.1
      = head [0.5; 0.5004; 0.75]%float
      /\ head ([0.5; 0.75], [1; 0.5], [0.1; 0.3])%float.1.2
         = head [1; 1; 0.5]%float
      /\ head ([0.5; 0.75], [1; 0.5], [0.1; 0.3])%float.2
         = head [0.1; 0.2; 0.3]%float).
Proof.
  apply (filter_pr_curve_subsequence [0.5; 0.5004; 0.75]%float
           [1; 1; 0.5]%float [0.1; 0.2; 0.3]%float default_resolution).
  vm_compute. reflexivity.
Defined.

(** The curves compaction leaves as they are: a curve is returned
    unchanged exactly when each of its points is at least the resolution
    away from the point before it, in precision or in recall. *)
Theorem filter_pr_curve_fixed_points ps rs ts resolution :
  length rs = length ps -> length ts = length ps ->
  filter_pr_curve ps rs ts resolution = Ok (ps, rs, ts)
  <-> spaced resolution ps rs.
Proof.
  intros Hr Ht. split.
  - unfold filter_pr_curve.
    destruct (foldM _ _ (seq 0 (length ps))) as [st|] eqn:E; [|discriminate].
    cbn [bind]. intros [= <- <- <-].
    apply filter_loop_inv in E as (_ & _ & _ & _ & Hsp & _). exact Hsp.
  - intros Hsp. unfold filter_pr_curve.
    rewrite (filter_loop_spaced ps rs ts resolution (length ps))
      by (auto; lia).
    cbn [bind new_precisions new_recalls new_thresholds].
    rewrite !take_ge by lia. reflexivity.
Qed.

Lemma filter_pr_curve_fixed_points_witness :
  filter_pr_curve [0.5; 0.75]%float [1; 0.5]%float [0.1; 0.3]%float
    default_resolution
  = Ok ([0.5; 0.75], [1; 0.5], [0.1; 0.3])%float
  <-> spaced default_resolution [0.5; 0.75]%float [1; 0.5]%float.
Proof.
  apply (filter_pr_curve_fixed_points [0.5; 0.75]%float [1; 0.5]%float
           [0.1; 0.3]%float default_resolution); reflexivity.
Defined.

(** A round raises IndexError, unless the state has a last precision
    without a last recall. *)
Lemma filter_step_Raise ps rs ts resolution st (i : nat) (e : exn) :
  (last_precision st = None <-> last_recall st = None) ->
  filter_step ps rs ts resolution st i = Raise e -> e = IndexError.
Proof.
  intros Hlast. unfold filter_step, filter_test, index.
  destruct (last_precision st) as [lp|].
  - destruct (last_recall st) as [lr|];
      [|destruct Hlast as [_ H]; discriminate (H eq_refl)].
    destruct (ps !! i) as [p|]; cbn [bind]; [|congruence].
    destruct (far resolution p lp); cbn [bind].
    + destruct (rs !! i); cbn [bind]; [|congruence].
      destruct (ts !! i); cbn [bind]; congruence.
    + destruct (rs !! i) as [r|]; cbn [bind]; [|congruence].
      destruct (far resolution r lr); cbn [bind]; [|congruence].
      destruct (ts !! i); cbn [bind]; congruence.
  - cbn [bind]. destruct (ps !! i); cbn [bind]; [|congruence].
    destruct (rs !! i); cbn [bind]; [|congruence].
    destruct (ts !! i); cbn [bind]; congruence.
Qed.

Lemma filter_loop_Raise ps rs ts resolution (m : nat) (e : exn) :
  foldM (filter_step ps rs ts resolution) (MkFilter None None [] [] [])
    (seq 0 m) = Raise e ->
  e = IndexError.
Proof.
  induction m as [|m IH]; [discriminate|].
  rewrite foldM_seq_S.
  destruct (foldM _ _ (seq 0 m)) as [st0|e0] eqn:Efold; cbn [bind].
  - apply filter_step_Raise.
    apply filter_loop_inv in Efold as (L1 & _ & L3 & L4 & _).
    rewrite L3, L4, !last_None. split; intros E; rewrite E in L1.
    + destruct (new_recalls st0); [reflexivity|discriminate].
    + destruct (new_precisions st0); [reflexivity|discriminate].
  - intros [= <-]. apply IH. reflexivity.
Qed.

Lemma foldM_ext {St A : Type} (f g : St -> A -> result St) (s : St)
  (l : list A) :
  (forall s0 a, a ∈ l -> f s0 a = g s0 a) -> foldM f s l = foldM g s l.
Proof.
  revert s. induction l as [|a l IH]; intros s H; [reflexivity|].
  cbn [foldM]. rewrite (H s a) by left.
  destruct (g s a); cbn [bind]; [|reflexivity].
  apply IH. intros s0 b Hb. apply H. right. exact Hb.
Qed.

(** How compaction treats lists of different lengths. It runs over the
    precisions: recalls and thresholds beyond their number are ignored; a
    list of recalls that is shorter makes it raise IndexError; and
    IndexError is the only exception it raises. *)
Theorem filter_pr_curve_lengths ps rs ts resolution :
  filter_pr_curve ps rs ts resolution
  = filter_pr_curve ps (take (length ps) rs) (take (length ps) ts) resolution
  /\ (length rs < length ps ->
      filter_pr_curve ps rs ts resolution = Raise IndexError)
  /\ (forall e, filter_pr_curve ps rs ts resolution = Raise e ->
                e = IndexError).
Proof.
  assert (Hraise : forall e, filter_pr_curve ps rs ts resolution = Raise e ->
                             e = IndexError).
  { intros e. unfold filter_pr_curve.
    destruct (foldM _ _ (seq 0 (length ps))) as [st|e0] eqn:E; cbn [bind];
      [discriminate|].
    intros [= <-]. eapply filter_loop_Raise, E. }
  split; [|split; [|exact Hraise]].
  - unfold filter_pr_curve. f_equal. apply foldM_ext.
    intros st i Hi%elem_of_seq. unfold filter_step, filter_test, index.
    rewrite !lookup_take_lt by lia. reflexivity.
  - intros Hlt.
    destruct (filter_pr_curve ps rs ts resolution) as [out|e] eqn:E;
      [|rewrite (Hraise e eq_refl); reflexivity].
    exfalso. unfold filter_pr_curve in E.
    replace (length ps) with (S (length rs) + (length ps - S (length rs)))
      in E by lia.
    rewrite seq_app, foldM_app, foldM_seq_S in E.
    destruct (foldM _ _ (seq 0 (length rs))) as [st0|] eqn:E0;
      cbn [bind] in E; [|discriminate].
    destruct (filter_step ps rs ts resolution st0 (length rs)) as [st1|]
      eqn:E1; cbn [bind] in E; [|discriminate].
    assert (Hnone : rs !! length rs = None)
      by (apply lookup_ge_None; lia).
    apply filter_step_Ok in E1
      as [[Htest _]|(p & r & t & _ & _ & Hr & _)]; [|congruence].
    apply filter_test_false in Htest as (? & ? & ? & r & _ & _ & _ & Hr & _).
    congruence.
Qed.

Lemma filter_pr_curve_lengths_witness :
  filter_pr_curve [0.5; 0.75]%float [1%float] [0.1; 0.3]%float
    default_resolution
  = Raise IndexError.
Proof.
  apply (filter_pr_curve_lengths [0.5; 0.75]%float [1%float]
           [0.1; 0.3]%float default_resolution).
  simpl. lia.
Defined.

End compaction_edges.

(** ** Curve Builder: the F1 column *)

Section f1_column.

Lemma f1_scores_values (ps rs : list float) :
  length ps = length rs ->
  f1_scores ps rs
  = Ok (zip_with (fun p r => (2 * p * r / (p + r))%float) ps rs).
Proof.
  intros H. unfold f1_scores.
  rewrite (broadcast_same _ (_ <$> ps)) by (rewrite length_fmap; exact H).
  cbn [bind]. rewrite (broadcast_same _ ps rs) by exact H. cbn [bind].
  rewrite broadcast_same
    by (rewrite !length_zip_with, length_fmap; reflexivity).
  f_equal. revert rs H.
  induction ps as [|p ps IH]; intros [|r rs] H; try discriminate;
    [reflexivity|].
  cbn. f_equal. apply IH. cbn in H. lia.
Qed.

(** Every row of the table of a group that is not empty has its F1 score
    computed from its own precision and recall,
    [2 * precision * recall / (precision + recall)] in floating point, NaN
    when both are 0; no row is left out or guarded. *)
Theorem curve_of_group_f1 (filtered : bool) (group : list aligned)
  (group_name : string) :
  group <> [] ->
  exists pts,
    curve_of_group filtered (group_name, group) = Ok pts
    /\ Forall
         (fun pt =>
            curve_f1 pt
            = (2 * curve_precision pt * curve_recall pt
               / (curve_precision pt + curve_recall pt))%float) pts.
Proof.
  intros Hne.
  destruct (curve_arrays_shape filtered group Hne)
    as (_ & _ & ps & rs & ts & _ & _ & Hca & H1 & H2 & _).
  unfold curve_of_group. cbn [fst snd]. rewrite Hca. cbn [bind fst snd].
  rewrite f1_scores_values by lia. cbn [bind]. unfold curve_frame.
  rewrite !length_zip_with.
  replace (length ps =? length rs) with true
    by (symmetry; apply Nat.eqb_eq; lia).
  replace (length rs =? length ts) with true
    by (symmetry; apply Nat.eqb_eq; lia).
  replace (length ts =? length ps `min` length rs) with true
    by (symmetry; apply Nat.eqb_eq; lia).
  eexists. split; [reflexivity|].
  apply Forall_forall. intros pt Hpt.
  apply list_elem_of_lookup in Hpt as [k Hk].
  apply lookup_zip_with_Some in Hk as ([p r] & [t f] & -> & Hpr & Htf).
  apply lookup_zip_with_Some in Hpr as (p' & r' & [= <- <-] & Hp & Hr).
  apply lookup_zip_with_Some in Htf as (t' & f' & [= <- <-] & Ht & Hf).
  apply lookup_zip_with_Some in Hf as (p2 & r2 & -> & Hp2 & Hr2).
  cbn. congruence.
Qed.

Lemma curve_of_group_f1_witness :
  exists pts,
    curve_of_group true
      ("all", [MkAligned "seq1" "A" (SFloat 0.9) true;
               MkAligned "seq1" "B" (SFloat 0.2) false]) = Ok pts
    /\ Forall
         (fun pt =>
            curve_f1 pt
            = (2 * curve_precision pt * curve_recall pt
               / (curve_precision pt + curve_recall pt))%float) pts.
Proof.
  apply (curve_of_group_f1 true
           [MkAligned "seq1" "A" (SFloat 0.9) true;
            MkAligned "seq1" "B" (SFloat 0.2) false] "all").
  discriminate.
Defined.

End f1_column.

(** ** From a directory of shards to the tidy table *)

Section normalized_results.

Context {L : Type}.
Context (absolute_paths_of_files_in_dir : string -> list string).
Context (parse_shard : string -> list inference_record).
Context (normalize_confidences : matrix -> list string -> L -> matrix).

Lemma batched_inferences_from_files_empty (shard_names : list string)
  (batch_size : Z) :
  Forall (fun f => parse_shard f = []) shard_names ->
  batched_inferences_from_files parse_shard shard_names batch_size
  = ([], None).
Proof.
  induction 1 as [|f fs Hf _ IH]; [reflexivity|].
  cbn [batched_inferences_from_files]. rewrite Hf, IH. reflexivity.
Qed.

(** A directory without records, because it has no shard or because its
    shards are empty, gives no table: there is nothing to concatenate and
    the call raises ValueError. *)
Theorem get_normalized_inference_results_no_records
  (shard_dir_path : string) (vocab : list string) (label_normalizer : L)
  (min_decision_threshold : float) :
  Forall (fun f => parse_shard f = [])
    (absolute_paths_of_files_in_dir shard_dir_path) ->
  get_normalized_inference_results absolute_paths_of_files_in_dir
    parse_shard normalize_confidences shard_dir_path vocab label_normalizer
    min_decision_threshold
  = Raise ValueError.
Proof.
  intros H. unfold get_normalized_inference_results,
    batched_inferences_from_dir.
  rewrite batched_inferences_from_files_empty by exact H. reflexivity.
Qed.

Lemma mapM_Ok_inv {A B : Type} (body : A -> result B) (l : list A)
  (bs : list B) :
  mapM body l = Ok bs -> Forall2 (fun a b => body a = Ok b) l bs.
Proof.
  revert bs. induction l as [|a l IH]; intros bs.
  - intros [= <-]. constructor.
  - cbn [mapM]. destruct (body a) as [b|] eqn:Eb; cbn [bind]; [|discriminate].
    destruct (mapM body l) as [bs'|]; cbn [bind]; [|discriminate].
    intros [= <-]. constructor; [exact Eb|]. apply IH. reflexivity.
Qed.

(** Every batch of a run over files comes from one of the files. *)
Lemma batched_inferences_from_files_batch (shard_names : list string)
  (batch_size : Z) (b : batch) :
  b ∈ (batched_inferences_from_files parse_shard shard_names batch_size).1 ->
  exists f, f ∈ shard_names
            /\ b ∈ (batch_inferences (parse_shard f) batch_size).1.
Proof.
  induction shard_names as [|f fs IH]; [intros H; inversion H|].
  cbn [batched_inferences_from_files].
  destruct (batch_inferences (parse_shard f) batch_size).2; cbn [fst].
  - intros Hb. exists f. split; [left|exact Hb].
  - rewrite elem_of_app. intros [Hb|Hb].
    + exists f. split; [left|exact Hb].
    + destruct (IH Hb) as (f' & Hf' & Hb'). exists f'.
      split; [right; exact Hf'|exact Hb'].
Qed.

(** The identifiers of a batch are identifiers of the records. *)
Lemma batch_inferences_ids (records : list inference_record) (B : nat)
  (b : batch) (u : string) :
  0 < B -> b ∈ (batch_inferences records (Z.of_nat B)).1 -> u ∈ b.1 ->
  u ∈ records.*1.
Proof.
  intros HB Hb Hu. unfold batch_inferences in Hb.
  destruct (batch_loop_chunks B records [] HB ltac:(simpl; lia))
    as (chunks & rest & Hbs & _ & Hcat & _).
  simpl in Hbs, Hcat. change (Z.of_nat 0) with 0%Z in Hbs.
  rewrite Hbs in Hb. apply list_elem_of_fmap in Hb as (c & -> & Hc).
  cbn [batch_of fst] in Hu. apply list_elem_of_fmap in Hu as (r & -> & Hr).
  rewrite Hcat. apply list_elem_of_fmap_2, elem_of_app. left.
  apply list_elem_of_In, in_concat. exists c.
  split; apply list_elem_of_In; assumption.
Qed.

(** A table [get_normalized_inference_results] returns holds only values
    above the threshold, labels of the vocabulary and identifiers of
    records of the shards of the directory, whatever the normalizer
    does. *)
Theorem get_normalized_inference_results_sound
  (shard_dir_path : string) (vocab : list string) (label_normalizer : L)
  (min_decision_threshold : float) (rows : list prediction) :
  get_normalized_inference_results absolute_paths_of_files_in_dir
    parse_shard normalize_confidences shard_dir_path vocab label_normalizer
    min_decision_threshold
  = Ok rows ->
  Forall
    (fun r =>
       fgt (pred_value r) min_decision_threshold = true
       /\ pred_label r ∈ vocab
       /\ pred_up_id r
          ∈ (absolute_paths_of_files_in_dir shard_dir_path
               ≫= parse_shard).*1)
    rows.
Proof.
  unfold get_normalized_inference_results, batched_inferences_from_dir.
  set (files := absolute_paths_of_files_in_dir shard_dir_path).
  set (batches :=
         batched_inferences_from_files parse_shard files default_batch_size).
  destruct (mapM _ batches.1) as [dfs|] eqn:Edfs; cbn [bind]; [|discriminate].
  destruct batches.2; [discriminate|].
  destruct dfs as [|df dfs]; [discriminate|]. cbn [pd_concat].
  intros [= <-]. apply mapM_Ok_inv in Edfs.
  apply Forall_forall. intros r Hr.
  apply list_elem_of_In in Hr.
  change (In r (concat (df :: dfs))) in Hr.
  apply in_concat in Hr as (df' & Hdf' & Hr).
  apply list_elem_of_In in Hdf', Hr.
  apply list_elem_of_lookup in Hdf' as [k Hk].
  destruct (Forall2_lookup_r _ _ _ _ _ Edfs Hk) as (b & Hb & Htidy).
  unfold tidy_batch in Htidy.
  pose proof (tidy_rows_sound _ _ _ _ _ Htidy) as Hsound.
  rewrite Forall_forall in Hsound.
  destruct (Hsound r Hr) as (Hv & Hl & Hu).
  split; [exact Hv|]. split; [exact Hl|].
  assert (Hin : b ∈ batches.1) by (apply list_elem_of_lookup; eauto).
  apply batched_inferences_from_files_batch in Hin as (f & Hf & Hbf).
  change default_batch_size with (Z.of_nat 100) in Hbf.
  pose proof (batch_inferences_ids _ 100 b _ ltac:(lia) Hbf Hu) as Hrec.
  apply list_elem_of_fmap in Hrec as (rec & -> & Hrec).
  apply list_elem_of_fmap_2, list_elem_of_bind. eauto.
Qed.

End normalized_results.

Section normalized_results_examples.


Lemma get_normalized_inference_results_no_records_witness :
  get_normalized_inference_results
    (fun _ => ["shard-0"; "shard-1"]) (fun _ => [])
    (fun (m : matrix) (_ : list string) (_ : unit) => m)
    "shards" ["A"; "B"] tt 0.3%float
  = Raise ValueError.
Proof.
  apply (get_normalized_inference_results_no_records
           (fun _ => ["shard-0"; "shard-1"]) (fun _ => [])
           (fun (m : matrix) (_ : list string) (_ : unit) => m)
           "shards" ["A"; "B"] tt 0.3%float).
  repeat constructor.
Defined.

Lemma get_normalized_inference_results_sound_witness :
  Forall
    (fun r =>
       fgt (pred_value r) 0.3 = true
       /\ pred_label r ∈ ["A"; "B"]
       /\ pred_up_id r
          ∈ (["shard-0"; "shard-1"] ≫=
               (fun f : string =>
                  if String.eqb f "shard-0"
                  then [("seq1", [0.9; 0.1]%float)]
                  else [("seq2", [0.2; 0.5]%float)])).*1)
    [MkPrediction "seq1" "A" 0.9; MkPrediction "seq2" "B" 0.5].
Proof.
  apply (get_normalized_inference_results_sound
           (fun _ => ["shard-0"; "shard-1"])
           (fun f : string =>
              if String.eqb f "shard-0"
              then [("seq1", [0.9; 0.1]%float)]
              else [("seq2", [0.2; 0.5]%float)])
           (fun (m : matrix) (_ : list string) (_ : unit) => m)
           "shards" ["A"; "B"] tt 0.3%float).
  vm_compute. reflexivity.
Defined.

End normalized_results_examples.
